(** * TPO.py: hub selection and delivery routes

    A shallow embedding of [floyd_warshall] and [calcular_mejor_camino]
    (with its inner [probar_combinaciones]) of [src/TPO.py], and the
    properties of the distance matrix, the trip grouping, the per-trip
    choice of a departure point and the search over hub subsets.
    Of the reading of the case file it embeds [eliminar_comentario],
    [leer_seccion] and, of [leer_datos], the scan for section headers
    and the loops that fill the dicts; the parsing of numbers, the files
    and [main] are left out.

    Conventions of the embedding.
    - Python numbers: the weights and hub costs are doubles, the counters
      are ints.  [num] keeps IEEE's special values (+inf, -inf, nan) with
      their sums and comparisons, and takes the finite values as exact
      integers (multiples of a common unit): the rounding of the sums of
      finite doubles is not modelled.
    - Python exceptions: a computation is a [resultado]: a value, a raised
      [IndexError] or [KeyError], or the exhaustion of the recursion
      budget ([SinFuel]) of the recursive search.
    - Python lists are [list]s read with [py_getitem] (negative indices
      count from the end, anything else out of range raises); dicts are
      association lists in insertion order (the keys of a Python dict
      are distinct; no statement below needs it).
    - The [nonlocal] variables of [probar_combinaciones] and the list
      [hubs_activos] it appends to and pops from are the fields of
      [estado], passed from call to call.  [traza] is a ghost log of the
      leaves evaluated; no computation reads it.
    - A [str] is the list of the code points of its characters;
      [str.isspace] and [str.upper] are parameters of the definitions
      that use them, and so is the parser handed to [leer_seccion], which
      returns [None] where it raises. *)

From Stdlib Require Import ZArith List Bool Lia.
Import ListNotations.
Local Open Scope Z_scope.

(** ** Numbers *)

Inductive num : Type :=
| Fin (z : Z)
| PInf
| NInf
| NaN.

Definition add (x y : num) : num :=
  match x, y with
  | NaN, _ | _, NaN => NaN
  | PInf, NInf | NInf, PInf => NaN
  | PInf, _ | _, PInf => PInf
  | NInf, _ | _, NInf => NInf
  | Fin a, Fin b => Fin (a + b)
  end.

Definition neg (x : num) : num :=
  match x with
  | Fin a => Fin (- a)
  | PInf => NInf
  | NInf => PInf
  | NaN => NaN
  end.

Definition sub (x y : num) : num := add x (neg y).

(** [x < y] of Python: false as soon as one side is nan. *)
Definition ltb (x y : num) : bool :=
  match x, y with
  | NaN, _ | _, NaN => false
  | _, NInf => false
  | NInf, _ => true
  | PInf, _ => false
  | Fin _, PInf => true
  | Fin a, Fin b => a <? b
  end.

Definition gtb (x y : num) : bool := ltb y x.

(** [x <= y] of Python. *)
Definition leb (x y : num) : bool :=
  match x, y with
  | NaN, _ | _, NaN => false
  | NInf, _ => true
  | _, NInf => false
  | _, PInf => true
  | PInf, _ => false
  | Fin a, Fin b => a <=? b
  end.

(** Finite or +inf: what sums of weights are. *)
Definition buena (x : num) : Prop :=
  match x with
  | Fin _ | PInf => True
  | _ => False
  end.

(** Finite and non-negative, or +inf. *)
Definition nn (x : num) : Prop :=
  match x with
  | Fin z => 0 <= z
  | PInf => True
  | _ => False
  end.

(** A finite non-negative weight, as an edge carries. *)
Definition peso_valido (x : num) : Prop :=
  match x with
  | Fin z => 0 <= z
  | _ => False
  end.

(** ** Computations that may raise *)

Inductive excepcion : Type := IndexError | KeyError.

Inductive resultado (A : Type) : Type :=
| Ok (a : A)
| Lanza (e : excepcion)
| SinFuel.

Arguments Ok {A} a.
Arguments Lanza {A} e.
Arguments SinFuel {A}.

Definition bind {A B : Type} (m : resultado A) (f : A -> resultado B)
  : resultado B :=
  match m with
  | Ok a => f a
  | Lanza e => Lanza e
  | SinFuel => SinFuel
  end.

Notation "x <- m ;; k" := (bind m (fun x => k))
  (at level 61, m at next level, right associativity).
Notation "' p <- m ;; k" := (bind m (fun x => match x with p => k end))
  (at level 61, p pattern, m at next level, right associativity).

(** A [for] loop over [l] whose body may raise. *)
Fixpoint for_each {S X : Type} (body : S -> X -> resultado S)
  (l : list X) (s : S) : resultado S :=
  match l with
  | [] => Ok s
  | x :: l' => s' <- body s x ;; for_each body l' s'
  end.

(** ** Python lists *)

Definition py_pos (n i : Z) : Z := if i <? 0 then i + n else i.

Definition py_getitem {A : Type} (l : list A) (i : Z) : resultado A :=
  let n := Z.of_nat (length l) in
  let p := py_pos n i in
  if (0 <=? p) && (p <? n) then
    match nth_error l (Z.to_nat p) with
    | Some x => Ok x
    | None => Lanza IndexError
    end
  else Lanza IndexError.

Fixpoint reemplazar {A : Type} (l : list A) (k : nat) (x : A) : list A :=
  match l, k with
  | [], _ => []
  | _ :: t, O => x :: t
  | h :: t, S k' => h :: reemplazar t k' x
  end.

Definition py_setitem {A : Type} (l : list A) (i : Z) (x : A)
  : resultado (list A) :=
  let n := Z.of_nat (length l) in
  let p := py_pos n i in
  if (0 <=? p) && (p <? n) then Ok (reemplazar l (Z.to_nat p) x)
  else Lanza IndexError.

(** [l.pop()] *)
Definition py_pop {A : Type} (l : list A) : resultado (list A) :=
  match l with
  | [] => Lanza IndexError
  | _ => Ok (removelast l)
  end.

(** [range(n)] *)
Definition range (n : Z) : list Z := map Z.of_nat (seq 0 (Z.to_nat n)).

(** ** Python dicts: association lists in insertion order *)

Definition dict (K V : Type) : Type := list (K * V).

Definition dict_keys {K V : Type} (d : dict K V) : list K := map fst d.

Fixpoint dict_get {V : Type} (d : dict Z V) (k : Z) : option V :=
  match d with
  | [] => None
  | (k', v) :: r => if k =? k' then Some v else dict_get r k
  end.

(** [d[k]] *)
Definition dict_getitem {V : Type} (d : dict Z V) (k : Z) : resultado V :=
  match dict_get d k with
  | Some v => Ok v
  | None => Lanza KeyError
  end.

(** [d.get(k, v0)] *)
Definition dict_get_default {V : Type} (d : dict Z V) (k : Z) (v0 : V) : V :=
  match dict_get d k with
  | Some v => v
  | None => v0
  end.

(** [d[k] = v]: the value of an existing key is replaced where it
    stands, a new key goes to the end. *)
Fixpoint dict_set {V : Type} (d : dict Z V) (k : Z) (v : V) : dict Z V :=
  match d with
  | [] => [(k, v)]
  | (k', v') :: r =>
      if k =? k' then (k', v) :: r else (k', v') :: dict_set r k v
  end.

(** ** The distance matrix *)

Definition matrix : Type := list (list num).

(** [m[i][j]] *)
Definition mget (m : matrix) (i j : Z) : resultado num :=
  fila <- py_getitem m i ;; py_getitem fila j.

(** [m[i][j] = x]; the rows are distinct lists. *)
Definition mset (m : matrix) (i j : Z) (x : num) : resultado matrix :=
  fila <- py_getitem m i ;;
  fila' <- py_setitem fila j x ;;
  py_setitem m i fila'.

(** The entry read back, for statements: nan where the read raises. *)
Definition entry (m : matrix) (i j : Z) : num :=
  match mget m i j with
  | Ok x => x
  | _ => NaN
  end.

(** The body of the innermost loop of [floyd_warshall]. *)
Definition relajar (k i j : Z) (dist : matrix) : resultado matrix :=
  dij <- mget dist i j ;;
  dik <- mget dist i k ;;
  dkj <- mget dist k j ;;
  if gtb dij (add dik dkj) then mset dist i j (add dik dkj) else Ok dist.

Definition fw_inicial (num_nodos : Z) : matrix :=
  let n := Z.to_nat num_nodos in repeat (repeat PInf n) n.

Definition fw_diagonal (num_nodos : Z) (dist : matrix) : resultado matrix :=
  for_each (fun d i => mset d i i (Fin 0)) (range num_nodos) dist.

Definition fw_arista (d : matrix) (a : (Z * Z) * num) : resultado matrix :=
  let '((u, v), peso) := a in
  d' <- mset d u v peso ;; mset d' v u peso.

Definition fw_aristas (aristas : dict (Z * Z) num) (dist : matrix)
  : resultado matrix :=
  for_each fw_arista aristas dist.

Definition fw_bucles (num_nodos : Z) (dist : matrix) : resultado matrix :=
  for_each (fun d k =>
    for_each (fun d i =>
      for_each (fun d j => relajar k i j d) (range num_nodos) d)
      (range num_nodos) d)
    (range num_nodos) dist.

Definition floyd_warshall (aristas : dict (Z * Z) num) (num_nodos : Z)
  : resultado matrix :=
  dist <- fw_diagonal num_nodos (fw_inicial num_nodos) ;;
  dist <- fw_aristas aristas dist ;;
  fw_bucles num_nodos dist.

(** ** The case read from the input file *)

Record configuracion : Type := {
  num_nodos : Z;
  num_hubs : Z;
  num_paquetes : Z;
  capacidad_camion : Z;
  deposito_id : Z
}.

Record paquete : Type := { origen : Z; destino : Z }.

Record datos : Type := {
  d_configuracion : configuracion;
  d_nodos : dict Z (Z * Z);
  d_hubs : dict Z num;
  d_paquetes : dict Z paquete;
  d_aristas : dict (Z * Z) num
}.

(** ** Grouping the destinations into trips *)

(** The loop that fills [paquetes_por_destino]. *)
Definition contar_destinos (paquetes : dict Z paquete) : dict Z Z :=
  fold_left (fun acc ip =>
               let d := destino (snd ip) in
               dict_set acc d (dict_get_default acc d 0 + 1))
            paquetes [].

Record agrupacion : Type := {
  viajes : list (list Z);
  viaje_actual : list Z;
  carga_actual : Z
}.

Definition agrupar_destino (ppd : dict Z Z) (capacidad : Z)
  (a : agrupacion) (d : Z) : resultado agrupacion :=
  cant <- dict_getitem ppd d ;;
  let a' := if carga_actual a + cant >? capacidad
            then {| viajes := viajes a ++ [viaje_actual a];
                    viaje_actual := [];
                    carga_actual := 0 |}
            else a in
  Ok {| viajes := viajes a';
        viaje_actual := viaje_actual a' ++ [d];
        carga_actual := carga_actual a' + cant |}.

Definition agrupar_viajes (ppd : dict Z Z) (capacidad : Z)
  : resultado (list (list Z)) :=
  a <- for_each (agrupar_destino ppd capacidad) (dict_keys ppd)
         {| viajes := []; viaje_actual := []; carga_actual := 0 |} ;;
  Ok (match viaje_actual a with
      | [] => viajes a
      | _ => viajes a ++ [viaje_actual a]
      end).

(** ** The cost of a trip and of a leaf *)

(** The distance of [viaje] when the truck leaves from [punto_inicio]. *)
Definition distancia_desde (matriz : matrix) (deposito : Z)
  (viaje : list Z) (punto_inicio : Z) : resultado num :=
  v0 <- py_getitem viaje 0 ;;
  d0 <- mget matriz punto_inicio v0 ;;
  d1 <- for_each (fun acc k =>
                    a <- py_getitem viaje k ;;
                    b <- py_getitem viaje (k + 1) ;;
                    x <- mget matriz a b ;;
                    Ok (add acc x))
          (range (Z.of_nat (length viaje) - 1)) d0 ;;
  vl <- py_getitem viaje (-1) ;;
  dl <- mget matriz vl deposito ;;
  Ok (add d1 dl).

(** One candidate departure point: kept only when strictly cheaper. *)
Definition probar_inicio (matriz : matrix) (deposito : Z) (viaje : list Z)
  (mejor : num * Z) (punto_inicio : Z) : resultado (num * Z) :=
  distancia_viaje <- distancia_desde matriz deposito viaje punto_inicio ;;
  Ok (if ltb distancia_viaje (fst mejor)
      then (distancia_viaje, punto_inicio)
      else mejor).

(** [(menor_distancia_viaje, mejor_inicio)] of one trip. *)
Definition evaluar_viaje (matriz : matrix) (deposito : Z)
  (hubs_activos : list Z) (viaje : list Z) : resultado (num * Z) :=
  for_each (probar_inicio matriz deposito viaje)
           ([deposito] ++ hubs_activos) (PInf, deposito).

(** [(distancia_total, ruta_total)] over the trips. *)
Definition recorrer_viajes (matriz : matrix) (deposito : Z)
  (hubs_activos : list Z) (vs : list (list Z)) : resultado (num * list Z) :=
  for_each (fun acc viaje =>
              m <- evaluar_viaje matriz deposito hubs_activos viaje ;;
              Ok (add (fst acc) (fst m),
                  snd acc ++ [snd m] ++ viaje ++ [deposito]))
           vs (Fin 0, [deposito]).

(** ** The search over the hub subsets *)

(** A leaf evaluated, as logged in the ghost trace. *)
Record evento : Type := {
  ev_hubs : list Z;
  ev_viajes : list (list Z);
  ev_ruta : list Z;
  ev_distancia : num;
  ev_costo : num
}.

Record estado : Type := {
  mejor_costo : num;
  mejor_hubs : list Z;
  mejor_ruta : list Z;
  mejor_distancia : num;
  hubs_activos : list Z;
  traza : list evento
}.

Definition estado_inicial : estado :=
  {| mejor_costo := PInf; mejor_hubs := []; mejor_ruta := [];
     mejor_distancia := Fin 0; hubs_activos := []; traza := [] |}.

(** The update of the best result at a leaf. *)
Definition actualizar (e : evento) (st : estado) : estado :=
  if ltb (ev_costo e) (mejor_costo st)
  then {| mejor_costo := ev_costo e;
          mejor_hubs := ev_hubs e;
          mejor_ruta := ev_ruta e;
          mejor_distancia := ev_distancia e;
          hubs_activos := hubs_activos st;
          traza := traza st ++ [e] |}
  else {| mejor_costo := mejor_costo st;
          mejor_hubs := mejor_hubs st;
          mejor_ruta := mejor_ruta st;
          mejor_distancia := mejor_distancia st;
          hubs_activos := hubs_activos st;
          traza := traza st ++ [e] |}.

Section CalcularMejorCamino.

Variable dat : datos.
Variable matriz : matrix.

Definition deposito : Z := deposito_id (d_configuracion dat).
Definition capacidad : Z := capacidad_camion (d_configuracion dat).
Definition hubs : list Z := dict_keys (d_hubs dat).
Definition costo_hubs : dict Z num := d_hubs dat.
Definition paquetes_por_destino : dict Z Z :=
  contar_destinos (d_paquetes dat).

(** The base case of [probar_combinaciones], up to the update: the trips,
    the route and the two costs of the subset [activos]. *)
Definition evaluar_hoja (activos : list Z) (costo_activacion : num)
  : resultado evento :=
  vs <- agrupar_viajes paquetes_por_destino capacidad ;;
  '(distancia_total, ruta_total) <-
     recorrer_viajes matriz deposito activos vs ;;
  Ok {| ev_hubs := activos;
        ev_viajes := vs;
        ev_ruta := ruta_total;
        ev_distancia := distancia_total;
        ev_costo := add distancia_total costo_activacion |}.

Definition hoja (costo_activacion : num) (st : estado) : resultado estado :=
  e <- evaluar_hoja (hubs_activos st) costo_activacion ;;
  Ok (actualizar e st).

Definition con_activos (l : list Z) (st : estado) : estado :=
  {| mejor_costo := mejor_costo st;
     mejor_hubs := mejor_hubs st;
     mejor_ruta := mejor_ruta st;
     mejor_distancia := mejor_distancia st;
     hubs_activos := l;
     traza := traza st |}.

(** [fuel] bounds the depth of the recursive calls below this one. *)
Fixpoint probar_combinaciones (fuel : nat) (indice : nat)
  (costo_activacion : num) (st : estado) : resultado estado :=
  if Nat.eqb indice (length hubs) then hoja costo_activacion st
  else
    match fuel with
    | O => SinFuel
    | S fuel' =>
        st1 <- probar_combinaciones fuel' (indice + 1) costo_activacion st ;;
        hub_actual <- py_getitem hubs (Z.of_nat indice) ;;
        let st2 := con_activos (hubs_activos st1 ++ [hub_actual]) st1 in
        costo <- dict_getitem costo_hubs hub_actual ;;
        st3 <- probar_combinaciones fuel' (indice + 1)
                 (add costo_activacion costo) st2 ;;
        activos <- py_pop (hubs_activos st3) ;;
        Ok (con_activos activos st3)
    end.

(** The initial call [probar_combinaciones(0, [], 0)]. *)
Definition buscar (fuel : nat) : resultado estado :=
  probar_combinaciones fuel 0 (Fin 0) estado_inicial.

Definition calcular_mejor_camino (fuel : nat)
  : resultado (list Z * list Z * num * num * num) :=
  st <- buscar fuel ;;
  let costo_solo_hubs := sub (mejor_costo st) (mejor_distancia st) in
  Ok (mejor_ruta st, mejor_hubs st, mejor_costo st, mejor_distancia st,
      costo_solo_hubs).

End CalcularMejorCamino.

(** What [main] computes between reading the case and writing the
    solution. *)
Definition resolver (fuel : nat) (dat : datos)
  : resultado (list Z * list Z * num * num * num) :=
  matriz <- floyd_warshall (d_aristas dat)
              (num_nodos (d_configuracion dat)) ;;
  calcular_mejor_camino dat matriz fuel.

(** ** The search as the specification words it *)

(** The search as the specification words it: the trips are grouped once,
    before the search, and every leaf is handed the same trips. *)
Definition evaluar_hoja_con_viajes (dat : datos) (matriz : matrix)
  (vs : list (list Z)) (activos : list Z) (costo_activacion : num)
  : resultado evento :=
  '(distancia_total, ruta_total) <-
     recorrer_viajes matriz (deposito dat) activos vs ;;
  Ok {| ev_hubs := activos;
        ev_viajes := vs;
        ev_ruta := ruta_total;
        ev_distancia := distancia_total;
        ev_costo := add distancia_total costo_activacion |}.

Fixpoint probar_con_viajes (dat : datos) (matriz : matrix)
  (vs : list (list Z)) (fuel : nat) (indice : nat) (costo_activacion : num)
  (st : estado) : resultado estado :=
  if Nat.eqb indice (length (hubs dat)) then
    e <- evaluar_hoja_con_viajes dat matriz vs (hubs_activos st)
           costo_activacion ;;
    Ok (actualizar e st)
  else
    match fuel with
    | O => SinFuel
    | S fuel' =>
        st1 <- probar_con_viajes dat matriz vs fuel' (indice + 1)
                 costo_activacion st ;;
        hub_actual <- py_getitem (hubs dat) (Z.of_nat indice) ;;
        let st2 := con_activos (hubs_activos st1 ++ [hub_actual]) st1 in
        costo <- dict_getitem (costo_hubs dat) hub_actual ;;
        st3 <- probar_con_viajes dat matriz vs fuel' (indice + 1)
                 (add costo_activacion costo) st2 ;;
        activos <- py_pop (hubs_activos st3) ;;
        Ok (con_activos activos st3)
    end.

Definition buscar_con_viajes (dat : datos) (matriz : matrix) (fuel : nat)
  : resultado estado :=
  vs <- agrupar_viajes (paquetes_por_destino dat) (capacidad dat) ;;
  probar_con_viajes dat matriz vs fuel 0 (Fin 0) estado_inicial.

(** ** Fixtures *)

(** Four nodes, depot 0, edges 0-1:5, 1-2:5, 2-3:5 and 0-3:9 in both
    directions, hub 1 of cost 1, capacity 10, a package for node 2 and
    one for node 3. *)
Definition caso_hub : datos :=
  {| d_configuracion :=
       {| num_nodos := 4; num_hubs := 1; num_paquetes := 2;
          capacidad_camion := 10; deposito_id := 0 |};
     d_nodos := [(0, (0, 0)); (1, (5, 0)); (2, (10, 0)); (3, (9, 0))];
     d_hubs := [(1, Fin 1)];
     d_paquetes := [(1, {| origen := 0; destino := 2 |});
                    (2, {| origen := 0; destino := 3 |})];
     d_aristas := [((0, 1), Fin 5); ((1, 0), Fin 5);
                   ((1, 2), Fin 5); ((2, 1), Fin 5);
                   ((2, 3), Fin 5); ((3, 2), Fin 5);
                   ((0, 3), Fin 9); ((3, 0), Fin 9)] |}.

(** The distance matrix of [caso_hub]. *)
Definition matriz_hub : matrix :=
  Eval vm_compute in
    match floyd_warshall (d_aristas caso_hub) 4 with
    | Ok m => m
    | _ => []
    end.

(** [caso_hub] without packages. *)
Definition caso_sin_paquetes : datos :=
  {| d_configuracion :=
       {| num_nodos := 4; num_hubs := 1; num_paquetes := 0;
          capacidad_camion := 10; deposito_id := 0 |};
     d_nodos := d_nodos caso_hub;
     d_hubs := [(1, Fin 1)];
     d_paquetes := [];
     d_aristas := d_aristas caso_hub |}.

(** [caso_hub] without hubs. *)
Definition caso_sin_hubs : datos :=
  {| d_configuracion :=
       {| num_nodos := 4; num_hubs := 0; num_paquetes := 2;
          capacidad_camion := 10; deposito_id := 0 |};
     d_nodos := d_nodos caso_hub;
     d_hubs := [];
     d_paquetes := d_paquetes caso_hub;
     d_aristas := d_aristas caso_hub |}.

(** [caso_hub] with a hub as dear as the distance it saves. *)
Definition caso_empate : datos :=
  {| d_configuracion := d_configuracion caso_hub;
     d_nodos := d_nodos caso_hub;
     d_hubs := [(1, Fin 5)];
     d_paquetes := d_paquetes caso_hub;
     d_aristas := d_aristas caso_hub |}.

(** Two packages for node 2 and a truck that carries one. *)
Definition caso_sobrecarga : datos :=
  {| d_configuracion :=
       {| num_nodos := 3; num_hubs := 0; num_paquetes := 2;
          capacidad_camion := 1; deposito_id := 0 |};
     d_nodos := [(0, (0, 0)); (1, (5, 0)); (2, (10, 0))];
     d_hubs := [];
     d_paquetes := [(1, {| origen := 0; destino := 2 |});
                    (2, {| origen := 0; destino := 2 |})];
     d_aristas := [((0, 1), Fin 5); ((1, 0), Fin 5);
                   ((1, 2), Fin 5); ((2, 1), Fin 5)] |}.

(** A package for node 2, which no edge reaches. *)
Definition caso_aislado : datos :=
  {| d_configuracion :=
       {| num_nodos := 3; num_hubs := 1; num_paquetes := 1;
          capacidad_camion := 10; deposito_id := 0 |};
     d_nodos := [(0, (0, 0)); (1, (5, 0)); (2, (10, 0))];
     d_hubs := [(1, Fin 1)];
     d_paquetes := [(1, {| origen := 0; destino := 2 |})];
     d_aristas := [((0, 1), Fin 5); ((1, 0), Fin 5)] |}.

(** The distance matrix of [caso_aislado]. *)
Definition matriz_aislada : matrix :=
  Eval vm_compute in
    match floyd_warshall (d_aristas caso_aislado) 3 with
    | Ok m => m
    | _ => []
    end.

(** ** Definitions for the statements *)

(** *** Results *)

(** [map] with a function that may raise. *)
Fixpoint map_res {A B : Type} (f : A -> resultado B) (l : list A)
  : resultado (list B) :=
  match l with
  | [] => Ok []
  | x :: r => y <- f x ;; ys <- map_res f r ;; Ok (y :: ys)
  end.

(** The computation returned or raised: its budget was not exhausted. *)
Definition con_fuel {A : Type} (r : resultado A) : Prop := r <> SinFuel.

(** *** The leaves of the search and the best result *)

(** The activation cost of a hub, nan for an identifier that is no hub. *)
Definition costo_de (dat : datos) (h : Z) : num :=
  match dict_get (d_hubs dat) h with
  | Some c => c
  | None => NaN
  end.

(** The leaves below a call on the hubs [resto] still to decide, in the
    order the search reaches them: each with its list of active hubs and
    its activation cost. *)
Fixpoint hojas_desde (dat : datos) (resto : list Z) (activos : list Z)
  (costo_activacion : num) : list (list Z * num) :=
  match resto with
  | [] => [(activos, costo_activacion)]
  | h :: r =>
      hojas_desde dat r activos costo_activacion
      ++ hojas_desde dat r (activos ++ [h])
           (add costo_activacion (costo_de dat h))
  end.

(** The subsets of a list, those without its head first. *)
Fixpoint subconjuntos (l : list Z) : list (list Z) :=
  match l with
  | [] => [[]]
  | h :: r => subconjuntos r ++ map (cons h) (subconjuntos r)
  end.

(** [s] keeps some elements of [l], in order. *)
Inductive sublista : list Z -> list Z -> Prop :=
| sublista_nil : sublista [] []
| sublista_skip : forall h s l, sublista s l -> sublista s (h :: l)
| sublista_take : forall h s l, sublista s l -> sublista (h :: s) (h :: l).

(** The leaf evaluated for an entry of [hojas_desde]. *)
Definition evaluar (dat : datos) (matriz : matrix) (hc : list Z * num)
  : resultado evento :=
  evaluar_hoja dat matriz (fst hc) (snd hc).

(** The best result after the leaves [es], from [st]. *)
Definition tras_hojas (es : list evento) (st : estado) : estado :=
  fold_left (fun s e => actualizar e s) es st.

(** [st'] holds the best result of [st]. *)
Definition sin_cambio (st st' : estado) : Prop :=
  mejor_costo st' = mejor_costo st /\ mejor_hubs st' = mejor_hubs st
  /\ mejor_ruta st' = mejor_ruta st
  /\ mejor_distancia st' = mejor_distancia st.

(** [st'] holds the result of the leaf [e]. *)
Definition elegido (e : evento) (st' : estado) : Prop :=
  mejor_costo st' = ev_costo e /\ mejor_hubs st' = ev_hubs e
  /\ mejor_ruta st' = ev_ruta e /\ mejor_distancia st' = ev_distancia e.

(** *** Matrices *)

(** A node identifier of a graph of [n] nodes. *)
Definition en_rango (n : nat) (i : Z) : Prop := 0 <= i < Z.of_nat n.

(** An [n] x [n] matrix. *)
Definition dims (n : nat) (m : matrix) : Prop :=
  length m = n /\ forall fila, In fila m -> length fila = n.

(** Every entry is finite or +inf. *)
Definition matriz_buena (n : nat) (m : matrix) : Prop :=
  forall a b, en_rango n a -> en_rango n b -> buena (entry m a b).

(** Every entry is finite and non-negative, or +inf. *)
Definition matriz_nn (n : nat) (d : matrix) : Prop :=
  forall a b, en_rango n a -> en_rango n b -> nn (entry d a b).

(** No entry of [d'] exceeds that of [d]. *)
Definition menor (n : nat) (d' d : matrix) : Prop :=
  forall a b, en_rango n a -> en_rango n b ->
              leb (entry d' a b) (entry d a b) = true.

(** The triangle inequality. *)
Definition triangular (n : nat) (m : matrix) : Prop :=
  forall i j k, en_rango n i -> en_rango n j -> en_rango n k ->
    leb (entry m i j) (add (entry m i k) (entry m k j)) = true.

(** *** Trips *)

(** The distances between the consecutive destinations of a trip. *)
Fixpoint suma_tramos (m : matrix) (viaje : list Z) : num :=
  match viaje with
  | [] => Fin 0
  | a :: r =>
      match r with
      | [] => Fin 0
      | b :: _ => add (entry m a b) (suma_tramos m r)
      end
  end.

(** From [p] to the first destination, along the trip, and from the last
    destination to the depot. *)
Definition costo_viaje (m : matrix) (deposito : Z) (viaje : list Z) (p : Z)
  : num :=
  add (add (entry m p (hd 0 viaje)) (suma_tramos m viaje))
      (entry m (last viaje 0) deposito).

(** The demand of the first destination fits in the truck. *)
Definition primer_destino_cabe (ppd : dict Z Z) (cap : Z) : Prop :=
  match ppd with
  | [] => True
  | (_, c) :: _ => c <= cap
  end.

(** *** The graph of the edge dict *)

(** The entry [a] of the edge dict joins [u] and [v]. *)
Definition une (a : (Z * Z) * num) (u v : Z) : bool :=
  ((fst (fst a) =? u) && (snd (fst a) =? v))
  || ((fst (fst a) =? v) && (snd (fst a) =? u)).

(** The weight of the edge between [u] and [v]: that of the last entry
    of the dict that joins them, in either direction. *)
Definition peso_arista (aristas : dict (Z * Z) num) (u v : Z) : option num :=
  fold_left (fun acc a => if une a u v then Some (snd a) else acc)
            aristas None.

(** The weight of the path that leaves [u] and visits the nodes [l] in
    turn along edges; [None] when a step is not an edge.  It ends at
    [last l u]. *)
Fixpoint peso_camino (aristas : dict (Z * Z) num) (u : Z) (l : list Z)
  : option num :=
  match l with
  | [] => Some (Fin 0)
  | v :: l' =>
      match peso_arista aristas u v, peso_camino aristas v l' with
      | Some w, Some r => Some (add w r)
      | _, _ => None
      end
  end.

(** Edges between nodes of the graph, of finite non-negative weight, and
    no loop of positive weight. *)
Definition aristas_validas (n : nat) (aristas : dict (Z * Z) num) : Prop :=
  forall u v w, In ((u, v), w) aristas ->
    en_rango n u /\ en_rango n v /\ peso_valido w /\ (u = v -> w = Fin 0).

(** The matrix before the triple loop: the weight of the edge, 0 on the
    diagonal, +inf elsewhere. *)
Definition peso_inicial (aristas : dict (Z * Z) num) (u v : Z) : num :=
  match peso_arista aristas u v with
  | Some w => w
  | None => if u =? v then Fin 0 else PInf
  end.

(** The sum of the entries of [w] from [i] through [l] to [j]. *)
Fixpoint wpath (w : matrix) (i : Z) (l : list Z) (j : Z) : num :=
  match l with
  | [] => entry w i j
  | x :: l' => add (entry w i x) (wpath w x l' j)
  end.

(** One pass of the triple loop for the intermediate node [k]. *)
Definition fw_fase (n : Z) (k : Z) (d : matrix) : resultado matrix :=
  for_each (fun d ij => relajar k (fst ij) (snd ij) d)
           (list_prod (range n) (range n)) d.

(** Every entry is +inf or the weight of a path of the graph. *)
Definition alcanzada (n : nat) (aristas : dict (Z * Z) num) (d : matrix)
  : Prop :=
  forall a b, en_rango n a -> en_rango n b ->
    entry d a b = PInf
    \/ exists l, last l a = b
                 /\ peso_camino aristas a l = Some (entry d a b).

(** No entry exceeds the weight of a path between its nodes. *)
Definition cota_caminos (n : nat) (ar : dict (Z * Z) num) (dist : matrix)
  : Prop :=
  forall i j, en_rango n i -> en_rango n j ->
  forall l w, last l i = j -> peso_camino ar i l = Some w ->
              leb (entry dist i j) w = true.

(** ** Definitions for the further properties *)

(** *** Demands and trips *)

(** The number of packages bound for [d]. *)
Definition cuenta (ps : dict Z paquete) (d : Z) : Z :=
  Z.of_nat (length (filter (fun ip => destino (snd ip) =? d) ps)).

(** A list without the repetitions of its earlier elements. *)
Fixpoint sin_repetidos (l : list Z) : list Z :=
  match l with
  | [] => []
  | x :: r => x :: filter (fun y => negb (y =? x)) (sin_repetidos r)
  end.

(** The packages of the destinations of a trip. *)
Definition demanda (ppd : dict Z Z) (v : list Z) : Z :=
  fold_right (fun d s => dict_get_default ppd d 0 + s) 0 v.

(** *** Routes and activation costs *)

(** The activation cost accumulated along the hubs [s], as the search
    adds it: from 0, one hub after the other. *)
Definition costo_acumulado (dat : datos) (s : list Z) : num :=
  fold_left (fun a h => add a (costo_de dat h)) s (Fin 0).

(** The route that serves the trips [vs] leaving from [inicios]: the
    depot, then for each trip its departure point, its destinations and
    the depot. *)
Definition ruta_de (dep : Z) (inicios : list Z) (vs : list (list Z))
  : list Z :=
  dep :: concat (map (fun iv => fst iv :: snd iv ++ [dep])
                     (combine inicios vs)).

(** The distance of the trips [vs] when each leaves from the depot. *)
Definition distancia_deposito (m : matrix) (dep : Z) (vs : list (list Z))
  : num :=
  fold_left (fun a v => add a (costo_viaje m dep v dep)) vs (Fin 0).

(** *** Node identifiers out of range *)

(** An index a list of length [n] accepts: from [-n] to [n - 1]. *)
Definition en_limites (n : nat) (i : Z) : bool :=
  (- Z.of_nat n <=? i) && (i <? Z.of_nat n).

Definition arista_en_limites (n : nat) (a : (Z * Z) * num) : bool :=
  en_limites n (fst (fst a)) && en_limites n (snd (fst a)).

(** The edge with its nodes counted from 0. *)
Definition normalizar (n : nat) (a : (Z * Z) * num) : (Z * Z) * num :=
  ((py_pos (Z.of_nat n) (fst (fst a)), py_pos (Z.of_nat n) (snd (fst a))),
   snd a).

(** *** The lines of the case file *)

(** A character is its code point, a [str] the list of its characters. *)
Definition caracter : Type := N.
Definition cadena : Type := list caracter.

Definition barra : caracter := 47%N.

(** [linea.split("//")[0]]: the text before the first "//". *)
Fixpoint antes_de_barras (linea : cadena) : cadena :=
  match linea with
  | [] => []
  | c :: r =>
      match r with
      | [] => [c]
      | c' :: _ =>
          if (c =? barra)%N && (c' =? barra)%N then []
          else c :: antes_de_barras r
      end
  end.

Section Lineas.

(** [c.isspace()] *)
Variable es_espacio : caracter -> bool.

Fixpoint lstrip (s : cadena) : cadena :=
  match s with
  | [] => []
  | c :: r => if es_espacio c then lstrip r else s
  end.

Definition rstrip (s : cadena) : cadena := rev (lstrip (rev s)).

(** [s.strip()] *)
Definition strip (s : cadena) : cadena := rstrip (lstrip s).

Definition eliminar_comentario (linea : cadena) : cadena :=
  strip (antes_de_barras linea).

End Lineas.

(** [range(a, b)] *)
Definition rango (a b : Z) : list Z :=
  map (fun k => a + Z.of_nat k) (seq 0 (Z.to_nat (b - a))).

(** The local variables of [leer_seccion], and the lines of the warnings
    printed so far. *)
Record lectura (A : Type) : Type := {
  l_datos : list A;
  l_leidos : Z;
  l_avisos : list cadena
}.

Arguments l_datos {A} _.
Arguments l_leidos {A} _.
Arguments l_avisos {A} _.

Section LeerSeccion.

Context {A : Type}.
Variable es_espacio : caracter -> bool.

(** [parser(linea)]: [None] when it raises an [Exception]. *)
Variable parser : cadena -> option A.

Variable lineas : list cadena.
Variable cantidad : num.

(** The loop of [leer_seccion] over the indices still to visit. *)
Fixpoint leer_desde (indices : list Z) (s : lectura A)
  : resultado (lectura A) :=
  match indices with
  | [] => Ok s
  | i :: resto =>
      if leb cantidad (Fin (l_leidos s)) then Ok s
      else
        cruda <- py_getitem lineas i ;;
        match eliminar_comentario es_espacio cruda with
        | [] => leer_desde resto s
        | linea =>
            match parser linea with
            | Some x =>
                leer_desde resto
                  {| l_datos := l_datos s ++ [x];
                     l_leidos := l_leidos s + 1;
                     l_avisos := l_avisos s |}
            | None =>
                leer_desde resto
                  {| l_datos := l_datos s;
                     l_leidos := l_leidos s;
                     l_avisos := l_avisos s ++ [linea] |}
            end
        end
  end.

(** The list returned, and the lines of the warnings printed. *)
Definition leer_seccion (inicio : Z) : resultado (list A * list cadena) :=
  s <- leer_desde (rango inicio (Z.of_nat (length lineas)))
         {| l_datos := []; l_leidos := 0; l_avisos := [] |} ;;
  Ok (l_datos s, l_avisos s).

End LeerSeccion.

(** *** The dicts filled by [leer_datos] *)

(** [for k, v in l: d[k] = v], from the empty dict. *)
Definition llenar {V : Type} (l : list (Z * V)) : dict Z V :=
  fold_left (fun d kv => dict_set d (fst kv) (snd kv)) l [].

Definition par_eqb (a b : Z * Z) : bool :=
  (fst a =? fst b) && (snd a =? snd b).

Fixpoint dict_get_par {V : Type} (d : dict (Z * Z) V) (k : Z * Z)
  : option V :=
  match d with
  | [] => None
  | (k', v) :: r => if par_eqb k k' then Some v else dict_get_par r k
  end.

Fixpoint dict_set_par {V : Type} (d : dict (Z * Z) V) (k : Z * Z) (v : V)
  : dict (Z * Z) V :=
  match d with
  | [] => [(k, v)]
  | (k', v') :: r =>
      if par_eqb k k' then (k', v) :: r else (k', v') :: dict_set_par r k v
  end.

(** One edge read: its weight is stored for the pair, and for the
    reversed pair when that is no key yet. *)
Definition guardar_arista (d : dict (Z * Z) num) (a : (Z * Z) * num)
  : dict (Z * Z) num :=
  let d1 := dict_set_par d (fst a) (snd a) in
  let inversa := (snd (fst a), fst (fst a)) in
  match dict_get_par d1 inversa with
  | Some _ => d1
  | None => dict_set_par d1 inversa (snd a)
  end.

(** The loop that fills [datos['aristas']] from the edges read. *)
Definition llenar_aristas (aristas_list : list ((Z * Z) * num))
  : dict (Z * Z) num :=
  fold_left guardar_arista aristas_list [].

(** *** The section headers *)

Definition guion : caracter := 45%N.

Definition tres_guiones (c1 c2 c3 : caracter) : bool :=
  (c1 =? guion)%N && (c2 =? guion)%N && (c3 =? guion)%N.

(** ["---" in s] *)
Fixpoint en_guiones (s : cadena) : bool :=
  match s with
  | [] => false
  | c1 :: r =>
      match r with
      | c2 :: c3 :: _ => tres_guiones c1 c2 c3 || en_guiones r
      | _ => false
      end
  end.

(** [s.split("---")], after the part [actual] read so far. *)
Fixpoint split_guiones (s : cadena) (actual : cadena) : list cadena :=
  match s with
  | [] => [actual]
  | c1 :: r =>
      match r with
      | c2 :: c3 :: t =>
          if tres_guiones c1 c2 c3 then actual :: split_guiones t []
          else split_guiones r (actual ++ [c1])
      | _ => [actual ++ s]
      end
  end.

Fixpoint cadena_eqb (a b : cadena) : bool :=
  match a, b with
  | [], [] => true
  | x :: a', y :: b' => (x =? y)%N && cadena_eqb a' b'
  | _, _ => false
  end.

Fixpoint dict_get_cad {V : Type} (d : dict cadena V) (k : cadena)
  : option V :=
  match d with
  | [] => None
  | (k', v) :: r => if cadena_eqb k k' then Some v else dict_get_cad r k
  end.

Fixpoint dict_set_cad {V : Type} (d : dict cadena V) (k : cadena) (v : V)
  : dict cadena V :=
  match d with
  | [] => [(k, v)]
  | (k', v') :: r =>
      if cadena_eqb k k' then (k', v) :: r else (k', v') :: dict_set_cad r k v
  end.

(** [enumerate(l)] *)
Definition enumerate {A : Type} (l : list A) : list (Z * A) :=
  combine (range (Z.of_nat (length l))) l.

Section Secciones.

Variable es_espacio : caracter -> bool.

(** [s.upper()] *)
Variable mayusculas : cadena -> cadena.

(** The words of [s] after the word [actual] read so far. *)
Fixpoint palabras_desde (s : cadena) (actual : cadena) : list cadena :=
  match s with
  | [] => match actual with [] => [] | _ => [actual] end
  | c :: r =>
      if es_espacio c
      then match actual with
           | [] => palabras_desde r []
           | _ => actual :: palabras_desde r []
           end
      else palabras_desde r (actual ++ [c])
  end.

(** [s.split()] *)
Definition split_espacios (s : cadena) : list cadena := palabras_desde s [].

(** One line of the scan for section headers. *)
Definition detectar_linea (secciones : dict cadena Z) (il : Z * cadena)
  : resultado (dict cadena Z) :=
  if en_guiones (snd il) then
    let partes := split_guiones (snd il) [] in
    if (1 <? length partes)%nat then
      parte <- py_getitem partes 1 ;;
      palabra <- py_getitem
                   (split_espacios (strip es_espacio parte)) 0 ;;
      Ok (dict_set_cad secciones (mayusculas palabra) (fst il + 1))
    else Ok secciones
  else Ok secciones.

(** The dict [secciones] of [leer_datos]. *)
Definition detectar_secciones (lineas : list cadena)
  : resultado (dict cadena Z) :=
  for_each detectar_linea (enumerate lineas) [].

(** The text that follows the first "---" of a line, up to the next
    "---". *)
Definition titulo (linea : cadena) : option cadena :=
  if en_guiones linea then nth_error (split_guiones linea []) 1 else None.

(** A header with only spaces where its name should be. *)
Definition sin_nombre (linea : cadena) : bool :=
  match titulo linea with
  | Some p => forallb es_espacio p
  | None => false
  end.

Definition nombre_seccion (p : cadena) : cadena :=
  mayusculas (hd [] (split_espacios (strip es_espacio p))).

(** The headers: each with its name and the index of the next line. *)
Definition cabeceras_de (ils : list (Z * cadena)) : list (cadena * Z) :=
  flat_map (fun il => match titulo (snd il) with
                      | Some p => [(nombre_seccion p, fst il + 1)]
                      | None => []
                      end) ils.

Definition cabeceras (lineas : list cadena) : list (cadena * Z) :=
  cabeceras_de (enumerate lineas).

End Secciones.

(** *** Definitions for the statements on the case file *)

(** No "//" in [s]. *)
Definition sin_barras (s : cadena) : Prop :=
  forall a b, s <> a ++ barra :: barra :: b.

(** Neither the first nor the last character of [s] is a space. *)
Definition recortada (es_espacio : caracter -> bool) (s : cadena) : Prop :=
  match s with
  | [] => True
  | c :: _ => es_espacio c = false /\ es_espacio (last s c) = false
  end.

(** The lines with their comments removed, those left empty dropped. *)
Definition limpias (es_espacio : caracter -> bool) (ls : list cadena)
  : list cadena :=
  filter (fun l => match l with [] => false | _ => true end)
         (map (eliminar_comentario es_espacio) ls).

(** The values of the lines that [parser] accepts. *)
Definition aceptadas {A : Type} (parser : cadena -> option A)
  (ls : list cadena) : list A :=
  flat_map (fun l => match parser l with Some x => [x] | None => [] end) ls.

Definition rechazada {A : Type} (parser : cadena -> option A) (l : cadena)
  : bool :=
  match parser l with Some _ => false | None => true end.

(** The first [cantidad - leidos] elements of [l]: all of them when
    [cantidad] is +inf (or nan, which no count reaches). *)
Definition hasta {A : Type} (cantidad : num) (leidos : Z) (l : list A)
  : list A :=
  match cantidad with
  | Fin c => firstn (Z.to_nat (c - leidos)) l
  | NInf => []
  | PInf | NaN => l
  end.

(** The space, tab, newline and carriage return. *)
Definition espacio_ascii (c : caracter) : bool :=
  (c =? 32)%N || (c =? 9)%N || (c =? 10)%N || (c =? 13)%N.

Definition intercambiar (k : Z * Z) : Z * Z := (snd k, fst k).

(** * Lemmas *)

(** ** Order and sums of [num] *)

Ltac num_cases :=
  repeat match goal with
         | x : num |- _ => destruct x
         end;
  simpl in *; try tauto; try discriminate; try congruence;
  repeat match goal with
         | H : (_ <? _) = true |- _ => apply Z.ltb_lt in H
         | H : (_ <? _) = false |- _ => apply Z.ltb_ge in H
         | H : (_ <=? _) = true |- _ => apply Z.leb_le in H
         | H : (_ <=? _) = false |- _ => apply Z.leb_gt in H
         | |- (_ <? _) = true => apply Z.ltb_lt
         | |- (_ <? _) = false => apply Z.ltb_ge
         | |- (_ <=? _) = true => apply Z.leb_le
         | |- (_ <=? _) = false => apply Z.leb_gt
         end;
  try lia; try (f_equal; lia).

Lemma ltb_irrefl (x : num) : ltb x x = false.
Proof. num_cases. Qed.

Lemma ltb_trans (x y z : num) :
  ltb x y = true -> ltb y z = true -> ltb x z = true.
Proof. intros; num_cases. Qed.

Lemma add_assoc (x y z : num) : add x (add y z) = add (add x y) z.
Proof. num_cases. Qed.

Lemma add_comm (x y : num) : add x y = add y x.
Proof. num_cases. Qed.

Lemma add_0_l (x : num) : add (Fin 0) x = x.
Proof. num_cases. Qed.

Lemma add_0_r (x : num) : add x (Fin 0) = x.
Proof. num_cases. Qed.

Lemma leb_refl (x : num) : buena x -> leb x x = true.
Proof. intros; num_cases. Qed.

Lemma leb_trans (x y z : num) :
  leb x y = true -> leb y z = true -> leb x z = true.
Proof. intros; num_cases. Qed.

Lemma leb_add (x y x' y' : num) :
  buena x' -> buena y' ->
  leb x x' = true -> leb y y' = true -> buena x -> buena y ->
  leb (add x y) (add x' y') = true.
Proof. intros; num_cases. Qed.

Lemma not_ltb_leb (x y : num) :
  buena x -> buena y -> ltb y x = false -> leb x y = true.
Proof. intros; num_cases. Qed.

Lemma ltb_leb (x y : num) : ltb x y = true -> leb x y = true.
Proof. intros; num_cases. Qed.

Lemma buena_add (x y : num) : buena x -> buena y -> buena (add x y).
Proof. intros; num_cases. Qed.

Lemma nn_add (x y : num) : nn x -> nn y -> nn (add x y).
Proof. intros; num_cases. Qed.

Lemma nn_buena (x : num) : nn x -> buena x.
Proof. intros; num_cases. Qed.

Lemma peso_valido_nn (x : num) : peso_valido x -> nn x.
Proof. intros; num_cases. Qed.

Lemma leb_add_nn_l (x y : num) : nn x -> nn y -> leb y (add x y) = true.
Proof. intros; num_cases. Qed.

Lemma leb_add_nn_r (x y : num) : nn x -> nn y -> leb x (add x y) = true.
Proof. intros; num_cases. Qed.

Lemma add_PInf_l (x : num) : buena x -> add PInf x = PInf.
Proof. intros; num_cases. Qed.

Lemma add_PInf_r (x : num) : buena x -> add x PInf = PInf.
Proof. intros; num_cases. Qed.

Lemma leb_PInf (x : num) : leb PInf x = true -> x = PInf.
Proof. intros; num_cases. Qed.

Lemma ltb_add_PInf (x y : num) : ltb (add PInf x) y = false.
Proof. num_cases. Qed.

(** ** Loops and results *)

Lemma for_each_app {S X : Type} (f : S -> X -> resultado S)
  (l1 l2 : list X) (s : S) :
  for_each f (l1 ++ l2) s = s' <- for_each f l1 s ;; for_each f l2 s'.
Proof.
  revert s; induction l1 as [|x l1 IH]; intros s; simpl; [reflexivity|].
  destruct (f s x); simpl; auto.
Qed.

Lemma map_res_app {A B : Type} (f : A -> resultado B) (l1 l2 : list A) :
  map_res f (l1 ++ l2)
  = a <- map_res f l1 ;; b <- map_res f l2 ;; Ok (a ++ b).
Proof.
  induction l1 as [|x l1 IH]; simpl.
  - destruct (map_res f l2); reflexivity.
  - destruct (f x); simpl; auto. rewrite IH.
    destruct (map_res f l1); simpl; auto.
    destruct (map_res f l2); reflexivity.
Qed.

Lemma map_res_length {A B : Type} (f : A -> resultado B) (l : list A)
  (ys : list B) : map_res f l = Ok ys -> length ys = length l.
Proof.
  revert ys; induction l as [|x l IH]; simpl; intros ys H.
  - injection H as <-. reflexivity.
  - destruct (f x); simpl in H; try discriminate.
    destruct (map_res f l); simpl in H; try discriminate.
    injection H as <-. simpl. f_equal. auto.
Qed.

(** A loop whose body always returns, returns, and keeps an invariant
    that its body keeps. *)
Lemma for_each_inv {S X : Type} (P : S -> Prop)
  (f : S -> X -> resultado S) (l : list X) :
  (forall s x, In x l -> P s -> exists s', f s x = Ok s' /\ P s') ->
  forall s, P s -> exists s', for_each f l s = Ok s' /\ P s'.
Proof.
  induction l as [|x l IH]; intros Hf s Hs; simpl.
  - eauto.
  - destruct (Hf s x (or_introl eq_refl) Hs) as (s1 & E & H1).
    rewrite E. simpl. apply IH; auto.
    intros s0 y Hy. apply Hf. now right.
Qed.

(** The same with an invariant that knows the elements already seen. *)
Lemma for_each_prefix {S X : Type} (P : list X -> S -> Prop)
  (f : S -> X -> resultado S) (l : list X) :
  (forall pre x post s, l = pre ++ x :: post -> P pre s ->
     exists s', f s x = Ok s' /\ P (pre ++ [x]) s') ->
  forall s, P [] s -> exists s', for_each f l s = Ok s' /\ P l s'.
Proof.
  intros Hf.
  assert (G : forall post pre s, l = pre ++ post -> P pre s ->
            exists s', for_each f post s = Ok s' /\ P l s').
  { induction post as [|x post IH]; intros pre s E Hs; simpl.
    - rewrite app_nil_r in E. subst. eauto.
    - destruct (Hf pre x post s E Hs) as (s1 & E1 & H1).
      rewrite E1. simpl. apply (IH (pre ++ [x])); auto.
      rewrite <- app_assoc. exact E. }
  intros s Hs. apply (G l [] s); auto.
Qed.

Lemma for_each_map {S X Y : Type} (f : S -> Y -> resultado S) (h : X -> Y)
  (l : list X) (s : S) :
  for_each f (map h l) s = for_each (fun d x => f d (h x)) l s.
Proof.
  revert s; induction l as [|x l IH]; intros s; simpl; [reflexivity|].
  destruct (f s (h x)); simpl; auto.
Qed.

(** Nested loops are one loop over the pairs. *)
Lemma for_each_prod {S X Y : Type} (g : X -> Y -> S -> resultado S)
  (xs : list X) (ys : list Y) (s : S) :
  for_each (fun d x => for_each (fun d y => g x y d) ys d) xs s
  = for_each (fun d xy => g (fst xy) (snd xy) d) (list_prod xs ys) s.
Proof.
  revert s; induction xs as [|x xs IH]; intros s; simpl; [reflexivity|].
  rewrite for_each_app, for_each_map. simpl.
  destruct (for_each _ ys s); simpl; auto.
Qed.

Lemma con_fuel_bind {A B : Type} (m : resultado A) (f : A -> resultado B) :
  con_fuel m -> (forall a, con_fuel (f a)) -> con_fuel (bind m f).
Proof.
  unfold con_fuel. destruct m; simpl; intros Hm Hf;
    [apply Hf | discriminate | congruence].
Qed.

Lemma con_fuel_for_each {S X : Type} (f : S -> X -> resultado S)
  (l : list X) :
  (forall s x, con_fuel (f s x)) -> forall s, con_fuel (for_each f l s).
Proof.
  intros Hf. induction l as [|x l IH]; intros s; simpl.
  - discriminate.
  - apply con_fuel_bind; auto.
Qed.

Lemma con_fuel_getitem {A : Type} (l : list A) (i : Z) :
  con_fuel (py_getitem l i).
Proof.
  unfold py_getitem, con_fuel.
  destruct (_ && _); [destruct (nth_error _ _)|]; discriminate.
Qed.

Lemma con_fuel_mget (m : matrix) (i j : Z) : con_fuel (mget m i j).
Proof.
  unfold mget. apply con_fuel_bind; intros; apply con_fuel_getitem.
Qed.

Lemma con_fuel_dict {V : Type} (d : dict Z V) (k : Z) :
  con_fuel (dict_getitem d k).
Proof. unfold dict_getitem, con_fuel. destruct (dict_get d k); discriminate. Qed.

Lemma con_fuel_Ok {A : Type} (a : A) : con_fuel (Ok a).
Proof. discriminate. Qed.

Lemma con_fuel_agrupar (ppd : dict Z Z) (cap : Z) :
  con_fuel (agrupar_viajes ppd cap).
Proof.
  unfold agrupar_viajes. apply con_fuel_bind.
  - apply con_fuel_for_each. intros s x. unfold agrupar_destino.
    apply con_fuel_bind; [apply con_fuel_dict | intros; apply con_fuel_Ok].
  - intros; apply con_fuel_Ok.
Qed.

Lemma con_fuel_distancia (m : matrix) (dep : Z) (v : list Z) (p : Z) :
  con_fuel (distancia_desde m dep v p).
Proof.
  unfold distancia_desde.
  repeat (apply con_fuel_bind;
          [ first [ apply con_fuel_getitem | apply con_fuel_mget
                  | apply con_fuel_for_each; intros ]
          | intros ]);
    try apply con_fuel_Ok.
Qed.

Lemma con_fuel_recorrer (m : matrix) (dep : Z) (act : list Z)
  (vs : list (list Z)) : con_fuel (recorrer_viajes m dep act vs).
Proof.
  unfold recorrer_viajes. apply con_fuel_for_each. intros s v.
  apply con_fuel_bind; [|intros; apply con_fuel_Ok].
  unfold evaluar_viaje. apply con_fuel_for_each. intros b p.
  unfold probar_inicio.
  apply con_fuel_bind; [apply con_fuel_distancia | intros; apply con_fuel_Ok].
Qed.

Lemma con_fuel_evaluar_hoja (dat : datos) (m : matrix) (act : list Z)
  (ca : num) : con_fuel (evaluar_hoja dat m act ca).
Proof.
  unfold evaluar_hoja.
  apply con_fuel_bind; [apply con_fuel_agrupar | intros vs].
  apply con_fuel_bind; [apply con_fuel_recorrer | intros [d r]].
  apply con_fuel_Ok.
Qed.

Lemma con_fuel_map_res {A B : Type} (f : A -> resultado B) (l : list A) :
  (forall a, con_fuel (f a)) -> con_fuel (map_res f l).
Proof.
  intros Hf. induction l as [|x l IH]; simpl; [discriminate|].
  apply con_fuel_bind; auto. intros y.
  apply con_fuel_bind; auto. intros; apply con_fuel_Ok.
Qed.

(** ** Lists and dicts *)

Lemma py_getitem_nat {A : Type} (l : list A) (i : nat) (x : A) :
  nth_error l i = Some x -> py_getitem l (Z.of_nat i) = Ok x.
Proof.
  intros H. unfold py_getitem, py_pos.
  assert (Hi : (i < length l)%nat) by (apply nth_error_Some; congruence).
  destruct (Z.ltb_spec (Z.of_nat i) 0); [lia|].
  destruct (Z.leb_spec 0 (Z.of_nat i)); [|lia].
  destruct (Z.ltb_spec (Z.of_nat i) (Z.of_nat (length l))); [|lia].
  simpl. rewrite Nat2Z.id, H. reflexivity.
Qed.

Lemma skipn_nth_error {A : Type} (l : list A) (i : nat) (x : A) :
  nth_error l i = Some x -> skipn i l = x :: skipn (S i) l.
Proof.
  revert i; induction l as [|a l IH]; intros [|i] H; simpl in *;
    try discriminate.
  - congruence.
  - apply IH in H. rewrite H. destruct l; reflexivity.
Qed.

Lemma dict_get_keys {V : Type} (d : dict Z V) (k : Z) :
  In k (dict_keys d) -> exists v, dict_get d k = Some v.
Proof.
  induction d as [|[k' v] d IH]; simpl; [tauto|].
  intros H. destruct (Z.eqb_spec k k'); eauto.
  destruct H; [congruence | auto].
Qed.

Lemma py_pop_snoc {A : Type} (l : list A) (x : A) : py_pop (l ++ [x]) = Ok l.
Proof.
  unfold py_pop. rewrite removelast_last.
  destruct (l ++ [x]) eqn:E; [|reflexivity].
  symmetry in E. now apply app_cons_not_nil in E.
Qed.

(** ** Reading and writing the matrix *)

Lemma py_getitem_rango {A : Type} (l : list A) (i : Z) (d : A) :
  0 <= i < Z.of_nat (length l) ->
  py_getitem l i = Ok (nth (Z.to_nat i) l d).
Proof.
  intros H. unfold py_getitem, py_pos.
  destruct (Z.ltb_spec i 0); [lia|].
  destruct (Z.leb_spec 0 i); [|lia].
  destruct (Z.ltb_spec i (Z.of_nat (length l))); [|lia].
  simpl. rewrite (nth_error_nth' l d) by lia. reflexivity.
Qed.

Lemma py_setitem_rango {A : Type} (l : list A) (i : Z) (x : A) :
  0 <= i < Z.of_nat (length l) ->
  py_setitem l i x = Ok (reemplazar l (Z.to_nat i) x).
Proof.
  intros H. unfold py_setitem, py_pos.
  destruct (Z.ltb_spec i 0); [lia|].
  destruct (Z.leb_spec 0 i); [|lia].
  destruct (Z.ltb_spec i (Z.of_nat (length l))); [|lia].
  reflexivity.
Qed.

Lemma reemplazar_length {A : Type} (l : list A) (k : nat) (x : A) :
  length (reemplazar l k x) = length l.
Proof.
  revert k; induction l as [|a l IH]; intros [|k]; simpl; auto.
Qed.

Lemma reemplazar_nth {A : Type} (l : list A) (k k' : nat) (x d : A) :
  (k < length l)%nat ->
  nth k' (reemplazar l k x) d = if Nat.eqb k' k then x else nth k' l d.
Proof.
  revert k k'; induction l as [|a l IH]; intros [|k] [|k'] H; simpl in *;
    try lia; auto.
  apply IH. lia.
Qed.

Lemma reemplazar_In {A : Type} (l : list A) (k : nat) (x y : A) :
  In y (reemplazar l k x) -> y = x \/ In y l.
Proof.
  revert k; induction l as [|a l IH]; intros [|k]; simpl; try tauto.
  - intros [<-|H]; auto.
  - intros [<-|H]; auto. destruct (IH _ H); auto.
Qed.

Lemma dims_fila (n : nat) (m : matrix) (i : Z) :
  dims n m -> en_rango n i -> length (nth (Z.to_nat i) m []) = n.
Proof.
  intros [Hl Hf] Hi. apply Hf. apply nth_In. unfold en_rango in Hi. lia.
Qed.

Lemma mget_rango (n : nat) (m : matrix) (i j : Z) :
  dims n m -> en_rango n i -> en_rango n j ->
  mget m i j = Ok (nth (Z.to_nat j) (nth (Z.to_nat i) m []) NaN).
Proof.
  intros Hd Hi Hj. unfold mget.
  rewrite (py_getitem_rango m i []) by (destruct Hd as [-> _]; exact Hi).
  simpl. apply py_getitem_rango. now rewrite (dims_fila n).
Qed.

Lemma entry_rango (n : nat) (m : matrix) (i j : Z) :
  dims n m -> en_rango n i -> en_rango n j ->
  entry m i j = nth (Z.to_nat j) (nth (Z.to_nat i) m []) NaN.
Proof.
  intros Hd Hi Hj. unfold entry. now rewrite (mget_rango n).
Qed.

Lemma mget_entry (n : nat) (m : matrix) (i j : Z) :
  dims n m -> en_rango n i -> en_rango n j ->
  mget m i j = Ok (entry m i j).
Proof.
  intros Hd Hi Hj.
  rewrite (entry_rango n m i j Hd Hi Hj). now apply (mget_rango n).
Qed.

Lemma mset_rango (n : nat) (m : matrix) (i j : Z) (x : num) :
  dims n m -> en_rango n i -> en_rango n j ->
  exists m',
    mset m i j x = Ok m'
    /\ dims n m'
    /\ forall a b, en_rango n a -> en_rango n b ->
         entry m' a b = if (a =? i) && (b =? j) then x else entry m a b.
Proof.
  intros Hd Hi Hj. unfold mset.
  assert (Hlen : length m = n) by apply Hd.
  rewrite (py_getitem_rango m i []) by (rewrite Hlen; exact Hi).
  simpl.
  rewrite py_setitem_rango by (now rewrite (dims_fila n)).
  simpl.
  rewrite py_setitem_rango by (rewrite Hlen; exact Hi).
  eexists. split; [reflexivity|].
  assert (Hd' : dims n (reemplazar m (Z.to_nat i)
                          (reemplazar (nth (Z.to_nat i) m []) (Z.to_nat j) x))).
  { split.
    - now rewrite reemplazar_length.
    - intros fila Hf. apply reemplazar_In in Hf. destruct Hf as [->|Hf].
      + rewrite reemplazar_length. now apply dims_fila.
      + now apply Hd. }
  split; [exact Hd'|].
  intros a b Ha Hb.
  rewrite (entry_rango n _ a b Hd' Ha Hb), (entry_rango n m a b Hd Ha Hb).
  unfold en_rango in *.
  rewrite (reemplazar_nth m) by lia.
  destruct (Z.eqb_spec a i) as [->|Hai].
  - rewrite Nat.eqb_refl. rewrite reemplazar_nth.
    2:{ rewrite (dims_fila n m i Hd) by (unfold en_rango; lia). lia. }
    destruct (Z.eqb_spec b j) as [->|Hbj].
    + now rewrite Nat.eqb_refl.
    + simpl. destruct (Nat.eqb_spec (Z.to_nat b) (Z.to_nat j)); [lia|].
      reflexivity.
  - simpl. destruct (Nat.eqb_spec (Z.to_nat a) (Z.to_nat i)); [lia|].
    reflexivity.
Qed.

Lemma in_range (n : Z) (i : Z) : In i (range n) <-> 0 <= i < n.
Proof.
  unfold range. rewrite in_map_iff. split.
  - intros (k & <- & Hk). apply in_seq in Hk. lia.
  - intros H. exists (Z.to_nat i). split; [lia|]. apply in_seq. lia.
Qed.

Lemma in_range_nat (n : nat) (i : Z) :
  In i (range (Z.of_nat n)) <-> en_rango n i.
Proof. apply in_range. Qed.

(** ** The distance matrix is the matrix of least path weights *)

(** *** Before the triple loop *)

Lemma fw_inicial_dims (n : nat) : dims n (fw_inicial (Z.of_nat n)).
Proof.
  unfold fw_inicial. rewrite Nat2Z.id. split.
  - apply repeat_length.
  - intros fila H. apply repeat_spec in H. subst. apply repeat_length.
Qed.

Lemma fw_inicial_entry (n : nat) (a b : Z) :
  en_rango n a -> en_rango n b -> entry (fw_inicial (Z.of_nat n)) a b = PInf.
Proof.
  intros Ha Hb.
  rewrite (entry_rango n _ a b (fw_inicial_dims n) Ha Hb).
  unfold fw_inicial, en_rango in *. rewrite Nat2Z.id.
  rewrite (nth_indep _ [] (repeat PInf n)) by (rewrite repeat_length; lia).
  rewrite nth_repeat.
  rewrite (nth_indep _ NaN PInf) by (rewrite repeat_length; lia).
  apply nth_repeat.
Qed.

Lemma fw_diagonal_spec (n : nat) :
  exists d,
    fw_diagonal (Z.of_nat n) (fw_inicial (Z.of_nat n)) = Ok d
    /\ dims n d
    /\ forall a b, en_rango n a -> en_rango n b ->
         entry d a b = if a =? b then Fin 0 else PInf.
Proof.
  unfold fw_diagonal.
  destruct (for_each_prefix
              (fun pre d =>
                 dims n d
                 /\ forall a b, en_rango n a -> en_rango n b ->
                      (a = b /\ In a pre -> entry d a b = Fin 0)
                      /\ (~ (a = b /\ In a pre) -> entry d a b = PInf))
              (fun d i => mset d i i (Fin 0)) (range (Z.of_nat n)))
    with (s := fw_inicial (Z.of_nat n)) as (d & E & Hd & H).
  - intros pre x post s Hl [Hd H].
    assert (Hx : en_rango n x).
    { apply in_range_nat. rewrite Hl. apply in_app_iff. right. now left. }
    destruct (mset_rango n s x x (Fin 0) Hd Hx Hx) as (s' & E & Hd' & He).
    exists s'. split; [exact E|]. split; [exact Hd'|].
    intros a b Ha Hb. rewrite (He a b Ha Hb).
    destruct (H a b Ha Hb) as [H1 H2].
    destruct (Z.eqb_spec a x) as [->|Hax];
      destruct (Z.eqb_spec b x) as [->|Hbx]; simpl.
    + split; [reflexivity|]. intros Hn. exfalso. apply Hn.
      split; [reflexivity|]. apply in_app_iff. right. now left.
    + split; [intros [Hab _]; congruence|]. intros _. apply H2.
      intros [Hab _]; congruence.
    + split; [intros [Hab _]; congruence|]. intros _. apply H2.
      intros [Hab _]; congruence.
    + split.
      * intros [Hab Hin]. apply H1. split; [exact Hab|].
        apply in_app_iff in Hin. destruct Hin as [Hin|[Hin|[]]]; congruence.
      * intros Hn. apply H2. intros [Hab Hin]. apply Hn.
        split; [exact Hab|]. apply in_app_iff. now left.
  - split; [apply fw_inicial_dims|]. intros a b Ha Hb. split.
    + intros [_ []].
    + intros _. now apply fw_inicial_entry.
  - exists d. split; [exact E|]. split; [exact Hd|].
    intros a b Ha Hb. destruct (H a b Ha Hb) as [H1 H2].
    destruct (Z.eqb_spec a b) as [Hab|Hab].
    + apply H1. split; [exact Hab|]. now apply in_range_nat.
    + apply H2. intros [Hab' _]. congruence.
Qed.

Lemma peso_arista_snoc (ar : dict (Z * Z) num) (a : (Z * Z) * num) (u v : Z) :
  peso_arista (ar ++ [a]) u v
  = if une a u v then Some (snd a) else peso_arista ar u v.
Proof. unfold peso_arista. now rewrite fold_left_app. Qed.

Lemma une_sym (a : (Z * Z) * num) (u v : Z) : une a u v = une a v u.
Proof. unfold une. apply orb_comm. Qed.

Lemma peso_arista_sym (ar : dict (Z * Z) num) (u v : Z) :
  peso_arista ar u v = peso_arista ar v u.
Proof.
  induction ar as [|a ar IH] using rev_ind; [reflexivity|].
  rewrite !peso_arista_snoc, IH, une_sym. reflexivity.
Qed.

Lemma peso_arista_In (ar : dict (Z * Z) num) (u v : Z) (w : num) :
  peso_arista ar u v = Some w ->
  In ((u, v), w) ar \/ In ((v, u), w) ar.
Proof.
  induction ar as [|a ar IH] using rev_ind; [discriminate|].
  rewrite peso_arista_snoc. destruct (une a u v) eqn:E.
  - intros H. injection H as <-. destruct a as [[x y] w]. unfold une in E.
    simpl in *. apply orb_true_iff in E.
    destruct E as [E|E]; apply andb_true_iff in E; destruct E as [E1 E2];
      apply Z.eqb_eq in E1, E2; subst; [left|right];
      apply in_app_iff; right; now left.
  - intros H. destruct (IH H); [left|right]; apply in_app_iff; now left.
Qed.

Lemma peso_arista_valido (n : nat) (ar : dict (Z * Z) num) (u v : Z)
  (w : num) :
  aristas_validas n ar -> peso_arista ar u v = Some w ->
  en_rango n u /\ en_rango n v /\ peso_valido w /\ (u = v -> w = Fin 0).
Proof.
  intros Hv H. destruct (peso_arista_In ar u v w H) as [Hi|Hi];
    destruct (Hv _ _ _ Hi) as (H1 & H2 & H3 & H4);
    (split; [|split; [|split]]); auto.
Qed.

Lemma fw_aristas_spec (n : nat) (ar : dict (Z * Z) num) (d0 : matrix) :
  aristas_validas n ar -> dims n d0 ->
  (forall a b, en_rango n a -> en_rango n b ->
     entry d0 a b = if a =? b then Fin 0 else PInf) ->
  exists d,
    fw_aristas ar d0 = Ok d
    /\ dims n d
    /\ forall a b, en_rango n a -> en_rango n b ->
         entry d a b = peso_inicial ar a b.
Proof.
  intros Hv Hd0 H0. unfold fw_aristas.
  destruct (for_each_prefix
              (fun pre d =>
                 dims n d
                 /\ forall a b, en_rango n a -> en_rango n b ->
                      entry d a b = peso_inicial pre a b)
              fw_arista ar) with (s := d0) as (d & E & Hd & H); eauto.
  intros pre [[u v] w] post s Hl [Hd H].
  destruct (Hv u v w) as (Hu & Hw & _).
  { rewrite Hl. apply in_app_iff. right. now left. }
  unfold fw_arista.
  destruct (mset_rango n s u v w Hd Hu Hw) as (s1 & E1 & Hd1 & He1).
  rewrite E1. cbn [bind].
  destruct (mset_rango n s1 v u w Hd1 Hw Hu) as (s2 & E2 & Hd2 & He2).
  exists s2. split; [exact E2|]. split; [exact Hd2|].
  intros a b Ha Hb. rewrite (He2 a b Ha Hb), (He1 a b Ha Hb), (H a b Ha Hb).
  unfold peso_inicial. rewrite peso_arista_snoc. unfold une. simpl.
  rewrite (Z.eqb_sym u a), (Z.eqb_sym v b), (Z.eqb_sym v a), (Z.eqb_sym u b).
  destruct (a =? u), (b =? v), (a =? v), (b =? u); reflexivity.
Qed.

(** *** Paths *)

Lemma last_cons {A : Type} (l : list A) (v u : A) :
  last (v :: l) u = last l v.
Proof.
  revert v u; induction l as [|x l IH]; intros v u; [reflexivity|].
  change (last (v :: x :: l) u) with (last (x :: l) u).
  now rewrite (IH x u), (IH x v).
Qed.

Lemma last_app_cons {A : Type} (l1 l2 : list A) (u : A) :
  last (l1 ++ l2) u = last l2 (last l1 u).
Proof.
  revert u; induction l1 as [|x l1 IH]; intros u; [reflexivity|].
  rewrite <- app_comm_cons, !last_cons. apply IH.
Qed.

Lemma peso_camino_app (ar : dict (Z * Z) num) (l1 l2 : list Z) (u : Z) :
  peso_camino ar u (l1 ++ l2)
  = match peso_camino ar u l1, peso_camino ar (last l1 u) l2 with
    | Some a, Some b => Some (add a b)
    | _, _ => None
    end.
Proof.
  revert u; induction l1 as [|v l1 IH]; intros u.
  - cbn [app peso_camino last]. destruct (peso_camino ar u l2); [|reflexivity].
    now rewrite add_0_l.
  - rewrite <- app_comm_cons, last_cons. cbn [peso_camino]. rewrite IH.
    destruct (peso_arista ar u v); [|reflexivity].
    destruct (peso_camino ar v l1); [|reflexivity].
    destruct (peso_camino ar (last l1 v) l2); [|reflexivity].
    now rewrite add_assoc.
Qed.

Lemma wpath_app (w : matrix) (l1 l2 : list Z) (i x j : Z) :
  wpath w i (l1 ++ x :: l2) j = add (wpath w i l1 x) (wpath w x l2 j).
Proof.
  revert i; induction l1 as [|y l1 IH]; intros i; simpl; [reflexivity|].
  now rewrite IH, add_assoc.
Qed.

Lemma wpath_nn (n : nat) (w : matrix) (l : list Z) (i j : Z) :
  matriz_nn n w -> en_rango n i -> en_rango n j ->
  (forall x, In x l -> en_rango n x) -> nn (wpath w i l j).
Proof.
  intros Hw. revert i; induction l as [|x l IH]; intros i Hi Hj Hl; simpl.
  - now apply Hw.
  - apply nn_add.
    + apply Hw; auto. apply Hl. now left.
    + apply IH; auto.
      * apply Hl. now left.
      * intros; apply Hl; now right.
Qed.

(** *** One relaxation *)

Lemma relajar_spec (n : nat) (k i j : Z) (d : matrix) :
  dims n d -> en_rango n k -> en_rango n i -> en_rango n j ->
  exists d',
    relajar k i j d = Ok d'
    /\ dims n d'
    /\ forall a b, en_rango n a -> en_rango n b ->
         entry d' a b
         = if (a =? i) && (b =? j)
           then if ltb (add (entry d i k) (entry d k j)) (entry d i j)
                then add (entry d i k) (entry d k j)
                else entry d i j
           else entry d a b.
Proof.
  intros Hd Hk Hi Hj. unfold relajar.
  rewrite !(mget_entry n) by assumption. cbn [bind]. unfold gtb.
  destruct (ltb _ _) eqn:E.
  - apply mset_rango; assumption.
  - exists d. split; [reflexivity|]. split; [exact Hd|].
    intros a b _ _.
    destruct (Z.eqb_spec a i) as [->|]; [|reflexivity].
    destruct (Z.eqb_spec b j) as [->|]; reflexivity.
Qed.

Lemma ltb_add_fin (x y z : num) :
  nn x -> nn y -> ltb (add x y) z = true ->
  exists a b, x = Fin a /\ y = Fin b.
Proof. intros; num_cases; eauto. Qed.

Lemma relajar_paso (n : nat) (ar : dict (Z * Z) num) (k i j : Z)
  (d : matrix) :
  dims n d -> matriz_nn n d -> alcanzada n ar d ->
  en_rango n k -> en_rango n i -> en_rango n j ->
  exists d',
    relajar k i j d = Ok d'
    /\ dims n d' /\ matriz_nn n d' /\ alcanzada n ar d'
    /\ menor n d' d
    /\ leb (entry d' i j) (add (entry d i k) (entry d k j)) = true.
Proof.
  intros Hd Hnn Hal Hk Hi Hj.
  destruct (relajar_spec n k i j d Hd Hk Hi Hj) as (d' & E & Hd' & He).
  exists d'. split; [exact E|]. split; [exact Hd'|].
  assert (Nik := Hnn i k Hi Hk). assert (Nkj := Hnn k j Hk Hj).
  assert (Nij := Hnn i j Hi Hj).
  assert (Nsum := nn_add _ _ Nik Nkj).
  split; [|split; [|split]].
  - intros a b Ha Hb. rewrite (He a b Ha Hb).
    destruct ((a =? i) && (b =? j)); [|now apply Hnn].
    destruct (ltb _ _); assumption.
  - intros a b Ha Hb. rewrite (He a b Ha Hb).
    destruct ((a =? i) && (b =? j)) eqn:Eab; [|now apply Hal].
    apply andb_true_iff in Eab. destruct Eab as [Ea Eb].
    apply Z.eqb_eq in Ea, Eb. subst a b.
    destruct (ltb _ _) eqn:El; [|now apply Hal].
    destruct (ltb_add_fin _ _ _ Nik Nkj El) as (x & y & Ex & Ey).
    destruct (Hal i k Hi Hk) as [Hinf|(l1 & Hl1 & P1)]; [congruence|].
    destruct (Hal k j Hk Hj) as [Hinf|(l2 & Hl2 & P2)]; [congruence|].
    right. exists (l1 ++ l2). split.
    + now rewrite last_app_cons, Hl1.
    + now rewrite peso_camino_app, P1, Hl1, P2.
  - intros a b Ha Hb. rewrite (He a b Ha Hb).
    destruct ((a =? i) && (b =? j)) eqn:Eab.
    + apply andb_true_iff in Eab. destruct Eab as [Ea Eb].
      apply Z.eqb_eq in Ea, Eb. subst a b.
      destruct (ltb _ _) eqn:El.
      * now apply ltb_leb.
      * apply leb_refl. now apply nn_buena.
    + apply leb_refl. apply nn_buena. now apply Hnn.
  - rewrite (He i j Hi Hj), !Z.eqb_refl. simpl.
    destruct (ltb _ _) eqn:El.
    + apply leb_refl. now apply nn_buena.
    + apply not_ltb_leb; auto using nn_buena.
Qed.

Lemma menor_trans (n : nat) (d1 d2 d3 : matrix) :
  menor n d1 d2 -> menor n d2 d3 -> menor n d1 d3.
Proof.
  intros H1 H2 a b Ha Hb. eapply leb_trans; [apply H1|apply H2]; auto.
Qed.

Lemma menor_refl (n : nat) (d : matrix) : matriz_nn n d -> menor n d d.
Proof. intros H a b Ha Hb. apply leb_refl, nn_buena. now apply H. Qed.

(** *** One pass for an intermediate node *)

Lemma fw_fase_spec (n : nat) (ar : dict (Z * Z) num) (k : Z) (d0 : matrix) :
  dims n d0 -> matriz_nn n d0 -> alcanzada n ar d0 -> en_rango n k ->
  exists d',
    fw_fase (Z.of_nat n) k d0 = Ok d'
    /\ dims n d' /\ matriz_nn n d' /\ alcanzada n ar d'
    /\ menor n d' d0
    /\ forall i j, en_rango n i -> en_rango n j ->
         leb (entry d' i j) (add (entry d0 i k) (entry d0 k j)) = true.
Proof.
  intros Hd Hnn Hal Hk. unfold fw_fase.
  destruct (for_each_prefix
              (fun pre d =>
                 dims n d /\ matriz_nn n d /\ alcanzada n ar d
                 /\ menor n d d0
                 /\ forall ij, In ij pre ->
                      leb (entry d (fst ij) (snd ij))
                          (add (entry d0 (fst ij) k) (entry d0 k (snd ij)))
                      = true)
              (fun d ij => relajar k (fst ij) (snd ij) d)
              (list_prod (range (Z.of_nat n)) (range (Z.of_nat n))))
    with (s := d0) as (d' & E & Hd' & Hnn' & Hal' & Hm' & Hb').
  - intros pre [i j] post s Hl (Hds & Hnns & Hals & Hms & Hbs).
    assert (Hij : In (i, j) (list_prod (range (Z.of_nat n))
                               (range (Z.of_nat n)))).
    { rewrite Hl. apply in_app_iff. right. now left. }
    apply in_prod_iff in Hij. destruct Hij as [Hi Hj].
    apply in_range_nat in Hi, Hj. cbn [fst snd].
    destruct (relajar_paso n ar k i j s Hds Hnns Hals Hk Hi Hj)
      as (s' & E & Hd1 & Hnn1 & Hal1 & Hm1 & Hb1).
    exists s'. split; [exact E|].
    split; [exact Hd1|]. split; [exact Hnn1|]. split; [exact Hal1|].
    split; [exact (menor_trans n _ _ _ Hm1 Hms)|].
    assert (Hpre : forall ab, In ab (list_prod (range (Z.of_nat n))
                                       (range (Z.of_nat n))) ->
                   en_rango n (fst ab) /\ en_rango n (snd ab)).
    { intros [a b] Hab. apply in_prod_iff in Hab.
      destruct Hab as [Ha Hb]. apply in_range_nat in Ha, Hb. auto. }
    intros ab Hab. apply in_app_iff in Hab.
    destruct Hab as [Hab|[<-|[]]].
    + destruct (Hpre ab) as [Ha Hb].
      { rewrite Hl. apply in_app_iff. now left. }
      eapply leb_trans; [apply Hm1; assumption|]. now apply Hbs.
    + cbn [fst snd]. eapply leb_trans; [exact Hb1|].
      apply leb_add; auto using nn_buena.
  - split; [exact Hd|]. split; [exact Hnn|]. split; [exact Hal|].
    split; [now apply menor_refl|]. intros ij [].
  - exists d'. split; [exact E|].
    split; [exact Hd'|]. split; [exact Hnn'|]. split; [exact Hal'|].
    split; [exact Hm'|].
    intros i j Hi Hj. apply (Hb' (i, j)). apply in_prod_iff.
    split; now apply in_range_nat.
Qed.

Lemma for_each_ext {S X : Type} (f g : S -> X -> resultado S) (l : list X) :
  (forall s x, f s x = g s x) ->
  forall s, for_each f l s = for_each g l s.
Proof.
  intros H. induction l as [|x l IH]; intros s; simpl; [reflexivity|].
  rewrite H. destruct (g s x); simpl; auto.
Qed.

Lemma fw_bucles_fases (n : Z) (d : matrix) :
  fw_bucles n d = for_each (fun d k => fw_fase n k d) (range n) d.
Proof.
  unfold fw_bucles, fw_fase. apply for_each_ext. intros s k.
  apply (for_each_prod (fun i j d => relajar k i j d)).
Qed.

(** *** After the pass for [k], the walks through [k] are covered *)

Section FaseCompleta.

Variable n : nat.
Variables W d0 d' : matrix.
Variable pre : list Z.
Variable k : Z.

Hypothesis W_nn : matriz_nn n W.
Hypothesis pre_rango : forall x, In x pre -> en_rango n x.
Hypothesis k_rango : en_rango n k.
Hypothesis d0_nn : matriz_nn n d0.
Hypothesis cota_pre :
  forall i j, en_rango n i -> en_rango n j ->
  forall l, (forall x, In x l -> In x pre) ->
            leb (entry d0 i j) (wpath W i l j) = true.
Hypothesis d'_menor : menor n d' d0.
Hypothesis d'_cota :
  forall i j, en_rango n i -> en_rango n j ->
              leb (entry d' i j) (add (entry d0 i k) (entry d0 k j)) = true.

Lemma con_k_rango (l : list Z) :
  (forall x, In x l -> In x (pre ++ [k])) -> forall x, In x l -> en_rango n x.
Proof.
  intros Hl x Hx. apply Hl, in_app_iff in Hx.
  destruct Hx as [Hx|[<-|[]]]; auto.
Qed.

Lemma sin_k_pre (l : list Z) :
  (forall x, In x l -> In x (pre ++ [k])) -> ~ In k l ->
  forall x, In x l -> In x pre.
Proof.
  intros Hl Hk x Hx. destruct (in_app_or _ _ _ (Hl x Hx)) as [H|[<-|[]]];
    [exact H|contradiction].
Qed.

Lemma cota_desde_k :
  forall len l, (length l <= len)%nat ->
    (forall x, In x l -> In x (pre ++ [k])) ->
    forall j, en_rango n j -> leb (entry d0 k j) (wpath W k l j) = true.
Proof.
  induction len as [|len IH]; intros l Hlen Hl j Hj;
    destruct (in_dec Z.eq_dec k l) as [Hin|Hin];
    try (apply cota_pre; auto; now apply sin_k_pre).
  - destruct l; [destruct Hin | simpl in Hlen; lia].
  - destruct (in_split _ _ Hin) as (a & b & ->).
    rewrite wpath_app.
    assert (Ha : forall x, In x a -> In x (pre ++ [k])).
    { intros x Hx. apply Hl, in_app_iff. now left. }
    assert (Hb : forall x, In x b -> In x (pre ++ [k])).
    { intros x Hx. apply Hl, in_app_iff. right. now right. }
    eapply leb_trans.
    + apply (IH b); auto. rewrite length_app in Hlen. simpl in Hlen. lia.
    + apply leb_add_nn_l; apply (wpath_nn n); auto; now apply con_k_rango.
Qed.

Lemma cota_hasta_k :
  forall len l, (length l <= len)%nat ->
    (forall x, In x l -> In x (pre ++ [k])) ->
    forall i, en_rango n i -> leb (entry d0 i k) (wpath W i l k) = true.
Proof.
  induction len as [|len IH]; intros l Hlen Hl i Hi;
    destruct (in_dec Z.eq_dec k l) as [Hin|Hin];
    try (apply cota_pre; auto; now apply sin_k_pre).
  - destruct l; [destruct Hin | simpl in Hlen; lia].
  - destruct (in_split _ _ Hin) as (a & b & ->).
    rewrite wpath_app.
    assert (Ha : forall x, In x a -> In x (pre ++ [k])).
    { intros x Hx. apply Hl, in_app_iff. now left. }
    assert (Hb : forall x, In x b -> In x (pre ++ [k])).
    { intros x Hx. apply Hl, in_app_iff. right. now right. }
    eapply leb_trans.
    + apply (IH a); auto. rewrite length_app in Hlen. simpl in Hlen. lia.
    + apply leb_add_nn_r; apply (wpath_nn n); auto; now apply con_k_rango.
Qed.

Lemma cota_con_k (i j : Z) (l : list Z) :
  en_rango n i -> en_rango n j ->
  (forall x, In x l -> In x (pre ++ [k])) ->
  leb (entry d' i j) (wpath W i l j) = true.
Proof.
  intros Hi Hj Hl. destruct (in_dec Z.eq_dec k l) as [Hin|Hin].
  - destruct (in_split _ _ Hin) as (a & b & ->).
    rewrite wpath_app.
    assert (Ha : forall x, In x a -> In x (pre ++ [k])).
    { intros x Hx. apply Hl, in_app_iff. now left. }
    assert (Hb : forall x, In x b -> In x (pre ++ [k])).
    { intros x Hx. apply Hl, in_app_iff. right. now right. }
    eapply leb_trans; [apply d'_cota; assumption|].
    apply leb_add.
    + apply nn_buena, (wpath_nn n); auto; now apply con_k_rango.
    + apply nn_buena, (wpath_nn n); auto; now apply con_k_rango.
    + now apply (cota_hasta_k (length a)).
    + now apply (cota_desde_k (length b)).
    + apply nn_buena. now apply d0_nn.
    + apply nn_buena. now apply d0_nn.
  - eapply leb_trans; [apply d'_menor; assumption|].
    apply cota_pre; auto. now apply sin_k_pre.
Qed.

End FaseCompleta.

(** *** The triple loop *)

Lemma fw_bucles_spec (n : nat) (ar : dict (Z * Z) num) (W : matrix) :
  dims n W -> matriz_nn n W -> alcanzada n ar W ->
  exists D,
    fw_bucles (Z.of_nat n) W = Ok D
    /\ dims n D /\ matriz_nn n D /\ alcanzada n ar D
    /\ menor n D W
    /\ forall i j, en_rango n i -> en_rango n j ->
       forall l, (forall x, In x l -> en_rango n x) ->
                 leb (entry D i j) (wpath W i l j) = true.
Proof.
  intros Hd Hnn Hal. rewrite fw_bucles_fases.
  destruct (for_each_prefix
              (fun pre d =>
                 dims n d /\ matriz_nn n d /\ alcanzada n ar d
                 /\ menor n d W
                 /\ forall i j, en_rango n i -> en_rango n j ->
                    forall l, (forall x, In x l -> In x pre) ->
                              leb (entry d i j) (wpath W i l j) = true)
              (fun d k => fw_fase (Z.of_nat n) k d) (range (Z.of_nat n)))
    with (s := W) as (D & E & HdD & HnnD & HalD & HmD & HcD).
  - intros pre k post s Hl (Hds & Hnns & Hals & Hms & Hcs).
    assert (Hk : en_rango n k).
    { apply in_range_nat. rewrite Hl. apply in_app_iff. right. now left. }
    assert (Hpre : forall x, In x pre -> en_rango n x).
    { intros x Hx. apply in_range_nat. rewrite Hl. apply in_app_iff.
      now left. }
    destruct (fw_fase_spec n ar k s Hds Hnns Hals Hk)
      as (s' & E & Hd1 & Hnn1 & Hal1 & Hm1 & Hb1).
    exists s'. split; [exact E|].
    split; [exact Hd1|]. split; [exact Hnn1|]. split; [exact Hal1|].
    split; [exact (menor_trans n _ _ _ Hm1 Hms)|].
    intros i j Hi Hj l Hl'.
    now apply (cota_con_k n W s s' pre k).
  - split; [exact Hd|]. split; [exact Hnn|]. split; [exact Hal|].
    split; [now apply menor_refl|].
    intros i j Hi Hj l Hl. destruct l as [|x l].
    + simpl. apply leb_refl, nn_buena. now apply Hnn.
    + destruct (Hl x (or_introl eq_refl)).
  - exists D. split; [exact E|].
    split; [exact HdD|]. split; [exact HnnD|]. split; [exact HalD|].
    split; [exact HmD|].
    intros i j Hi Hj l Hl. apply HcD; auto.
    intros x Hx. apply in_range_nat. now apply Hl.
Qed.

(** *** Paths of the graph and sums of initial entries *)

Lemma peso_inicial_nn (n : nat) (ar : dict (Z * Z) num) (a b : Z) :
  aristas_validas n ar -> nn (peso_inicial ar a b).
Proof.
  intros Hv. unfold peso_inicial.
  destruct (peso_arista ar a b) as [w|] eqn:E.
  - apply peso_valido_nn. now apply (peso_arista_valido n ar a b w Hv).
  - destruct (a =? b); simpl; [lia|exact I].
Qed.

Lemma peso_camino_valido (n : nat) (ar : dict (Z * Z) num) (l : list Z) :
  aristas_validas n ar ->
  forall i w, peso_camino ar i l = Some w -> peso_valido w.
Proof.
  intros Hv. induction l as [|x l IH]; intros i w H; simpl in H.
  - injection H as <-. simpl. lia.
  - destruct (peso_arista ar i x) as [w0|] eqn:E0; [|discriminate].
    destruct (peso_camino ar x l) as [r|] eqn:Er; [|discriminate].
    injection H as <-.
    destruct (peso_arista_valido n ar i x w0 Hv E0) as (_ & _ & H0 & _).
    specialize (IH x r Er). destruct w0, r; simpl in *; try tauto. lia.
Qed.

Lemma peso_camino_wpath (n : nat) (ar : dict (Z * Z) num) (W : matrix) :
  aristas_validas n ar ->
  (forall a b, en_rango n a -> en_rango n b ->
     entry W a b = peso_inicial ar a b) ->
  forall l i j w, en_rango n i ->
    peso_camino ar i (l ++ [j]) = Some w ->
    wpath W i l j = w /\ (forall x, In x l -> en_rango n x) /\ en_rango n j.
Proof.
  intros Hv HW. induction l as [|x l IH]; intros i j w Hi H.
  - cbn [app peso_camino] in H.
    destruct (peso_arista ar i j) as [w0|] eqn:E0; [|discriminate].
    injection H as <-.
    destruct (peso_arista_valido n ar i j w0 Hv E0) as (_ & Hj & _).
    split; [|split; [intros x []|exact Hj]].
    simpl. rewrite (HW i j Hi Hj). unfold peso_inicial. rewrite E0.
    now rewrite add_0_r.
  - rewrite <- app_comm_cons in H. cbn [peso_camino] in H.
    destruct (peso_arista ar i x) as [w0|] eqn:E0; [|discriminate].
    destruct (peso_camino ar x (l ++ [j])) as [r|] eqn:Er; [|discriminate].
    injection H as <-.
    destruct (peso_arista_valido n ar i x w0 Hv E0) as (_ & Hx & _).
    destruct (IH x j r Hx Er) as (Hw & Hl & Hj).
    split; [|split; [|exact Hj]].
    + simpl. rewrite (HW i x Hi Hx), Hw. unfold peso_inicial.
      now rewrite E0.
    + intros y [<-|Hy]; auto.
Qed.

Lemma peso_camino_rev (ar : dict (Z * Z) num) (l : list Z) :
  forall i w, peso_camino ar i l = Some w ->
    exists l', last l' (last l i) = i
               /\ peso_camino ar (last l i) l' = Some w.
Proof.
  induction l as [|v l IH]; intros i w H.
  - exists []. split; [reflexivity|exact H].
  - cbn [peso_camino] in H.
    destruct (peso_arista ar i v) as [w0|] eqn:E0; [|discriminate].
    destruct (peso_camino ar v l) as [r|] eqn:Er; [|discriminate].
    injection H as <-.
    destruct (IH v r Er) as (l' & Hl' & P').
    exists (l' ++ [i]). rewrite last_cons. split.
    + apply last_last.
    + rewrite peso_camino_app, P', Hl'. cbn [peso_camino].
      rewrite peso_arista_sym, E0. f_equal.
      now rewrite add_0_r, add_comm.
Qed.

Lemma inicial_alcanzada (n : nat) (ar : dict (Z * Z) num) (W : matrix) :
  (forall a b, en_rango n a -> en_rango n b ->
     entry W a b = peso_inicial ar a b) ->
  alcanzada n ar W.
Proof.
  intros HW a b Ha Hb. rewrite (HW a b Ha Hb). unfold peso_inicial.
  destruct (peso_arista ar a b) as [w|] eqn:E.
  - right. exists [b]. split; [reflexivity|].
    cbn [peso_camino]. rewrite E. now rewrite add_0_r.
  - destruct (Z.eqb_spec a b) as [->|Hab]; [|now left].
    right. exists []. split; reflexivity.
Qed.

(** The distance matrix: it is computed, its entries are non-negative
    or +inf, each is +inf or the weight of a path, and none exceeds the
    weight of a path between its nodes. *)
Lemma floyd_warshall_spec (n : nat) (ar : dict (Z * Z) num) :
  aristas_validas n ar ->
  exists dist,
    floyd_warshall ar (Z.of_nat n) = Ok dist
    /\ dims n dist /\ matriz_nn n dist /\ alcanzada n ar dist
    /\ forall i j, en_rango n i -> en_rango n j ->
       forall l w, last l i = j -> peso_camino ar i l = Some w ->
                   leb (entry dist i j) w = true.
Proof.
  intros Hv. unfold floyd_warshall.
  destruct (fw_diagonal_spec n) as (d1 & E1 & Hd1 & He1).
  rewrite E1. cbn [bind].
  destruct (fw_aristas_spec n ar d1 Hv Hd1 He1) as (W & E2 & HdW & HW).
  rewrite E2. cbn [bind].
  assert (HnnW : matriz_nn n W).
  { intros a b Ha Hb. rewrite (HW a b Ha Hb). now apply (peso_inicial_nn n). }
  destruct (fw_bucles_spec n ar W HdW HnnW (inicial_alcanzada n ar W HW))
    as (D & E3 & HdD & HnnD & HalD & HmD & HcD).
  exists D. split; [exact E3|].
  split; [exact HdD|]. split; [exact HnnD|]. split; [exact HalD|].
  intros i j Hi Hj l w Hl Hw.
  destruct l as [|x l0] using rev_ind.
  - simpl in Hl, Hw. subst j. injection Hw as <-.
    eapply leb_trans; [apply HmD; assumption|].
    rewrite (HW i i Hi Hi). unfold peso_inicial.
    destruct (peso_arista ar i i) as [w|] eqn:E.
    + destruct (peso_arista_valido n ar i i w Hv E) as (_ & _ & _ & H0).
      now rewrite H0.
    + now rewrite Z.eqb_refl.
  - rewrite last_last in Hl. subst x.
    destruct (peso_camino_wpath n ar W Hv HW l0 i j w Hi Hw)
      as (<- & Hl0 & _).
    now apply HcD.
Qed.

(** *** Consequences for the distance matrix *)

Lemma leb_antisym (x y : num) : leb x y = true -> leb y x = true -> x = y.
Proof. intros; num_cases. Qed.

Lemma leb_nn_PInf (x : num) : nn x -> leb x PInf = true.
Proof. intros; num_cases. Qed.

Lemma dist_diagonal (n : nat) (ar : dict (Z * Z) num) (dist : matrix) :
  matriz_nn n dist -> cota_caminos n ar dist ->
  forall i, en_rango n i -> entry dist i i = Fin 0.
Proof.
  intros Hnn Hc i Hi.
  assert (H := Hc i i Hi Hi [] (Fin 0) eq_refl eq_refl).
  specialize (Hnn i i Hi Hi).
  destruct (entry dist i i); simpl in *; try tauto; try discriminate.
  apply Z.leb_le in H. f_equal. lia.
Qed.

Lemma dist_menor_sim (n : nat) (ar : dict (Z * Z) num) (dist : matrix) :
  matriz_nn n dist -> alcanzada n ar dist -> cota_caminos n ar dist ->
  forall i j, en_rango n i -> en_rango n j ->
              leb (entry dist i j) (entry dist j i) = true.
Proof.
  intros Hnn Hal Hc i j Hi Hj.
  destruct (Hal j i Hj Hi) as [->|(l & Hl & P)].
  - apply leb_nn_PInf. now apply Hnn.
  - destruct (peso_camino_rev ar l j _ P) as (l' & Hl' & P').
    rewrite Hl in Hl', P'. now apply (Hc i j Hi Hj l').
Qed.

Lemma dist_simetrica (n : nat) (ar : dict (Z * Z) num) (dist : matrix) :
  matriz_nn n dist -> alcanzada n ar dist -> cota_caminos n ar dist ->
  forall i j, en_rango n i -> en_rango n j ->
              entry dist i j = entry dist j i.
Proof.
  intros Hnn Hal Hc i j Hi Hj.
  apply leb_antisym; now apply (dist_menor_sim n ar).
Qed.

Lemma dist_triangulo (n : nat) (ar : dict (Z * Z) num) (dist : matrix) :
  matriz_nn n dist -> alcanzada n ar dist -> cota_caminos n ar dist ->
  forall i j k, en_rango n i -> en_rango n j -> en_rango n k ->
    leb (entry dist i j) (add (entry dist i k) (entry dist k j)) = true.
Proof.
  intros Hnn Hal Hc i j k Hi Hj Hk.
  assert (Nij := Hnn i j Hi Hj).
  assert (Nik := Hnn i k Hi Hk). assert (Nkj := Hnn k j Hk Hj).
  destruct (Hal i k Hi Hk) as [E1|(l1 & Hl1 & P1)].
  { rewrite E1, add_PInf_l by now apply nn_buena. now apply leb_nn_PInf. }
  destruct (Hal k j Hk Hj) as [E2|(l2 & Hl2 & P2)].
  { rewrite E2, add_PInf_r by now apply nn_buena. now apply leb_nn_PInf. }
  apply (Hc i j Hi Hj (l1 ++ l2)).
  - now rewrite last_app_cons, Hl1.
  - now rewrite peso_camino_app, P1, Hl1, P2.
Qed.

Lemma dist_inf_sin_camino (n : nat) (ar : dict (Z * Z) num) (dist : matrix) :
  aristas_validas n ar -> alcanzada n ar dist -> cota_caminos n ar dist ->
  forall i j, en_rango n i -> en_rango n j ->
    (entry dist i j = PInf
     <-> forall l, last l i = j -> peso_camino ar i l = None).
Proof.
  intros Hv Hal Hc i j Hi Hj. split.
  - intros E l Hl. destruct (peso_camino ar i l) as [w|] eqn:P; [|reflexivity].
    assert (H := Hc i j Hi Hj l w Hl P). rewrite E in H.
    apply leb_PInf in H. subst w.
    now apply (peso_camino_valido n ar l Hv i) in P.
  - intros Hno. destruct (Hal i j Hi Hj) as [E|(l & Hl & P)]; [exact E|].
    rewrite (Hno l Hl) in P. discriminate.
Qed.

(** ** The cost of a trip *)

Lemma py_getitem_app {A : Type} (pre l : list A) (x : A) :
  py_getitem (pre ++ x :: l) (Z.of_nat (length pre)) = Ok x.
Proof.
  apply py_getitem_nat. rewrite nth_error_app2 by lia.
  now rewrite Nat.sub_diag.
Qed.

Lemma py_getitem_ultimo {A : Type} (l : list A) (d : A) :
  l <> [] -> py_getitem l (-1) = Ok (last l d).
Proof.
  intros H. destruct (exists_last H) as (l' & x & ->).
  rewrite last_last. unfold py_getitem, py_pos.
  change (-1 <? 0) with true. cbv iota.
  rewrite length_app. simpl length.
  replace (-1 + Z.of_nat (length l' + 1)) with (Z.of_nat (length l')) by lia.
  destruct (Z.leb_spec 0 (Z.of_nat (length l'))); [|lia].
  destruct (Z.ltb_spec (Z.of_nat (length l')) (Z.of_nat (length l' + 1)));
    [|lia].
  simpl. rewrite Nat2Z.id, nth_error_app2 by lia.
  now rewrite Nat.sub_diag.
Qed.

Lemma tramos_bucle (n : nat) (m : matrix) (viaje pre : list Z) (acc : num) :
  dims n m -> (forall v, In v viaje -> en_rango n v) ->
  for_each (fun acc k =>
              a <- py_getitem (pre ++ viaje) k ;;
              b <- py_getitem (pre ++ viaje) (k + 1) ;;
              x <- mget m a b ;;
              Ok (add acc x))
           (map Z.of_nat (seq (length pre) (length viaje - 1))) acc
  = Ok (add acc (suma_tramos m viaje)).
Proof.
  intros Hd. revert pre acc.
  induction viaje as [|a r IH]; intros pre acc Hv.
  - simpl. now rewrite add_0_r.
  - destruct r as [|b r].
    + simpl. now rewrite add_0_r.
    + replace (length (a :: b :: r) - 1)%nat with (S (length (b :: r) - 1))
        by (simpl; lia).
      cbn [seq map for_each].
      rewrite py_getitem_app.
      replace (pre ++ a :: b :: r) with ((pre ++ [a]) ++ b :: r)
        by (now rewrite <- app_assoc).
      replace (Z.of_nat (length pre) + 1) with (Z.of_nat (length (pre ++ [a])))
        by (rewrite length_app; simpl; lia).
      rewrite py_getitem_app. cbn [bind].
      rewrite (mget_entry n) by (auto; apply Hv; simpl; auto).
      cbn [bind].
      replace (S (length pre)) with (length (pre ++ [a]))
        by (rewrite length_app; simpl; lia).
      rewrite IH by (intros; apply Hv; now right).
      cbn [suma_tramos]. now rewrite add_assoc.
Qed.

Lemma distancia_desde_spec (n : nat) (m : matrix) (dep : Z)
  (viaje : list Z) (p : Z) :
  dims n m -> en_rango n dep -> en_rango n p ->
  (forall v, In v viaje -> en_rango n v) -> viaje <> [] ->
  distancia_desde m dep viaje p = Ok (costo_viaje m dep viaje p).
Proof.
  intros Hd Hdep Hp Hv Hne. unfold distancia_desde, costo_viaje.
  destruct viaje as [|v0 r]; [congruence|].
  change (py_getitem (v0 :: r) 0) with (py_getitem ([] ++ v0 :: r)
                                          (Z.of_nat (length (@nil Z)))).
  rewrite py_getitem_app. cbn [bind].
  rewrite (mget_entry n) by (auto; apply Hv; now left). cbn [bind].
  unfold range.
  replace (Z.to_nat (Z.of_nat (length (v0 :: r)) - 1))
    with (length (v0 :: r) - 1)%nat by lia.
  rewrite (tramos_bucle n m (v0 :: r) [] _ Hd Hv). cbn [bind].
  rewrite (py_getitem_ultimo (v0 :: r) 0) by discriminate. cbn [bind].
  rewrite (mget_entry n); auto.
  apply Hv. destruct (exists_last Hne) as (l' & x & E). rewrite E.
  rewrite last_last. apply in_app_iff. right. now left.
Qed.

Lemma suma_tramos_buena (n : nat) (m : matrix) (viaje : list Z) :
  matriz_buena n m -> (forall v, In v viaje -> en_rango n v) ->
  buena (suma_tramos m viaje).
Proof.
  intros Hm. induction viaje as [|a r IH]; intros Hv; [exact I|].
  destruct r as [|b r]; [exact I|].
  cbn [suma_tramos]. apply buena_add.
  - apply Hm; apply Hv; simpl; auto.
  - apply IH. intros; apply Hv; now right.
Qed.

Lemma last_In {A : Type} (l : list A) (d : A) : l <> [] -> In (last l d) l.
Proof.
  intros H. destruct (exists_last H) as (l' & x & ->).
  rewrite last_last. apply in_app_iff. right. now left.
Qed.

Lemma costo_viaje_buena (n : nat) (m : matrix) (dep : Z) (viaje : list Z)
  (p : Z) :
  matriz_buena n m -> en_rango n dep -> en_rango n p ->
  (forall v, In v viaje -> en_rango n v) -> viaje <> [] ->
  buena (costo_viaje m dep viaje p).
Proof.
  intros Hm Hdep Hp Hv Hne. unfold costo_viaje.
  apply buena_add; [apply buena_add|].
  - apply Hm; auto. apply Hv. destruct viaje; [congruence|now left].
  - now apply (suma_tramos_buena n).
  - apply Hm; auto. apply Hv. now apply last_In.
Qed.

Lemma ltb_leb_trans (x y z : num) :
  ltb x y = true -> leb y z = true -> ltb x z = true.
Proof. intros; num_cases. Qed.

(** The loop over the candidates keeps the first of the cheapest. *)
Lemma seleccion_inicio (m : matrix) (dep : Z) (viaje : list Z)
  (f : Z -> num) (cands : list Z) :
  (forall c, In c cands -> distancia_desde m dep viaje c = Ok (f c)) ->
  (forall c, In c cands -> buena (f c)) ->
  forall b0 i0, buena b0 ->
    exists best inicio,
      for_each (probar_inicio m dep viaje) cands (b0, i0) = Ok (best, inicio)
      /\ ((best = b0 /\ inicio = i0
           /\ forall c, In c cands -> leb b0 (f c) = true)
          \/ exists pre post,
               cands = pre ++ inicio :: post
               /\ f inicio = best
               /\ ltb best b0 = true
               /\ (forall c, In c pre -> ltb best (f c) = true)
               /\ (forall c, In c post -> leb best (f c) = true)).
Proof.
  induction cands as [|c cs IH]; intros Hf Hb b0 i0 Hb0.
  - exists b0, i0. split; [reflexivity|]. left. repeat split. intros c [].
  - cbn [for_each]. unfold probar_inicio at 1.
    rewrite (Hf c) by now left. cbn [bind fst].
    assert (Hfc : buena (f c)) by (apply Hb; now left).
    assert (Hf' : forall c', In c' cs ->
                             distancia_desde m dep viaje c' = Ok (f c'))
      by (intros; apply Hf; now right).
    assert (Hb' : forall c', In c' cs -> buena (f c'))
      by (intros; apply Hb; now right).
    destruct (ltb (f c) b0) eqn:E.
    + destruct (IH Hf' Hb' (f c) c Hfc)
        as (best & inicio & -> & [(-> & -> & Hall)
                                 |(pre & post & -> & Hi & Hlt & Hpre & Hpost)]).
      * exists (f c), c. split; [reflexivity|]. right.
        exists [], cs.
        split; [reflexivity|]. split; [reflexivity|]. split; [exact E|].
        split; [intros c' []|exact Hall].
      * exists best, inicio. split; [reflexivity|]. right.
        exists (c :: pre), post.
        split; [reflexivity|]. split; [exact Hi|].
        split; [exact (ltb_trans _ _ _ Hlt E)|].
        split; [|exact Hpost].
        intros c' [<-|Hc']; auto.
    + destruct (IH Hf' Hb' b0 i0 Hb0)
        as (best & inicio & -> & [(-> & -> & Hall)
                                 |(pre & post & -> & Hi & Hlt & Hpre & Hpost)]).
      * exists b0, i0. split; [reflexivity|]. left.
        split; [reflexivity|]. split; [reflexivity|].
        intros c' [<-|Hc']; auto. now apply not_ltb_leb.
      * exists best, inicio. split; [reflexivity|]. right.
        exists (c :: pre), post.
        split; [reflexivity|]. split; [exact Hi|]. split; [exact Hlt|].
        split; [|exact Hpost].
        intros c' [<-|Hc']; auto.
        apply (ltb_leb_trans _ b0); auto. now apply not_ltb_leb.
Qed.

(** The point chosen for a trip is the first candidate of minimal cost. *)
Lemma evaluar_viaje_spec (n : nat) (m : matrix) (dep : Z)
  (activos viaje : list Z) :
  dims n m -> matriz_buena n m -> en_rango n dep ->
  (forall h, In h activos -> en_rango n h) ->
  (forall v, In v viaje -> en_rango n v) -> viaje <> [] ->
  exists best inicio pre post,
    evaluar_viaje m dep activos viaje = Ok (best, inicio)
    /\ [dep] ++ activos = pre ++ inicio :: post
    /\ best = costo_viaje m dep viaje inicio
    /\ (forall c, In c pre ->
          ltb best (costo_viaje m dep viaje c) = true)
    /\ (forall c, In c post ->
          leb best (costo_viaje m dep viaje c) = true).
Proof.
  intros Hd Hm Hdep Hact Hv Hne.
  assert (Hc : forall p, In p ([dep] ++ activos) -> en_rango n p).
  { intros p [<-|Hp]; auto. }
  assert (H1 : forall p, In p ([dep] ++ activos) ->
                 distancia_desde m dep viaje p
                 = Ok (costo_viaje m dep viaje p)).
  { intros p Hp. apply (distancia_desde_spec n); auto. }
  unfold evaluar_viaje.
  destruct (seleccion_inicio m dep viaje (costo_viaje m dep viaje)
              ([dep] ++ activos) H1) with (b0 := PInf) (i0 := dep)
    as (best & inicio & E & [(-> & -> & Hall)
                            |(pre & post & Ec & Hi & Hlt & Hpre & Hpost)]).
  - intros p Hp. apply (costo_viaje_buena n); auto.
  - exact I.
  - exists PInf, dep, [], activos. split; [exact E|].
    split; [reflexivity|]. split.
    + symmetry. apply leb_PInf. apply Hall. now left.
    + split; [intros c []|]. intros c Hc'. apply Hall. now right.
  - exists best, inicio, pre, post. auto.
Qed.

(** ** The leaf and the trips it groups *)

Lemma dict_getitem_keys {V : Type} (d : dict Z V) (k : Z) :
  In k (dict_keys d) -> exists v, dict_getitem d k = Ok v.
Proof.
  intros H. destruct (dict_get_keys d k H) as [v E].
  exists v. unfold dict_getitem. now rewrite E.
Qed.

Lemma agrupar_viajes_ok (ppd : dict Z Z) (cap : Z) :
  exists vs, agrupar_viajes ppd cap = Ok vs.
Proof.
  unfold agrupar_viajes.
  destruct (for_each_inv (fun _ => True) (agrupar_destino ppd cap)
              (dict_keys ppd)) with
    (s := {| viajes := []; viaje_actual := []; carga_actual := 0 |})
    as (a & -> & _); [|exact I|simpl; eauto].
  intros s x Hx _. unfold agrupar_destino.
  destruct (dict_getitem_keys ppd x Hx) as [c ->]. simpl. eauto.
Qed.

Lemma evaluar_hoja_inv (dat : datos) (m : matrix) (a : list Z) (c : num)
  (e : evento) :
  evaluar_hoja dat m a c = Ok e ->
  ev_hubs e = a
  /\ agrupar_viajes (paquetes_por_destino dat) (capacidad dat)
     = Ok (ev_viajes e)
  /\ recorrer_viajes m (deposito dat) a (ev_viajes e)
     = Ok (ev_distancia e, ev_ruta e)
  /\ ev_costo e = add (ev_distancia e) c.
Proof.
  unfold evaluar_hoja. intros H.
  destruct (agrupar_viajes _ _) as [vs| |]; simpl in H; try discriminate.
  destruct (recorrer_viajes _ _ _ _) as [[d r]| |] eqn:R; simpl in H;
    try discriminate.
  injection H as <-. simpl. auto.
Qed.

Lemma probar_con_viajes_eq (dat : datos) (m : matrix) (vs : list (list Z)) :
  agrupar_viajes (paquetes_por_destino dat) (capacidad dat) = Ok vs ->
  forall fuel indice ca st,
    probar_con_viajes dat m vs fuel indice ca st
    = probar_combinaciones dat m fuel indice ca st.
Proof.
  intros Hvs.
  assert (L : forall ca st,
             (e <- evaluar_hoja_con_viajes dat m vs (hubs_activos st) ca ;;
              Ok (actualizar e st))
             = hoja dat m ca st).
  { intros ca st. unfold hoja, evaluar_hoja, evaluar_hoja_con_viajes.
    rewrite Hvs. reflexivity. }
  induction fuel as [|fuel IH]; intros indice ca st; simpl;
    destruct (Nat.eqb indice (length (hubs dat))); auto.
  rewrite IH.
  destruct (probar_combinaciones dat m fuel (indice + 1) ca st); simpl; auto.
  destruct (py_getitem (hubs dat) (Z.of_nat indice)); simpl; auto.
  destruct (dict_getitem (costo_hubs dat) a0); simpl; auto.
  rewrite IH. reflexivity.
Qed.

(** ** The trips produced by the grouping *)

Lemma snoc_no_nil {A : Type} (l : list A) (x : A) : l ++ [x] <> [].
Proof. intros H. symmetry in H. now apply app_cons_not_nil in H. Qed.

Lemma agrupar_viajes_spec (ppd : dict Z Z) (cap : Z) :
  exists vs,
    agrupar_viajes ppd cap = Ok vs
    /\ concat vs = dict_keys ppd
    /\ (primer_destino_cabe ppd cap -> forall v, In v vs -> v <> []).
Proof.
  unfold agrupar_viajes.
  destruct (for_each_prefix
              (fun pre a =>
                 concat (viajes a) ++ viaje_actual a = pre
                 /\ (pre = [] -> carga_actual a = 0 /\ viaje_actual a = [])
                 /\ (pre <> [] -> viaje_actual a <> [])
                 /\ (primer_destino_cabe ppd cap ->
                     forall v, In v (viajes a) -> v <> []))
              (agrupar_destino ppd cap) (dict_keys ppd))
    with (s := {| viajes := []; viaje_actual := []; carga_actual := 0 |})
    as (a & E & Hc & _ & Hne & Hvs).
  - intros pre x post a Hl (Hc & H0 & Hne & Hvs).
    unfold agrupar_destino.
    destruct (dict_getitem_keys ppd x) as [cant Ecant].
    { rewrite Hl. apply in_app_iff. right. now left. }
    rewrite Ecant. cbn [bind]. eexists. split; [reflexivity|].
    destruct (carga_actual a + cant >? cap) eqn:Ecap; cbn [viajes viaje_actual].
    + split; [|split; [|split]].
      * rewrite concat_app. simpl. rewrite app_nil_r. now rewrite Hc.
      * intros H. now apply snoc_no_nil in H.
      * discriminate.
      * intros Hp v Hv. apply in_app_iff in Hv.
        destruct Hv as [Hv|[<-|[]]]; [now apply Hvs|].
        destruct pre as [|y pre]; [|apply Hne; discriminate].
        exfalso. destruct (H0 eq_refl) as [Hcarga _].
        destruct ppd as [|[k c] ppd']; [discriminate|].
        simpl in Hl. injection Hl as <- _.
        unfold dict_getitem in Ecant. simpl in Ecant.
        rewrite Z.eqb_refl in Ecant. injection Ecant as <-.
        simpl in Hp. rewrite Hcarga in Ecap.
        apply Z.gtb_lt in Ecap. lia.
    + split; [|split; [|split]].
      * now rewrite app_assoc, Hc.
      * intros H. now apply snoc_no_nil in H.
      * intros _. apply snoc_no_nil.
      * exact Hvs.
  - split; [reflexivity|]. split; [auto|]. split; [congruence|].
    intros _ v [].
  - destruct (viaje_actual a) as [|y va] eqn:Eva.
    + exists (viajes a).
      split; [rewrite E; cbn [bind]; now rewrite Eva|].
      split; [now rewrite <- Hc, app_nil_r|exact Hvs].
    + exists (viajes a ++ [y :: va]).
      split; [rewrite E; cbn [bind]; now rewrite Eva|]. split.
      * rewrite concat_app. simpl. now rewrite app_nil_r.
      * intros Hp v Hv. apply in_app_iff in Hv.
        destruct Hv as [Hv|[<-|[]]]; [now apply Hvs|discriminate].
Qed.

Lemma dict_set_keys {V : Type} (d : dict Z V) (k k' : Z) (v : V) :
  In k (dict_keys (dict_set d k' v)) -> k = k' \/ In k (dict_keys d).
Proof.
  induction d as [|[k0 v0] d IH]; simpl.
  - intros [<-|[]]. now left.
  - destruct (Z.eqb_spec k' k0); simpl; intros [<-|H]; auto.
    destruct (IH H); auto.
Qed.

Lemma contar_destinos_keys (ps : dict Z paquete) (k : Z) :
  In k (dict_keys (contar_destinos ps)) ->
  exists p, In p ps /\ destino (snd p) = k.
Proof.
  unfold contar_destinos.
  assert (G : forall acc,
             In k (dict_keys
                     (fold_left
                        (fun acc ip =>
                           let d := destino (snd ip) in
                           dict_set acc d (dict_get_default acc d 0 + 1))
                        ps acc)) ->
             In k (dict_keys acc)
             \/ exists p, In p ps /\ destino (snd p) = k).
  { induction ps as [|p ps IH]; intros acc H; simpl in H; [now left|].
    destruct (IH _ H) as [H1|(q & Hq & Eq)].
    - apply dict_set_keys in H1. destruct H1 as [->|H1]; [|now left].
      right. exists p. split; [now left|reflexivity].
    - right. exists q. split; [now right|exact Eq]. }
  intros H. destruct (G [] H) as [[]|H']; exact H'.
Qed.

(** ** The search is a loop over its leaves *)

Lemma con_activos_id (st : estado) : con_activos (hubs_activos st) st = st.
Proof. destruct st; reflexivity. Qed.

Lemma actualizar_activos (e : evento) (st : estado) :
  hubs_activos (actualizar e st) = hubs_activos st.
Proof. unfold actualizar; destruct (ltb _ _); reflexivity. Qed.

Lemma actualizar_con_activos (e : evento) (a : list Z) (st : estado) :
  actualizar e (con_activos a st) = con_activos a (actualizar e st).
Proof. unfold actualizar, con_activos; simpl; destruct (ltb _ _); reflexivity. Qed.

Lemma actualizar_traza (e : evento) (st : estado) :
  traza (actualizar e st) = traza st ++ [e].
Proof. unfold actualizar; destruct (ltb _ _); reflexivity. Qed.

Lemma tras_hojas_activos (es : list evento) (st : estado) :
  hubs_activos (tras_hojas es st) = hubs_activos st.
Proof.
  revert st; induction es as [|e es IH]; intros st; simpl; [reflexivity|].
  unfold tras_hojas in IH. rewrite IH. apply actualizar_activos.
Qed.

Lemma tras_hojas_con_activos (es : list evento) (a : list Z) (st : estado) :
  tras_hojas es (con_activos a st) = con_activos a (tras_hojas es st).
Proof.
  revert st; induction es as [|e es IH]; intros st; simpl; [reflexivity|].
  rewrite actualizar_con_activos. apply IH.
Qed.

Lemma tras_hojas_app (es1 es2 : list evento) (st : estado) :
  tras_hojas (es1 ++ es2) st = tras_hojas es2 (tras_hojas es1 st).
Proof. apply fold_left_app. Qed.

Lemma tras_hojas_traza (es : list evento) (st : estado) :
  traza (tras_hojas es st) = traza st ++ es.
Proof.
  revert st; induction es as [|e es IH]; intros st; simpl.
  - now rewrite app_nil_r.
  - unfold tras_hojas in IH. rewrite IH, actualizar_traza, <- app_assoc.
    reflexivity.
Qed.

Lemma probar_hoja (dat : datos) (m : matrix) (fuel : nat) (ca : num)
  (st : estado) :
  probar_combinaciones dat m fuel (length (hubs dat)) ca st
  = e <- evaluar_hoja dat m (hubs_activos st) ca ;; Ok (actualizar e st).
Proof. destruct fuel; simpl; rewrite Nat.eqb_refl; reflexivity. Qed.

Lemma probar_paso (dat : datos) (m : matrix) (fuel : nat) (indice : nat)
  (ca : num) (st : estado) :
  indice <> length (hubs dat) ->
  probar_combinaciones dat m (S fuel) indice ca st
  = st1 <- probar_combinaciones dat m fuel (indice + 1) ca st ;;
    hub_actual <- py_getitem (hubs dat) (Z.of_nat indice) ;;
    costo <- dict_getitem (costo_hubs dat) hub_actual ;;
    st3 <- probar_combinaciones dat m fuel (indice + 1) (add ca costo)
             (con_activos (hubs_activos st1 ++ [hub_actual]) st1) ;;
    activos <- py_pop (hubs_activos st3) ;;
    Ok (con_activos activos st3).
Proof.
  intros H. apply Nat.eqb_neq in H. simpl. rewrite H. reflexivity.
Qed.

Lemma probar_spec (dat : datos) (m : matrix) :
  forall fuel indice ca st,
    (indice <= length (hubs dat))%nat ->
    (length (hubs dat) - indice <= fuel)%nat ->
    probar_combinaciones dat m fuel indice ca st
    = es <- map_res (evaluar dat m)
              (hojas_desde dat (skipn indice (hubs dat))
                 (hubs_activos st) ca) ;;
      Ok (tras_hojas es st).
Proof.
  induction fuel as [|fuel IH]; intros indice ca st Hi Hf.
  - assert (indice = length (hubs dat)) by lia. subst indice.
    rewrite probar_hoja, skipn_all. simpl. unfold evaluar. simpl.
    destruct (evaluar_hoja _ _ _ _); reflexivity.
  - destruct (Nat.eq_dec indice (length (hubs dat))) as [->|Hn].
    + rewrite probar_hoja, skipn_all. simpl. unfold evaluar. simpl.
      destruct (evaluar_hoja _ _ _ _); reflexivity.
    + rewrite probar_paso by exact Hn.
      destruct (nth_error (hubs dat) indice) as [h|] eqn:Eh;
        [|apply nth_error_None in Eh; lia].
      rewrite (skipn_nth_error _ _ _ Eh). simpl hojas_desde.
      rewrite map_res_app.
      replace (indice + 1)%nat with (S indice) by lia.
      rewrite IH by lia.
      destruct (map_res _ (hojas_desde dat _ (hubs_activos st) ca))
        as [es1| |]; simpl; try reflexivity.
      rewrite (py_getitem_nat _ _ _ Eh). simpl.
      destruct (dict_get_keys (d_hubs dat) h) as [c Ec].
      { apply (nth_error_In _ _ Eh). }
      unfold dict_getitem, costo_hubs, costo_de. rewrite Ec. simpl.
      rewrite IH by lia. simpl hubs_activos.
      rewrite tras_hojas_activos.
      destruct (map_res _ (hojas_desde dat _ (hubs_activos st ++ [h]) _))
        as [es2| |]; simpl; try reflexivity.
      rewrite tras_hojas_con_activos. simpl hubs_activos.
      rewrite py_pop_snoc. simpl. f_equal.
      rewrite tras_hojas_app.
      change (con_activos (hubs_activos st)
                (tras_hojas es2 (tras_hojas es1 st))
              = tras_hojas es2 (tras_hojas es1 st)).
      rewrite <- (tras_hojas_activos es1 st).
      rewrite <- (tras_hojas_activos es2 (tras_hojas es1 st)).
      apply con_activos_id.
Qed.

Lemma buscar_spec (dat : datos) (m : matrix) (fuel : nat) :
  (length (hubs dat) <= fuel)%nat ->
  buscar dat m fuel
  = es <- map_res (evaluar dat m) (hojas_desde dat (hubs dat) [] (Fin 0)) ;;
    Ok (tras_hojas es estado_inicial).
Proof.
  intros H. unfold buscar. rewrite probar_spec by lia. reflexivity.
Qed.

(** The recursion returns or raises within depth [length hubs]. *)
Lemma buscar_termina (dat : datos) (m : matrix) (fuel : nat) :
  (length (hubs dat) <= fuel)%nat -> buscar dat m fuel <> SinFuel.
Proof.
  intros H. rewrite buscar_spec by exact H.
  apply con_fuel_bind; [|intros; apply con_fuel_Ok].
  apply con_fuel_map_res. intros hc. apply con_fuel_evaluar_hoja.
Qed.

(** The depth [length hubs] is reached: a smaller budget is exhausted
    before any leaf. *)
Lemma probar_sin_fuel (dat : datos) (m : matrix) :
  forall fuel indice ca st,
    (fuel < length (hubs dat) - indice)%nat ->
    probar_combinaciones dat m fuel indice ca st = SinFuel.
Proof.
  induction fuel as [|fuel IH]; intros indice ca st H.
  - simpl. destruct (Nat.eqb_spec indice (length (hubs dat))); [lia|].
    reflexivity.
  - rewrite probar_paso by lia. rewrite IH by lia. reflexivity.
Qed.

(** Whatever the budget, a call that returns has folded the updates of
    the leaves it evaluated. *)
Lemma probar_eventos (dat : datos) (m : matrix) :
  forall fuel indice ca st st',
    probar_combinaciones dat m fuel indice ca st = Ok st' ->
    exists es,
      st' = tras_hojas es st
      /\ Forall (fun e => exists a c, evaluar_hoja dat m a c = Ok e) es.
Proof.
  assert (L : forall fuel ca st st',
             probar_combinaciones dat m fuel (length (hubs dat)) ca st
             = Ok st' ->
             exists es,
               st' = tras_hojas es st
               /\ Forall (fun e => exists a c,
                                     evaluar_hoja dat m a c = Ok e) es).
  { intros fuel ca st st' H. rewrite probar_hoja in H.
    destruct (evaluar_hoja dat m (hubs_activos st) ca) as [e| |] eqn:E;
      simpl in H; try discriminate.
    injection H as <-. exists [e]. split; [reflexivity|].
    constructor; eauto. }
  induction fuel as [|fuel IH]; intros indice ca st st' H.
  - destruct (Nat.eq_dec indice (length (hubs dat))) as [->|Hn]; eauto.
    simpl in H. apply Nat.eqb_neq in Hn. rewrite Hn in H. discriminate.
  - destruct (Nat.eq_dec indice (length (hubs dat))) as [->|Hn]; eauto.
    rewrite probar_paso in H by exact Hn.
    destruct (probar_combinaciones dat m fuel (indice + 1) ca st)
      as [st1| |] eqn:E1; simpl in H; try discriminate.
    destruct (py_getitem (hubs dat) (Z.of_nat indice)) as [h| |];
      simpl in H; try discriminate.
    destruct (dict_getitem (costo_hubs dat) h) as [c| |];
      simpl in H; try discriminate.
    destruct (probar_combinaciones dat m fuel (indice + 1) (add ca c) _)
      as [st3| |] eqn:E3; simpl in H; try discriminate.
    apply IH in E1. destruct E1 as (es1 & -> & F1).
    apply IH in E3. destruct E3 as (es2 & -> & F2).
    rewrite tras_hojas_con_activos in H. simpl hubs_activos in H.
    rewrite py_pop_snoc in H. simpl in H. injection H as <-.
    exists (es1 ++ es2). split; [|apply Forall_app; auto].
    rewrite tras_hojas_app.
    change (con_activos (hubs_activos (tras_hojas es1 st))
              (tras_hojas es2 (tras_hojas es1 st))
            = tras_hojas es2 (tras_hojas es1 st)).
    rewrite <- (tras_hojas_activos es2 (tras_hojas es1 st)).
    apply con_activos_id.
Qed.

(** ** The leaves of the search *)

Lemma hojas_desde_length (dat : datos) (resto activos : list Z) (ca : num) :
  length (hojas_desde dat resto activos ca) = (2 ^ length resto)%nat.
Proof.
  revert activos ca; induction resto as [|h r IH]; intros activos ca.
  - reflexivity.
  - cbn [hojas_desde length]. rewrite length_app, !IH, Nat.pow_succ_r'. lia.
Qed.

Lemma hojas_desde_hubs (dat : datos) (resto activos : list Z) (ca : num) :
  map fst (hojas_desde dat resto activos ca)
  = map (app activos) (subconjuntos resto).
Proof.
  revert activos ca; induction resto as [|h r IH]; intros activos ca.
  - simpl. now rewrite app_nil_r.
  - cbn [hojas_desde subconjuntos]. rewrite !map_app, !IH, map_map.
    f_equal. apply map_ext. intros s. now rewrite <- app_assoc.
Qed.

Lemma hojas_desde_primera (dat : datos) (resto activos : list Z) (ca : num) :
  exists l, hojas_desde dat resto activos ca = (activos, ca) :: l.
Proof.
  revert activos ca; induction resto as [|h r IH]; intros activos ca.
  - simpl. eauto.
  - cbn [hojas_desde]. destruct (IH activos ca) as [l ->]. simpl. eauto.
Qed.

Lemma subconjuntos_sublista (l s : list Z) :
  In s (subconjuntos l) <-> sublista s l.
Proof.
  revert s; induction l as [|h r IH]; intros s; simpl.
  - split.
    + intros [<-|[]]. constructor.
    + intros H. inversion H. now left.
  - rewrite in_app_iff, in_map_iff. split.
    + intros [H|(s' & <- & H)]; apply IH in H; now constructor.
    + intros H. inversion H; subst.
      * left. now apply IH.
      * right. eexists. split; [reflexivity|]. now apply IH.
Qed.

Lemma evaluar_hubs (dat : datos) (m : matrix) (l : list (list Z * num))
  (es : list evento) :
  map_res (evaluar dat m) l = Ok es -> map ev_hubs es = map fst l.
Proof.
  revert es; induction l as [|hc l IH]; simpl; intros es H.
  - injection H as <-. reflexivity.
  - destruct (evaluar dat m hc) as [e| |] eqn:E; simpl in H; try discriminate.
    destruct (map_res (evaluar dat m) l) as [es'| |]; simpl in H;
      try discriminate.
    injection H as <-. simpl. f_equal; auto.
    unfold evaluar, evaluar_hoja in E.
    destruct (agrupar_viajes _ _); simpl in E; try discriminate.
    destruct (recorrer_viajes _ _ _ _) as [[d r]| |]; simpl in E;
      try discriminate.
    injection E as <-. reflexivity.
Qed.

Lemma map_res_all {A B : Type} (f : A -> resultado B) (l : list A) :
  (forall a, In a l -> exists b, f a = Ok b) ->
  exists bs, map_res f l = Ok bs.
Proof.
  induction l as [|a l IH]; intros H; simpl; eauto.
  destruct (H a (or_introl eq_refl)) as [b ->]. simpl.
  destruct IH as [bs ->]; [intros; apply H; now right|]. simpl. eauto.
Qed.

Lemma map_res_In {A B : Type} (f : A -> resultado B) (l : list A)
  (bs : list B) :
  map_res f l = Ok bs ->
  forall b, In b bs -> exists a, In a l /\ f a = Ok b.
Proof.
  revert bs; induction l as [|a l IH]; simpl; intros bs H b Hb.
  - injection H as <-. destruct Hb.
  - destruct (f a) as [b0| |] eqn:E; simpl in H; try discriminate.
    destruct (map_res f l) as [bs'| |]; simpl in H; try discriminate.
    injection H as <-. destruct Hb as [<-|Hb]; eauto.
    destruct (IH _ eq_refl _ Hb) as (a' & Ha & E'). eauto.
Qed.

(** ** The best result along the leaves *)

Lemma actualizar_no_menor (e : evento) (st : estado) :
  ltb (ev_costo e) (mejor_costo st) = false -> sin_cambio st (actualizar e st).
Proof. intros H. unfold actualizar. rewrite H. repeat split. Qed.

Lemma actualizar_menor (e : evento) (st : estado) :
  ltb (ev_costo e) (mejor_costo st) = true -> elegido e (actualizar e st).
Proof. intros H. unfold actualizar. rewrite H. repeat split. Qed.

Lemma tras_hojas_snoc (es : list evento) (e : evento) (st : estado) :
  tras_hojas (es ++ [e]) st = actualizar e (tras_hojas es st).
Proof. unfold tras_hojas. now rewrite fold_left_app. Qed.

Lemma ltb_false_trans (x y z : num) :
  ltb x z = false -> ltb y z = true -> ltb x y = false.
Proof.
  intros H1 H2. destruct (ltb x y) eqn:E; [|reflexivity].
  now rewrite (ltb_trans _ _ _ E H2) in H1.
Qed.

Lemma ltb_neq (x y z : num) : ltb x z = false -> ltb y z = true -> x <> y.
Proof. intros H1 H2 ->. congruence. Qed.

(** After any leaves the best result is untouched, or it is the first
    leaf of minimal cost. *)
Lemma tras_hojas_primero (es : list evento) (st : estado) :
  (sin_cambio st (tras_hojas es st)
   /\ forall e, In e es -> ltb (ev_costo e) (mejor_costo st) = false)
  \/ (exists pre e post,
        es = pre ++ e :: post
        /\ ltb (ev_costo e) (mejor_costo st) = true
        /\ elegido e (tras_hojas es st)
        /\ (forall e', In e' pre -> ev_costo e' <> ev_costo e)
        /\ (forall e', In e' es -> ltb (ev_costo e') (ev_costo e) = false)).
Proof.
  induction es as [|e0 es IH] using rev_ind.
  - left. split; [repeat split | intros e []].
  - rewrite tras_hojas_snoc.
    destruct IH as [[(Hc & Hh & Hr & Hd) Hall]
                   |(pre & e & post & -> & Hlt & (Hc & Hh & Hr & Hd)
                     & Hpre & Hmin)].
    + destruct (ltb (ev_costo e0) (mejor_costo st)) eqn:E0.
      * right. exists es, e0, []. split; [reflexivity|].
        split; [exact E0|]. split.
        { apply actualizar_menor. now rewrite Hc. }
        split.
        { intros e' He'. exact (ltb_neq _ _ _ (Hall _ He') E0). }
        intros e' He'. apply in_app_iff in He'.
        destruct He' as [He'|[<-|[]]]; [|apply ltb_irrefl].
        exact (ltb_false_trans _ _ _ (Hall _ He') E0).
      * left. split.
        { destruct (actualizar_no_menor e0 (tras_hojas es st))
            as (Hc' & Hh' & Hr' & Hd'); [now rewrite Hc|].
          repeat split; congruence. }
        intros e' He'. apply in_app_iff in He'.
        destruct He' as [He'|[<-|[]]]; auto.
    + right.
      destruct (ltb (ev_costo e0) (ev_costo e)) eqn:E0.
      * exists (pre ++ e :: post), e0, []. split; [reflexivity|].
        split; [exact (ltb_trans _ _ _ E0 Hlt)|]. split.
        { apply actualizar_menor. now rewrite Hc. }
        split.
        { intros e' He'. exact (ltb_neq _ _ _ (Hmin _ He') E0). }
        intros e' He'. apply in_app_iff in He'.
        destruct He' as [He'|[<-|[]]]; [|apply ltb_irrefl].
        exact (ltb_false_trans _ _ _ (Hmin _ He') E0).
      * exists pre, e, (post ++ [e0]). split.
        { now rewrite <- app_assoc. }
        split; [exact Hlt|]. split.
        { destruct (actualizar_no_menor e0 (tras_hojas (pre ++ e :: post) st))
            as (Hc' & Hh' & Hr' & Hd'); [now rewrite Hc|].
          repeat split; congruence. }
        split; [exact Hpre|].
        intros e' He'. apply in_app_iff in He'.
        destruct He' as [He'|[<-|[]]]; auto.
Qed.

Lemma tras_hojas_no_empeora (es : list evento) (st : estado) :
  mejor_costo (tras_hojas es st) = mejor_costo st
  \/ ltb (mejor_costo (tras_hojas es st)) (mejor_costo st) = true.
Proof.
  destruct (tras_hojas_primero es st)
    as [[(Hc & _) _]|(pre & e & post & _ & Hlt & (Hc & _) & _)].
  - now left.
  - right. now rewrite Hc.
Qed.

(** ** No leaf below +inf, no package *)

Lemma dict_get_In {V : Type} (d : dict Z V) (k : Z) (v : V) :
  dict_get d k = Some v -> In (k, v) d.
Proof.
  induction d as [|[k' v'] d IH]; simpl; [discriminate|].
  destruct (Z.eqb_spec k k'); intros H.
  - injection H as <-. subst. now left.
  - right. auto.
Qed.

Lemma hojas_desde_nn (dat : datos) (resto activos : list Z) (ca : num) :
  (forall h, In h resto -> nn (costo_de dat h)) -> nn ca ->
  forall hc, In hc (hojas_desde dat resto activos ca) -> nn (snd hc).
Proof.
  revert activos ca; induction resto as [|h r IH]; intros activos ca Hr Hc hc.
  - simpl. intros [<-|[]]. exact Hc.
  - cbn [hojas_desde]. rewrite in_app_iff. intros [H|H].
    + apply (IH activos ca); auto. intros; apply Hr; now right.
    + apply (IH (activos ++ [h]) (add ca (costo_de dat h))); auto.
      * intros; apply Hr; now right.
      * apply nn_add; auto. apply Hr. now left.
Qed.

Lemma costo_de_nn (dat : datos) (h : Z) :
  (forall k c, In (k, c) (d_hubs dat) -> nn c) ->
  In h (hubs dat) -> nn (costo_de dat h).
Proof.
  intros Hnn Hh. unfold costo_de.
  destruct (dict_get_keys (d_hubs dat) h Hh) as [c E]. rewrite E.
  apply (Hnn h). now apply dict_get_In.
Qed.

Lemma map_res_map {A B : Type} (f : A -> resultado B) (g : A -> B)
  (l : list A) :
  (forall a, In a l -> f a = Ok (g a)) -> map_res f l = Ok (map g l).
Proof.
  induction l as [|a l IH]; intros H; simpl; [reflexivity|].
  rewrite (H a (or_introl eq_refl)). simpl.
  rewrite IH by (intros; apply H; now right). reflexivity.
Qed.

(** When no leaf is below +inf the initial record is returned. *)
Lemma calcular_sin_mejora (dat : datos) (m : matrix) (fuel : nat) :
  (length (hubs dat) <= fuel)%nat ->
  (forall hc, In hc (hojas_desde dat (hubs dat) [] (Fin 0)) ->
              exists e, evaluar dat m hc = Ok e
                        /\ ltb (ev_costo e) PInf = false) ->
  calcular_mejor_camino dat m fuel = Ok ([], [], PInf, Fin 0, PInf).
Proof.
  intros Hf Hall. unfold calcular_mejor_camino.
  rewrite buscar_spec by exact Hf.
  destruct (map_res_all (evaluar dat m)
              (hojas_desde dat (hubs dat) [] (Fin 0))) as [es E].
  { intros hc Hhc. destruct (Hall hc Hhc) as (e & He & _). eauto. }
  rewrite E. simpl.
  destruct (tras_hojas_primero es estado_inicial)
    as [[(Hc & Hh & Hr & Hd) _]|(pre & e & post & -> & Hlt & _)].
  - rewrite Hc, Hh, Hr, Hd. reflexivity.
  - exfalso.
    destruct (map_res_In _ _ _ E e) as (hc & Hhc & Ee).
    { apply in_app_iff. right. now left. }
    destruct (Hall hc Hhc) as (e' & Ee' & Hinf).
    rewrite Ee in Ee'. injection Ee' as <-.
    simpl in Hlt. congruence.
Qed.

(** ** A destination out of reach of the depot *)

Lemma matriz_nn_buena (n : nat) (m : matrix) :
  matriz_nn n m -> matriz_buena n m.
Proof. intros H a b Ha Hb. apply nn_buena. now apply H. Qed.

Lemma cadena_cota (n : nat) (m : matrix) (dep : Z) (v : list Z) :
  matriz_nn n m -> triangular n m -> en_rango n dep ->
  (forall x, In x v -> en_rango n x) -> v <> [] ->
  leb (entry m (hd 0 v) dep)
      (add (suma_tramos m v) (entry m (last v 0) dep)) = true.
Proof.
  intros Hnn HT Hdep. induction v as [|a r IH]; intros Hv Hne; [congruence|].
  destruct r as [|b r].
  - cbn [suma_tramos hd last]. rewrite add_0_l.
    apply leb_refl, nn_buena, Hnn; auto. apply Hv. now left.
  - assert (Ha : en_rango n a) by (apply Hv; now left).
    assert (Hb : en_rango n b) by (apply Hv; right; now left).
    assert (Hr : forall x, In x (b :: r) -> en_rango n x)
      by (intros; apply Hv; now right).
    specialize (IH Hr ltac:(discriminate)).
    change (hd 0 (a :: b :: r)) with a.
    change (last (a :: b :: r) 0) with (last (b :: r) 0).
    change (suma_tramos m (a :: b :: r))
      with (add (entry m a b) (suma_tramos m (b :: r))).
    rewrite <- add_assoc.
    eapply leb_trans; [apply (HT a dep b); assumption|].
    assert (Hl : en_rango n (last (b :: r) 0)).
    { apply Hr. apply last_In. discriminate. }
    apply leb_add; auto using nn_buena.
    + apply buena_add.
      * now apply (suma_tramos_buena n); [apply matriz_nn_buena|].
      * apply nn_buena. now apply Hnn.
    + apply leb_refl, nn_buena. now apply Hnn.
Qed.

Lemma tramos_desde_inf (n : nat) (m : matrix) (dep d : Z) (v : list Z) :
  matriz_nn n m -> triangular n m -> en_rango n dep ->
  entry m d dep = PInf ->
  (forall x, In x v -> en_rango n x) -> In d v ->
  add (suma_tramos m v) (entry m (last v 0) dep) = PInf.
Proof.
  intros Hnn HT Hdep Hinf. induction v as [|a r IH]; intros Hv Hd;
    [destruct Hd|].
  destruct Hd as [->|Hd].
  - apply leb_PInf. rewrite <- Hinf.
    apply (cadena_cota n m dep (d :: r)); auto. discriminate.
  - destruct r as [|b r]; [destruct Hd|].
    assert (Hr : forall x, In x (b :: r) -> en_rango n x)
      by (intros; apply Hv; now right).
    change (last (a :: b :: r) 0) with (last (b :: r) 0).
    change (suma_tramos m (a :: b :: r))
      with (add (entry m a b) (suma_tramos m (b :: r))).
    rewrite <- add_assoc, (IH Hr Hd). apply add_PInf_r, nn_buena, Hnn.
    + apply Hv. now left.
    + apply Hv. right. now left.
Qed.

Lemma costo_viaje_inf (n : nat) (m : matrix) (dep d : Z) (v : list Z)
  (p : Z) :
  matriz_nn n m -> triangular n m -> en_rango n dep -> en_rango n p ->
  entry m d dep = PInf ->
  (forall x, In x v -> en_rango n x) -> In d v ->
  costo_viaje m dep v p = PInf.
Proof.
  intros Hnn HT Hdep Hp Hinf Hv Hd. unfold costo_viaje.
  rewrite <- add_assoc, (tramos_desde_inf n m dep d v) by assumption.
  apply add_PInf_r, nn_buena, Hnn; auto.
  apply Hv. destruct v; [destruct Hd|now left].
Qed.

Lemma recorrer_viajes_inf (n : nat) (m : matrix) (dep d : Z)
  (act : list Z) (vs : list (list Z)) :
  dims n m -> matriz_nn n m -> triangular n m -> en_rango n dep ->
  entry m d dep = PInf ->
  (forall h, In h act -> en_rango n h) ->
  (forall v, In v vs -> v <> [] /\ forall x, In x v -> en_rango n x) ->
  (exists v, In v vs /\ In d v) ->
  exists r, recorrer_viajes m dep act vs = Ok (PInf, r).
Proof.
  intros Hd Hnn HT Hdep Hinf Hact Hvs Hex. unfold recorrer_viajes.
  destruct (for_each_prefix
              (fun pre (acc : num * list Z) =>
                 buena (fst acc)
                 /\ ((exists v, In v pre /\ In d v) -> fst acc = PInf))
              (fun acc viaje =>
                 r <- evaluar_viaje m dep act viaje ;;
                 Ok (add (fst acc) (fst r),
                     snd acc ++ [snd r] ++ viaje ++ [dep]))
              vs) with (s := (Fin 0, [dep])) as ([dt r] & E & _ & H).
  - intros pre v post [dt r] Hl [Hb Hpre]. cbn [fst snd] in *.
    destruct (Hvs v) as [Hne Hv].
    { rewrite Hl. apply in_app_iff. right. now left. }
    destruct (evaluar_viaje_spec n m dep act v Hd (matriz_nn_buena n m Hnn)
                Hdep Hact Hv Hne)
      as (best & inicio & pre' & post' & E & Ec & -> & _).
    rewrite E. cbn [bind fst snd]. eexists. split; [reflexivity|].
    assert (Hi : en_rango n inicio).
    { assert (Hin : In inicio ([dep] ++ act)).
      { rewrite Ec. apply in_app_iff. right. now left. }
      destruct Hin as [<-|Hin]; auto. }
    assert (Hbest : buena (costo_viaje m dep v inicio)).
    { apply (costo_viaje_buena n); auto. now apply matriz_nn_buena. }
    cbn [fst]. split; [now apply buena_add|].
    intros (v' & Hv' & Hdv). apply in_app_iff in Hv'.
    destruct Hv' as [Hv'|[<-|[]]].
    + rewrite Hpre by eauto. now apply add_PInf_l.
    + rewrite (costo_viaje_inf n m dep d v inicio) by assumption.
      now apply add_PInf_r.
  - split; [exact I|]. intros (v & [] & _).
  - exists r. rewrite E. cbn [fst] in H. now rewrite H.
Qed.

Lemma hojas_desde_In (dat : datos) (resto act : list Z) (ca : num) :
  forall hc, In hc (hojas_desde dat resto act ca) ->
  forall h, In h (fst hc) -> In h act \/ In h resto.
Proof.
  revert act ca; induction resto as [|x r IH]; intros act ca hc Hhc h Hh.
  - destruct Hhc as [<-|[]]. now left.
  - cbn [hojas_desde] in Hhc. apply in_app_iff in Hhc.
    destruct Hhc as [Hhc|Hhc].
    + destruct (IH _ _ _ Hhc h Hh); [now left|right; now right].
    + destruct (IH _ _ _ Hhc h Hh) as [H|H]; [|right; now right].
      apply in_app_iff in H. destruct H as [H|[<-|[]]]; [now left|].
      right. now left.
Qed.

Lemma dict_set_keys_intro {V : Type} (d : dict Z V) (k k' : Z) (v : V) :
  k = k' \/ In k (dict_keys d) -> In k (dict_keys (dict_set d k' v)).
Proof.
  induction d as [|[k0 v0] d IH]; simpl.
  - intros [->|[]]. now left.
  - destruct (Z.eqb_spec k' k0) as [->|Hk]; simpl.
    + intros [->|[<-|H]]; auto.
    + intros [->|[<-|H]]; auto.
Qed.

Lemma contar_destinos_destino (ps : dict Z paquete) (p : Z * paquete) :
  In p ps -> In (destino (snd p)) (dict_keys (contar_destinos ps)).
Proof.
  unfold contar_destinos. set (k := destino (snd p)).
  assert (G : forall acc,
             In k (dict_keys acc) \/ In p ps ->
             In k (dict_keys
                     (fold_left
                        (fun acc ip =>
                           let d := destino (snd ip) in
                           dict_set acc d (dict_get_default acc d 0 + 1))
                        ps acc))).
  { induction ps as [|q ps IH]; intros acc H; simpl.
    - destruct H as [H|[]]. exact H.
    - apply IH. destruct H as [H|[->|H]]; auto.
      + left. apply dict_set_keys_intro. now right.
      + left. apply dict_set_keys_intro. now left. }
  intros H. apply G. now right.
Qed.

(** * The claims *)

(** C1. On the fixture (nodes 0..3, depot 0, edges 0-1:5, 1-2:5, 2-3:5,
    0-3:9, hub 1 of cost 1, capacity 10, a package for node 2 and one for
    node 3) the leaf without hubs costs 24 and the leaf with hub 1 costs
    19 + 1 = 20; the solver selects hub 1 alone with total cost 20,
    distance 19 and hub cost 1. *)
Theorem caso_hub_elige_hub_1 (fuel : nat) :
  floyd_warshall (d_aristas caso_hub) (num_nodos (d_configuracion caso_hub))
  = Ok matriz_hub
  /\ evaluar_hoja caso_hub matriz_hub [] (Fin 0)
     = Ok {| ev_hubs := []; ev_viajes := [[2; 3]];
             ev_ruta := [0; 0; 2; 3; 0];
             ev_distancia := Fin 24; ev_costo := Fin 24 |}
  /\ evaluar_hoja caso_hub matriz_hub [1] (Fin 1)
     = Ok {| ev_hubs := [1]; ev_viajes := [[2; 3]];
             ev_ruta := [0; 1; 2; 3; 0];
             ev_distancia := Fin 19; ev_costo := Fin 20 |}
  /\ resolver (S fuel) caso_hub
     = Ok ([0; 1; 2; 3; 0], [1], Fin 20, Fin 19, Fin 1).
Proof.
  split; [vm_compute; reflexivity|].
  split; [vm_compute; reflexivity|].
  split; [vm_compute; reflexivity|].
  unfold resolver.
  replace (floyd_warshall _ _) with (Ok matriz_hub)
    by (vm_compute; reflexivity).
  simpl bind. unfold calcular_mejor_camino.
  rewrite buscar_spec by (simpl; lia).
  vm_compute. reflexivity.
Qed.




(** C3, at the failing input: two packages for node 2 and capacity 1.
    The first destination already exceeds the capacity, the grouping
    closes the still empty current trip, and the first trip produced is
    empty; reading its first destination then raises [IndexError]. *)
Theorem primer_destino_sobrecargado (fuel : nat) :
  paquetes_por_destino caso_sobrecarga = [(2, 2)]
  /\ agrupar_viajes (paquetes_por_destino caso_sobrecarga)
       (capacidad caso_sobrecarga) = Ok [[]; [2]]
  /\ resolver fuel caso_sobrecarga = Lanza IndexError.
Proof.
  split; [reflexivity|]. split; [reflexivity|].
  destruct fuel; vm_compute; reflexivity.
Qed.

(** C4. The trips do not depend on the hub choice: the search that groups
    the destinations once, before the first call, and hands every leaf
    those trips is the search of the program, which groups them again at
    every leaf; grouping always returns, and the trips of every leaf
    evaluated are the trips grouped up front. *)
Theorem viajes_independientes_de_hubs (dat : datos) (m : matrix)
  (fuel : nat) :
  buscar_con_viajes dat m fuel = buscar dat m fuel
  /\ exists vs,
       agrupar_viajes (paquetes_por_destino dat) (capacidad dat) = Ok vs
       /\ forall st, buscar dat m fuel = Ok st ->
                     Forall (fun e => ev_viajes e = vs) (traza st).
Proof.
  destruct (agrupar_viajes_ok (paquetes_por_destino dat) (capacidad dat))
    as [vs Hvs].
  split.
  - unfold buscar_con_viajes, buscar. rewrite Hvs. simpl.
    now apply probar_con_viajes_eq.
  - exists vs. split; [exact Hvs|]. intros st H.
    apply probar_eventos in H. destruct H as (es & -> & F).
    rewrite tras_hojas_traza. simpl.
    eapply Forall_impl; [|exact F]. intros e (a & c & E).
    apply evaluar_hoja_inv in E. destruct E as (_ & E & _). congruence.
Qed.



(** C6. The best result is replaced only by a leaf strictly cheaper than
    the stored cost.  When the search returns, its leaves were visited
    in the order of [subconjuntos] (a hub left out before it is taken),
    the final record is the fold of those updates over the leaves, the
    stored cost after a longer prefix of the leaves is equal to or
    strictly below the one after a shorter prefix, and the record kept is
    either the initial one (no leaf below +inf) or that of the first leaf
    whose cost no leaf undercuts. *)
Theorem mejor_solo_mejora (dat : datos) (m : matrix) (fuel : nat)
  (st' : estado) :
  (length (hubs dat) <= fuel)%nat ->
  buscar dat m fuel = Ok st' ->
  (forall e st, ltb (ev_costo e) (mejor_costo st) = false ->
                sin_cambio st (actualizar e st))
  /\ map ev_hubs (traza st') = subconjuntos (hubs dat)
  /\ st' = tras_hojas (traza st') estado_inicial
  /\ (forall pre post, traza st' = pre ++ post ->
        let antes := mejor_costo (tras_hojas pre estado_inicial) in
        let despues := mejor_costo (tras_hojas (pre ++ post) estado_inicial) in
        despues = antes \/ ltb despues antes = true)
  /\ ((sin_cambio estado_inicial st'
       /\ forall e, In e (traza st') -> ltb (ev_costo e) PInf = false)
      \/ exists pre e post,
           traza st' = pre ++ e :: post
           /\ elegido e st'
           /\ (forall e', In e' pre -> ev_costo e' <> ev_costo e)
           /\ (forall e', In e' (traza st') ->
                          ltb (ev_costo e') (ev_costo e) = false)).
Proof.
  intros Hf H. rewrite buscar_spec in H by exact Hf.
  destruct (map_res _ _) as [es| |] eqn:E; simpl in H; try discriminate.
  injection H as <-. rewrite tras_hojas_traza. simpl.
  split; [exact actualizar_no_menor|].
  split.
  { rewrite (evaluar_hubs _ _ _ _ E), hojas_desde_hubs.
    simpl. apply map_id. }
  split; [reflexivity|].
  split.
  { intros pre post _. simpl. rewrite tras_hojas_app.
    apply tras_hojas_no_empeora. }
  destruct (tras_hojas_primero es estado_inicial)
    as [?|(pre & e & post & ? & ? & ? & ? & ?)]; [now left|].
  right. exists pre, e, post. auto.
Qed.

(** C6 at [caso_hub]. *)
Lemma mejor_solo_mejora_witness :
  exists st,
    buscar caso_hub matriz_hub 1 = Ok st
    /\ map ev_hubs (traza st) = [[]; [1]]
    /\ st = tras_hojas (traza st) estado_inicial.
Proof.
  destruct (buscar caso_hub matriz_hub 1) as [st| |] eqn:E;
    try (vm_compute in E; discriminate).
  exists st. split; [reflexivity|].
  destruct (mejor_solo_mejora caso_hub matriz_hub 1 st) as (_ & H1 & H2 & _).
  - simpl. lia.
  - exact E.
  - auto.
Defined.

(** On a tie the leaf found first is kept: with a hub of cost 5 both
    leaves cost 24 and the route without the hub is returned. *)
Example caso_empate_sin_hub :
  resolver 1 caso_empate = Ok ([0; 0; 2; 3; 0], [], Fin 24, Fin 24, Fin 0).
Proof. vm_compute. reflexivity. Qed.

(** C7 as amended. With no package and hub costs that are not negative,
    the solver returns the distance 0 and the cost 0, selects no hub, and
    the route is the depot alone, [[deposito]]. *)
Theorem sin_paquetes_ruta_deposito (dat : datos) (m : matrix) (fuel : nat) :
  d_paquetes dat = [] ->
  (forall h c, In (h, c) (d_hubs dat) -> nn c) ->
  (length (hubs dat) <= fuel)%nat ->
  calcular_mejor_camino dat m fuel
  = Ok ([deposito dat], [], Fin 0, Fin 0, Fin 0).
Proof.
  intros Hp Hnn Hf. unfold calcular_mejor_camino.
  rewrite buscar_spec by exact Hf.
  set (ev := fun hc : list Z * num =>
               {| ev_hubs := fst hc; ev_viajes := [];
                  ev_ruta := [deposito dat]; ev_distancia := Fin 0;
                  ev_costo := add (Fin 0) (snd hc) |}).
  rewrite (map_res_map _ ev).
  2:{ intros hc _. unfold evaluar, evaluar_hoja, paquetes_por_destino.
      rewrite Hp. reflexivity. }
  simpl bind.
  destruct (hojas_desde_primera dat (hubs dat) [] (Fin 0)) as [l El].
  assert (Hl : forall hc, In hc l -> nn (snd hc)).
  { intros hc Hhc.
    apply (hojas_desde_nn dat (hubs dat) [] (Fin 0)).
    - intros h Hh. now apply costo_de_nn.
    - simpl. lia.
    - rewrite El. now right. }
  rewrite El. cbn [map tras_hojas fold_left].
  change (fold_left (fun s e => actualizar e s) (map ev l)
            (actualizar (ev ([], Fin 0)) estado_inicial))
    with (tras_hojas (map ev l) (actualizar (ev ([], Fin 0)) estado_inicial)).
  destruct (tras_hojas_primero (map ev l)
              (actualizar (ev ([], Fin 0)) estado_inicial))
    as [[(Hc & Hh & Hr & Hd) _]|(pre & e & post & Epre & Hlt & _)].
  - rewrite Hc, Hh, Hr, Hd. reflexivity.
  - exfalso.
    assert (He : In e (map ev l)).
    { rewrite Epre. apply in_app_iff. right. now left. }
    apply in_map_iff in He. destruct He as (hc & <- & Hhc).
    apply Hl in Hhc. simpl in Hlt.
    destruct (snd hc); simpl in *; try discriminate; try tauto.
    apply Z.ltb_lt in Hlt. lia.
Qed.

(** C7, counterexample: without packages the route returned is [[0]],
    not [[0; 0]]. *)
Lemma sin_paquetes_ruta_no_doble :
  resolver 1 caso_sin_paquetes = Ok ([0], [], Fin 0, Fin 0, Fin 0)
  /\ resolver 1 caso_sin_paquetes <> Ok ([0; 0], [], Fin 0, Fin 0, Fin 0).
Proof.
  assert (E : resolver 1 caso_sin_paquetes
              = Ok ([0], [], Fin 0, Fin 0, Fin 0))
    by (vm_compute; reflexivity).
  split; [exact E|]. rewrite E. discriminate.
Qed.

(** C7 as amended, at [caso_sin_paquetes]. *)
Lemma sin_paquetes_ruta_deposito_witness :
  calcular_mejor_camino caso_sin_paquetes matriz_hub 1
  = Ok ([0], [], Fin 0, Fin 0, Fin 0).
Proof.
  apply (sin_paquetes_ruta_deposito caso_sin_paquetes matriz_hub 1).
  - reflexivity.
  - simpl. intros h c [E|[]]. injection E as _ <-. simpl. lia.
  - simpl. lia.
Defined.





(** C10. When every hub subset evaluates to a total cost of +inf, the
    best-result record is never updated: the solver returns the cost
    +inf with an empty route, an empty hub list, the distance 0 and a hub
    cost of +inf. *)
Theorem todo_infinito_sin_ruta (dat : datos) (m : matrix) (fuel : nat) :
  (length (hubs dat) <= fuel)%nat ->
  (forall hc, In hc (hojas_desde dat (hubs dat) [] (Fin 0)) ->
              exists e, evaluar dat m hc = Ok e /\ ev_costo e = PInf) ->
  calcular_mejor_camino dat m fuel = Ok ([], [], PInf, Fin 0, PInf).
Proof.
  intros Hf Hall. apply calcular_sin_mejora; [exact Hf|].
  intros hc Hhc. destruct (Hall hc Hhc) as (e & He & Hinf).
  exists e. split; [exact He|]. now rewrite Hinf.
Qed.

(** C10 at [caso_aislado]: both leaves cost +inf. *)
Lemma todo_infinito_sin_ruta_witness :
  calcular_mejor_camino caso_aislado matriz_aislada 1
  = Ok ([], [], PInf, Fin 0, PInf).
Proof.
  apply (todo_infinito_sin_ruta caso_aislado matriz_aislada 1).
  - simpl. lia.
  - simpl. intros hc [<-|[<-|[]]]; eexists; split;
      try (vm_compute; reflexivity); reflexivity.
Defined.

(** * Further properties *)

(** ** The demand of each destination *)

Lemma dict_get_set {V : Type} (d : dict Z V) (k k' : Z) (v : V) :
  dict_get (dict_set d k v) k' = if k' =? k then Some v else dict_get d k'.
Proof.
  induction d as [|[k0 v0] d IH]; simpl.
  - reflexivity.
  - destruct (Z.eqb_spec k k0) as [->|Hk]; simpl.
    + destruct (k' =? k0); reflexivity.
    + rewrite IH. destruct (Z.eqb_spec k' k0) as [->|Hk'];
        [|reflexivity].
      destruct (Z.eqb_spec k0 k); [congruence|reflexivity].
Qed.

Lemma dict_keys_set {V : Type} (d : dict Z V) (k : Z) (v : V) :
  dict_keys (dict_set d k v)
  = if existsb (Z.eqb k) (dict_keys d) then dict_keys d
    else dict_keys d ++ [k].
Proof.
  induction d as [|[k0 v0] d IH]; simpl; [reflexivity|].
  destruct (Z.eqb_spec k k0) as [->|Hk]; simpl; [reflexivity|].
  rewrite IH. destruct (existsb (Z.eqb k) (dict_keys d)); reflexivity.
Qed.

Lemma cuenta_cons (p : Z * paquete) (ps : dict Z paquete) (d : Z) :
  cuenta (p :: ps) d
  = if destino (snd p) =? d then cuenta ps d + 1 else cuenta ps d.
Proof.
  unfold cuenta. simpl. destruct (destino (snd p) =? d); [|reflexivity].
  simpl length. lia.
Qed.

Lemma cuenta_no_negativa (ps : dict Z paquete) (d : Z) : 0 <= cuenta ps d.
Proof. unfold cuenta. lia. Qed.

Lemma contar_desde (ps : dict Z paquete) :
  forall acc d,
    dict_get
      (fold_left (fun acc ip =>
                    let d := destino (snd ip) in
                    dict_set acc d (dict_get_default acc d 0 + 1))
                 ps acc) d
    = if cuenta ps d =? 0 then dict_get acc d
      else Some (dict_get_default acc d 0 + cuenta ps d).
Proof.
  induction ps as [|p ps IH]; intros acc d.
  - reflexivity.
  - cbn [fold_left]. rewrite IH, cuenta_cons.
    assert (H0 := cuenta_no_negativa ps d).
    unfold dict_get_default. rewrite dict_get_set.
    destruct (Z.eqb_spec d (destino (snd p))) as [->|Hd].
    + rewrite Z.eqb_refl.
      destruct (Z.eqb_spec (cuenta ps (destino (snd p))) 0) as [E|E];
        destruct (Z.eqb_spec (cuenta ps (destino (snd p)) + 1) 0);
        try lia; f_equal; lia.
    + destruct (Z.eqb_spec (destino (snd p)) d); [congruence|].
      reflexivity.
Qed.

Lemma filter_filter {A : Type} (p q : A -> bool) (l : list A) :
  filter p (filter q l) = filter (fun x => q x && p x) l.
Proof.
  induction l as [|x l IH]; simpl; [reflexivity|].
  destruct (q x); simpl; [destruct (p x)|]; now rewrite IH.
Qed.

Lemma filter_igual {A : Type} (p q : A -> bool) (l : list A) :
  (forall x, p x = q x) -> filter p l = filter q l.
Proof.
  intros H. induction l as [|x l IH]; simpl; [reflexivity|].
  now rewrite H, IH.
Qed.

Lemma contar_keys_desde (ps : dict Z paquete) :
  forall acc,
    dict_keys
      (fold_left (fun acc ip =>
                    let d := destino (snd ip) in
                    dict_set acc d (dict_get_default acc d 0 + 1))
                 ps acc)
    = dict_keys acc
      ++ filter (fun y => negb (existsb (Z.eqb y) (dict_keys acc)))
           (sin_repetidos (map (fun ip => destino (snd ip)) ps)).
Proof.
  induction ps as [|p ps IH]; intros acc.
  - simpl. now rewrite app_nil_r.
  - cbn [fold_left map sin_repetidos filter]. rewrite IH, dict_keys_set.
    set (dp := destino (snd p)). set (K := dict_keys acc).
    set (X := sin_repetidos (map (fun ip => destino (snd ip)) ps)).
    destruct (existsb (Z.eqb dp) K) eqn:E; cbn [negb].
    + f_equal. rewrite filter_filter. apply filter_igual. intros y.
      destruct (Z.eqb_spec y dp) as [->|Hy]; [|reflexivity].
      now rewrite E.
    + rewrite <- app_assoc. cbn [app]. do 2 f_equal.
      rewrite filter_filter. apply filter_igual. intros y.
      rewrite existsb_app. cbn [existsb]. rewrite orb_false_r, negb_orb.
      apply andb_comm.
Qed.

Lemma sin_repetidos_In (l : list Z) (x : Z) :
  In x (sin_repetidos l) <-> In x l.
Proof.
  induction l as [|a l IH]; simpl; [tauto|].
  rewrite filter_In, IH. split.
  - intros [H|[H _]]; auto.
  - intros [H|H]; auto.
    destruct (Z.eq_dec a x) as [E|E]; auto.
    right. split; [exact H|]. apply negb_true_iff. apply Z.eqb_neq. congruence.
Qed.

Lemma sin_repetidos_NoDup (l : list Z) : NoDup (sin_repetidos l).
Proof.
  induction l as [|a l IH]; simpl; constructor.
  - rewrite filter_In. intros [_ H].
    now rewrite Z.eqb_refl in H.
  - now apply NoDup_filter.
Qed.

Lemma filter_todos {A : Type} (l : list A) : filter (fun _ => true) l = l.
Proof. induction l as [|x l IH]; simpl; [reflexivity|now rewrite IH]. Qed.

Lemma contar_destinos_orden (ps : dict Z paquete) :
  dict_keys (contar_destinos ps)
  = sin_repetidos (map (fun ip => destino (snd ip)) ps).
Proof.
  unfold contar_destinos. rewrite contar_keys_desde. simpl.
  apply filter_todos.
Qed.

(** X1. [paquetes_por_destino] holds, for every destination, the number
    of packages bound for it and nothing for the other nodes; its keys
    are the destinations in the order of their first package, each
    once. *)
Theorem paquetes_por_destino_cuenta (ps : dict Z paquete) :
  (forall d, dict_get (contar_destinos ps) d
             = if cuenta ps d =? 0 then None else Some (cuenta ps d))
  /\ dict_keys (contar_destinos ps)
     = sin_repetidos (map (fun ip => destino (snd ip)) ps)
  /\ NoDup (dict_keys (contar_destinos ps))
  /\ (forall d, In d (dict_keys (contar_destinos ps))
                <-> exists ip, In ip ps /\ destino (snd ip) = d).
Proof.
  split; [|split; [|split]].
  - intros d. unfold contar_destinos. rewrite contar_desde. simpl.
    reflexivity.
  - apply contar_destinos_orden.
  - rewrite contar_destinos_orden. apply sin_repetidos_NoDup.
  - intros d. rewrite contar_destinos_orden, sin_repetidos_In, in_map_iff.
    split; intros (ip & H1 & H2); exists ip; auto.
Qed.

(** ** The trips of the grouping *)

Lemma demanda_app (ppd : dict Z Z) (a b : list Z) :
  demanda ppd (a ++ b) = demanda ppd a + demanda ppd b.
Proof.
  unfold demanda. induction a as [|x a IH]; simpl; [reflexivity|].
  rewrite IH. lia.
Qed.

Lemma dict_getitem_default (ppd : dict Z Z) (x c : Z) :
  dict_getitem ppd x = Ok c -> dict_get_default ppd x 0 = c.
Proof.
  unfold dict_getitem, dict_get_default.
  destruct (dict_get ppd x); intros H; [now injection H|discriminate].
Qed.

(** Every trip has one destination at most or a load within the
    capacity. *)
Lemma agrupar_viajes_carga (ppd : dict Z Z) (cap : Z) :
  exists vs,
    agrupar_viajes ppd cap = Ok vs
    /\ forall v, In v vs -> (length v <= 1)%nat \/ demanda ppd v <= cap.
Proof.
  unfold agrupar_viajes.
  destruct (for_each_prefix
              (fun (_ : list Z) a =>
                 carga_actual a = demanda ppd (viaje_actual a)
                 /\ ((length (viaje_actual a) <= 1)%nat
                     \/ carga_actual a <= cap)
                 /\ forall v, In v (viajes a) ->
                      (length v <= 1)%nat \/ demanda ppd v <= cap)
              (agrupar_destino ppd cap) (dict_keys ppd))
    with (s := {| viajes := []; viaje_actual := []; carga_actual := 0 |})
    as (a & E & Hc & Hva & Hvs).
  - intros pre x post a Hl (Hc & Hva & Hvs).
    unfold agrupar_destino.
    destruct (dict_getitem_keys ppd x) as [cant Ecant].
    { rewrite Hl. apply in_app_iff. right. now left. }
    rewrite Ecant. cbn [bind]. eexists. split; [reflexivity|].
    apply dict_getitem_default in Ecant.
    destruct (carga_actual a + cant >? cap) eqn:Ecap;
      cbn [viajes viaje_actual carga_actual].
    + split; [|split].
      * unfold demanda. simpl. rewrite Ecant. lia.
      * left. simpl. lia.
      * intros v Hv. apply in_app_iff in Hv.
        destruct Hv as [Hv|[<-|[]]]; [now apply Hvs|].
        destruct Hva as [Hva|Hva]; [now left|right; lia].
    + assert (Hle : carga_actual a + cant <= cap).
      { destruct (Z.gtb_spec (carga_actual a + cant) cap);
          [discriminate|assumption]. }
      split; [|split; [|exact Hvs]].
      * rewrite demanda_app, <- Hc. unfold demanda. simpl. rewrite Ecant. lia.
      * now right.
  - split; [reflexivity|]. split; [left; simpl; lia|]. intros v [].
  - rewrite E. cbn [bind]. eexists. split; [reflexivity|].
    destruct (viaje_actual a) as [|y va] eqn:Eva; [exact Hvs|].
    intros v Hv. apply in_app_iff in Hv.
    destruct Hv as [Hv|[<-|[]]]; [now apply Hvs|].
    destruct Hva as [Hva|Hva]; [now left|right; lia].
Qed.

(** The first trip alone can be empty, and it is when the first
    destination does not fit. *)
Lemma agrupar_viajes_vacio (ppd : dict Z Z) (cap : Z) :
  ~ primer_destino_cabe ppd cap ->
  exists vs,
    agrupar_viajes ppd cap = Ok ([] :: vs)
    /\ forall v, In v vs -> v <> [].
Proof.
  intros Hno. unfold agrupar_viajes.
  destruct (for_each_prefix
              (fun pre a =>
                 (pre = [] -> viajes a = [] /\ viaje_actual a = []
                              /\ carga_actual a = 0)
                 /\ (pre <> [] ->
                     viaje_actual a <> []
                     /\ exists vs, viajes a = [] :: vs
                                   /\ forall v, In v vs -> v <> []))
              (agrupar_destino ppd cap) (dict_keys ppd))
    with (s := {| viajes := []; viaje_actual := []; carga_actual := 0 |})
    as (a & E & H0 & H1).
  - intros pre x post a Hl (H0 & H1).
    unfold agrupar_destino.
    destruct (dict_getitem_keys ppd x) as [cant Ecant].
    { rewrite Hl. apply in_app_iff. right. now left. }
    rewrite Ecant. cbn [bind]. eexists. split; [reflexivity|].
    split; [intros H; now apply snoc_no_nil in H|]. intros _.
    destruct pre as [|y pre].
    + destruct (H0 eq_refl) as (Ev & Eva & Ec).
      destruct ppd as [|[k c] ppd']; [exfalso; apply Hno; exact I|].
      simpl in Hl. injection Hl as <- _.
      unfold dict_getitem in Ecant. simpl in Ecant.
      rewrite Z.eqb_refl in Ecant. injection Ecant as <-.
      simpl in Hno. rewrite Ec.
      destruct (Z.gtb_spec (0 + c) cap) as [_|Hle]; [|exfalso; lia].
      cbn [viajes viaje_actual]. split; [discriminate|].
      exists []. rewrite Ev, Eva. split; [reflexivity|]. intros v [].
    + destruct H1 as (Hva & vs & Ev & Hvs); [discriminate|].
      destruct (carga_actual a + cant >? cap); cbn [viajes viaje_actual].
      * split; [discriminate|]. exists (vs ++ [viaje_actual a]).
        rewrite Ev. split; [reflexivity|].
        intros v Hv. apply in_app_iff in Hv.
        destruct Hv as [Hv|[<-|[]]]; auto.
      * split; [apply snoc_no_nil|]. exists vs. auto.
  - split; [auto|]. intros H. congruence.
  - rewrite E. cbn [bind].
    destruct ppd as [|[k c] ppd']; [exfalso; apply Hno; exact I|].
    destruct H1 as (Hva & vs & Ev & Hvs); [discriminate|].
    destruct (viaje_actual a) as [|y va] eqn:Eva; [congruence|].
    exists (vs ++ [y :: va]). rewrite Ev. split; [reflexivity|].
    intros v Hv. apply in_app_iff in Hv.
    destruct Hv as [Hv|[<-|[]]]; [auto|discriminate].
Qed.

Lemma demanda_cota (ppd : dict Z Z) (v : list Z) (d : Z) :
  (forall k c, In (k, c) ppd -> 0 <= c) -> In d v ->
  dict_get_default ppd d 0 <= demanda ppd v
  /\ (v <> [d] -> (2 <= length v)%nat).
Proof.
  intros Hnn.
  assert (H0 : forall x, 0 <= dict_get_default ppd x 0).
  { intros x. unfold dict_get_default.
    destruct (dict_get ppd x) eqn:E; [|lia].
    apply dict_get_In in E. now apply Hnn in E. }
  assert (Hd : forall l, 0 <= demanda ppd l).
  { induction l as [|x l IH]; unfold demanda in *; simpl; [lia|].
    specialize (H0 x). lia. }
  intros Hin. split.
  - induction v as [|x v IH]; [destruct Hin|].
    unfold demanda in *. simpl. destruct Hin as [->|Hin].
    + specialize (Hd v). unfold demanda in Hd. lia.
    + specialize (IH Hin). specialize (H0 x). lia.
  - intros Hne. destruct v as [|x [|y v]]; simpl; try lia.
    + destruct Hin.
    + destruct Hin as [->|[]]. congruence.
Qed.

(** X2. Grouping the destinations of a case always returns, and the
    trips, one after the other, are the destinations in the order of
    their first package: every destination is in one trip, once. *)
Theorem viajes_cubren_destinos (dat : datos) :
  exists vs,
    agrupar_viajes (paquetes_por_destino dat) (capacidad dat) = Ok vs
    /\ concat vs
       = sin_repetidos (map (fun ip => destino (snd ip)) (d_paquetes dat))
    /\ NoDup (concat vs)
    /\ (forall ip, In ip (d_paquetes dat) ->
          exists v, In v vs /\ In (destino (snd ip)) v).
Proof.
  destruct (agrupar_viajes_spec (paquetes_por_destino dat) (capacidad dat))
    as (vs & E & Hc & _).
  exists vs. split; [exact E|].
  unfold paquetes_por_destino in Hc. rewrite contar_destinos_orden in Hc.
  split; [exact Hc|]. split.
  - rewrite Hc. apply sin_repetidos_NoDup.
  - intros ip Hip. apply in_concat. rewrite Hc. apply sin_repetidos_In.
    apply in_map_iff. eauto.
Qed.

(** X3. Every trip of the grouping has at most one destination or a
    total demand within the capacity. *)
Theorem viajes_dentro_de_capacidad (ppd : dict Z Z) (cap : Z) :
  exists vs,
    agrupar_viajes ppd cap = Ok vs
    /\ forall v, In v vs -> (length v <= 1)%nat \/ demanda ppd v <= cap.
Proof. apply agrupar_viajes_carga. Qed.

(** X4. The grouping produces an empty trip exactly when the demand of
    the first destination exceeds the capacity: then the first trip, and
    no other, is empty; otherwise no trip is. *)
Theorem viaje_vacio_solo_primero (ppd : dict Z Z) (cap : Z) :
  exists vs,
    agrupar_viajes ppd cap = Ok vs
    /\ (primer_destino_cabe ppd cap -> forall v, In v vs -> v <> [])
    /\ (~ primer_destino_cabe ppd cap ->
        exists vs', vs = [] :: vs' /\ forall v, In v vs' -> v <> []).
Proof.
  destruct (agrupar_viajes_spec ppd cap) as (vs & E & _ & Hne).
  exists vs. split; [exact E|]. split; [exact Hne|].
  intros Hno. destruct (agrupar_viajes_vacio ppd cap Hno) as (vs' & E' & H).
  rewrite E in E'. injection E' as ->. eauto.
Qed.

(** X5. With demands that are not negative, a destination whose demand
    alone exceeds the capacity is the only destination of its trip. *)
Theorem destino_sobrecargado_solo (ppd : dict Z Z) (cap : Z)
  (vs : list (list Z)) :
  (forall k c, In (k, c) ppd -> 0 <= c) ->
  agrupar_viajes ppd cap = Ok vs ->
  forall v d, In v vs -> In d v -> dict_get_default ppd d 0 > cap ->
              v = [d].
Proof.
  intros Hnn E v d Hv Hd Hover.
  destruct (agrupar_viajes_carga ppd cap) as (vs' & E' & H).
  rewrite E in E'. injection E' as <-.
  destruct (demanda_cota ppd v d Hnn Hd) as [Hle Hlen].
  destruct (list_eq_dec Z.eq_dec v [d]) as [|Hne]; [assumption|].
  exfalso. specialize (Hlen Hne).
  destruct (H v Hv) as [Hl|Hl]; lia.
Qed.

(** X5 at demands 3, 12, 4 and capacity 10: node 2 travels alone. *)
Lemma destino_sobrecargado_solo_witness :
  agrupar_viajes [(1, 3); (2, 12); (3, 4)] 10 = Ok [[1]; [2]; [3]]
  /\ forall v d, In v [[1]; [2]; [3]] -> In d v ->
       dict_get_default [(1, 3); (2, 12); (3, 4)] d 0 > 10 -> v = [d].
Proof.
  split; [reflexivity|].
  apply (destino_sobrecargado_solo [(1, 3); (2, 12); (3, 4)] 10).
  - intros k c H. simpl in H.
    destruct H as [H|[H|[H|[]]]]; injection H as _ <-; lia.
  - reflexivity.
Defined.

(** ** The route and the distance of a leaf *)

Lemma evaluar_viaje_inicio (m : matrix) (dep : Z) (viaje cands : list Z) :
  forall b0 i0 b i,
    for_each (probar_inicio m dep viaje) cands (b0, i0) = Ok (b, i) ->
    i = i0 \/ In i cands.
Proof.
  induction cands as [|c cs IH]; intros b0 i0 b i H.
  - injection H as _ <-. now left.
  - cbn [for_each] in H. unfold probar_inicio at 1 in H.
    destruct (distancia_desde m dep viaje c) as [dv| |]; simpl in H;
      try discriminate.
    destruct (ltb dv b0).
    + apply IH in H. destruct H as [->|H]; right; [now left|now right].
    + apply IH in H. destruct H as [->|H]; [now left|right; now right].
Qed.

Lemma recorrer_viajes_desde (m : matrix) (dep : Z) (act : list Z)
  (vs : list (list Z)) :
  forall acc d r,
    for_each (fun acc viaje =>
                x <- evaluar_viaje m dep act viaje ;;
                Ok (add (fst acc) (fst x),
                    snd acc ++ [snd x] ++ viaje ++ [dep]))
             vs acc = Ok (d, r) ->
    exists inicios,
      length inicios = length vs
      /\ Forall (fun i => In i (dep :: act)) inicios
      /\ r = snd acc
             ++ concat (map (fun iv => fst iv :: snd iv ++ [dep])
                            (combine inicios vs)).
Proof.
  induction vs as [|v vs IH]; intros acc d r H.
  - injection H as ->. exists []. simpl. rewrite app_nil_r. auto.
  - cbn [for_each] in H.
    destruct (evaluar_viaje m dep act v) as [[b i]| |] eqn:Ev;
      simpl in H; try discriminate.
    apply IH in H. destruct H as (inicios & Hlen & Hall & ->).
    exists (i :: inicios). split; [simpl; lia|]. split.
    + constructor; [|exact Hall].
      unfold evaluar_viaje in Ev. apply evaluar_viaje_inicio in Ev.
      destruct Ev as [->|Ev]; [now left|exact Ev].
    + simpl. rewrite <- app_assoc. reflexivity.
Qed.

(** The route of a leaf. *)
Lemma recorrer_viajes_ruta (m : matrix) (dep : Z) (act : list Z)
  (vs : list (list Z)) (d : num) (r : list Z) :
  recorrer_viajes m dep act vs = Ok (d, r) ->
  exists inicios,
    length inicios = length vs
    /\ Forall (fun i => In i (dep :: act)) inicios
    /\ r = ruta_de dep inicios vs.
Proof.
  intros H. apply recorrer_viajes_desde in H.
  destruct H as (inicios & Hlen & Hall & ->). exists inicios. auto.
Qed.

Lemma ruta_de_destinos (dep : Z) (vs : list (list Z)) :
  forall inicios v x,
    length inicios = length vs -> In v vs -> In x v ->
    In x (ruta_de dep inicios vs).
Proof.
  unfold ruta_de. induction vs as [|v0 vs IH]; intros inicios v x Hlen Hv Hx.
  - destruct Hv.
  - destruct inicios as [|i inicios]; [discriminate|].
    simpl in Hlen. injection Hlen as Hlen. right. cbn [combine map concat].
    cbn [fst snd]. destruct Hv as [->|Hv].
    + right. apply in_app_iff. left. apply in_app_iff. now left.
    + specialize (IH inicios v x Hlen Hv Hx). destruct IH as [IH|IH].
      * subst x. right. apply in_app_iff. left. apply in_app_iff.
        right. now left.
      * right. apply in_app_iff. now right.
Qed.

Lemma ruta_de_ultimo (dep : Z) (vs : list (list Z)) (inicios : list Z) :
  last (ruta_de dep inicios vs) 0 = dep.
Proof.
  unfold ruta_de. rewrite last_cons.
  revert inicios. induction vs as [|v vs IH]; intros inicios.
  - destruct inicios; reflexivity.
  - destruct inicios as [|i inicios]; [reflexivity|].
    cbn [combine map concat fst snd].
    rewrite last_app_cons.
    replace (last (i :: v ++ [dep]) dep) with dep; [apply IH|].
    rewrite last_cons. symmetry. apply last_last.
Qed.

Lemma sublista_nil_l (l : list Z) : sublista [] l.
Proof. induction l; constructor; auto. Qed.

Lemma hojas_desde_acumulado (dat : datos) (resto : list Z) :
  forall act ca,
    ca = costo_acumulado dat act ->
    forall hc, In hc (hojas_desde dat resto act ca) ->
               snd hc = costo_acumulado dat (fst hc).
Proof.
  induction resto as [|h r IH]; intros act ca Hca hc Hhc.
  - destruct Hhc as [<-|[]]. exact Hca.
  - cbn [hojas_desde] in Hhc. apply in_app_iff in Hhc.
    destruct Hhc as [Hhc|Hhc]; [now apply (IH act ca)|].
    apply (IH (act ++ [h]) (add ca (costo_de dat h))); [|exact Hhc].
    unfold costo_acumulado. rewrite fold_left_app. simpl.
    now rewrite Hca.
Qed.

Lemma hojas_desde_subconjunto (dat : datos) (hc : list Z * num) :
  In hc (hojas_desde dat (hubs dat) [] (Fin 0)) ->
  sublista (fst hc) (hubs dat) /\ snd hc = costo_acumulado dat (fst hc).
Proof.
  intros H. split.
  - apply subconjuntos_sublista.
    assert (Hm : In (fst hc) (map fst (hojas_desde dat (hubs dat) []
                                         (Fin 0)))) by now apply in_map.
    rewrite hojas_desde_hubs in Hm. simpl in Hm. now rewrite map_id in Hm.
  - now apply (hojas_desde_acumulado dat (hubs dat) [] (Fin 0)).
Qed.

Lemma subconjunto_hoja (dat : datos) (s : list Z) :
  sublista s (hubs dat) ->
  In (s, costo_acumulado dat s) (hojas_desde dat (hubs dat) [] (Fin 0)).
Proof.
  intros H. apply subconjuntos_sublista in H.
  assert (Hm : In s (map fst (hojas_desde dat (hubs dat) [] (Fin 0)))).
  { rewrite hojas_desde_hubs. simpl. now rewrite map_id. }
  apply in_map_iff in Hm. destruct Hm as ([s' c] & Es & Hin).
  simpl in Es. subst s'.
  destruct (hojas_desde_subconjunto dat _ Hin) as [_ Ec]. simpl in Ec.
  now rewrite <- Ec.
Qed.

Lemma map_res_cada {A B : Type} (f : A -> resultado B) (l : list A)
  (bs : list B) :
  map_res f l = Ok bs ->
  forall a, In a l -> exists b, In b bs /\ f a = Ok b.
Proof.
  revert bs; induction l as [|x l IH]; simpl; intros bs H a Ha.
  - destruct Ha.
  - destruct (f x) as [b0| |] eqn:E; simpl in H; try discriminate.
    destruct (map_res f l) as [bs'| |]; simpl in H; try discriminate.
    injection H as <-. destruct Ha as [<-|Ha].
    + exists b0. split; [now left|exact E].
    + destruct (IH _ eq_refl a Ha) as (b & Hb & Eb).
      exists b. split; [now right|exact Eb].
Qed.

Lemma viajes_contienen_destino (dat : datos) (vs : list (list Z)) :
  agrupar_viajes (paquetes_por_destino dat) (capacidad dat) = Ok vs ->
  forall ip, In ip (d_paquetes dat) ->
             exists v, In v vs /\ In (destino (snd ip)) v.
Proof.
  intros E ip Hip.
  destruct (agrupar_viajes_spec (paquetes_por_destino dat) (capacidad dat))
    as (vs' & E' & Hc & _).
  rewrite E in E'. injection E' as <-.
  apply in_concat. rewrite Hc. now apply contar_destinos_destino.
Qed.

(** The leaf whose result the search kept. *)
Lemma buscar_elegida (dat : datos) (m : matrix) (fuel : nat) (st : estado) :
  (length (hubs dat) <= fuel)%nat ->
  buscar dat m fuel = Ok st ->
  ltb (mejor_costo st) PInf = true ->
  exists hc e,
    In hc (hojas_desde dat (hubs dat) [] (Fin 0))
    /\ evaluar dat m hc = Ok e
    /\ elegido e st.
Proof.
  intros Hf H Hlt. rewrite buscar_spec in H by exact Hf.
  destruct (map_res _ _) as [es| |] eqn:E; simpl in H; try discriminate.
  injection H as <-.
  destruct (tras_hojas_primero es estado_inicial)
    as [[(Hc & _) _]|(pre & e & post & -> & _ & Hel & _)].
  - rewrite Hc in Hlt. discriminate.
  - destruct (map_res_In _ _ _ E e) as (hc & Hhc & Ee).
    { apply in_app_iff. right. now left. }
    exists hc, e. auto.
Qed.

(** X6. When the solver returns a cost below +inf, its route is the
    depot followed, for each trip of the grouping in turn, by the
    departure point of the trip, its destinations and the depot; every
    departure point is the depot or one of the hubs returned; the route
    ends at the depot and visits the destination of every package. *)
Theorem ruta_devuelta (dat : datos) (m : matrix) (fuel : nat)
  (ruta hs : list Z) (c d ch : num) :
  (length (hubs dat) <= fuel)%nat ->
  calcular_mejor_camino dat m fuel = Ok (ruta, hs, c, d, ch) ->
  ltb c PInf = true ->
  exists vs inicios,
    agrupar_viajes (paquetes_por_destino dat) (capacidad dat) = Ok vs
    /\ length inicios = length vs
    /\ Forall (fun i => In i (deposito dat :: hs)) inicios
    /\ ruta = ruta_de (deposito dat) inicios vs
    /\ last ruta 0 = deposito dat
    /\ (forall ip, In ip (d_paquetes dat) -> In (destino (snd ip)) ruta).
Proof.
  intros Hf H Hlt. unfold calcular_mejor_camino in H.
  destruct (buscar dat m fuel) as [st| |] eqn:Eb; simpl in H;
    try discriminate.
  injection H as <- <- <- <- <-.
  destruct (buscar_elegida dat m fuel st Hf Eb Hlt)
    as (hc & e & Hhc & Ee & (Hc & Hh & Hr & Hd)).
  apply evaluar_hoja_inv in Ee. destruct Ee as (Eh & Ev & Er & Ec).
  apply recorrer_viajes_ruta in Er.
  destruct Er as (inicios & Hlen & Hall & Eruta).
  exists (ev_viajes e), inicios.
  split; [exact Ev|]. split; [exact Hlen|].
  split; [now rewrite Hh, Eh|].
  assert (Er : mejor_ruta st = ruta_de (deposito dat) inicios (ev_viajes e))
    by now rewrite Hr.
  split; [exact Er|]. rewrite Er.
  split; [apply ruta_de_ultimo|].
  intros ip Hip.
  destruct (viajes_contienen_destino dat (ev_viajes e) Ev ip Hip)
    as (v & Hv & Hx).
  now apply (ruta_de_destinos _ _ inicios v).
Qed.

(** X6 at [caso_hub]: the route 0, 1, 2, 3, 0 leaves from hub 1. *)
Lemma ruta_devuelta_witness :
  exists vs inicios,
    agrupar_viajes (paquetes_por_destino caso_hub) (capacidad caso_hub)
    = Ok vs
    /\ length inicios = length vs
    /\ Forall (fun i => In i (deposito caso_hub :: [1])) inicios
    /\ [0; 1; 2; 3; 0] = ruta_de (deposito caso_hub) inicios vs
    /\ last [0; 1; 2; 3; 0] 0 = deposito caso_hub
    /\ (forall ip, In ip (d_paquetes caso_hub) ->
                   In (destino (snd ip)) [0; 1; 2; 3; 0]).
Proof.
  apply (ruta_devuelta caso_hub matriz_hub 1 [0; 1; 2; 3; 0] [1]
           (Fin 20) (Fin 19) (Fin 1)).
  - simpl. lia.
  - vm_compute. reflexivity.
  - reflexivity.
Defined.

(** ** The optimum *)

(** X7. When the search returns, the hubs kept are a subset of the hub
    list, in its order, and no subset of the hub list is cheaper: the
    leaf of every subset was evaluated, with the activation costs of its
    hubs added in list order, and its total cost is not below the cost
    kept. *)
Theorem ningun_subconjunto_mas_barato (dat : datos) (m : matrix)
  (fuel : nat) (st : estado) :
  (length (hubs dat) <= fuel)%nat ->
  buscar dat m fuel = Ok st ->
  sublista (mejor_hubs st) (hubs dat)
  /\ forall s, sublista s (hubs dat) ->
       exists e,
         evaluar_hoja dat m s (costo_acumulado dat s) = Ok e
         /\ In e (traza st)
         /\ ltb (ev_costo e) (mejor_costo st) = false.
Proof.
  intros Hf H. rewrite buscar_spec in H by exact Hf.
  destruct (map_res _ _) as [es| |] eqn:E; simpl in H; try discriminate.
  injection H as <-. rewrite tras_hojas_traza. simpl.
  destruct (tras_hojas_primero es estado_inicial)
    as [[(Hc & Hh & _) Hall]
       |(pre & e0 & post & Ees & _ & (Hc & Hh & _) & _ & Hmin)].
  - split; [rewrite Hh; apply sublista_nil_l|].
    intros s Hs.
    destruct (map_res_cada _ _ _ E _ (subconjunto_hoja dat s Hs))
      as (e & He & Ee).
    exists e. split; [exact Ee|]. split; [exact He|].
    rewrite Hc. now apply Hall.
  - split.
    + rewrite Hh.
      destruct (map_res_In _ _ _ E e0) as (hc & Hhc & Ee0).
      { rewrite Ees. apply in_app_iff. right. now left. }
      apply evaluar_hoja_inv in Ee0. destruct Ee0 as (-> & _).
      now apply hojas_desde_subconjunto.
    + intros s Hs.
      destruct (map_res_cada _ _ _ E _ (subconjunto_hoja dat s Hs))
        as (e & He & Ee).
      exists e. split; [exact Ee|]. split; [exact He|].
      rewrite Hc. now apply Hmin.
Qed.

(** X7 at [caso_hub]: neither the empty subset nor hub 1 is below 20. *)
Lemma ningun_subconjunto_mas_barato_witness :
  exists st,
    buscar caso_hub matriz_hub 1 = Ok st
    /\ sublista (mejor_hubs st) (hubs caso_hub)
    /\ forall s, sublista s (hubs caso_hub) ->
         exists e,
           evaluar_hoja caso_hub matriz_hub s (costo_acumulado caso_hub s)
           = Ok e
           /\ In e (traza st)
           /\ ltb (ev_costo e) (mejor_costo st) = false.
Proof.
  destruct (buscar caso_hub matriz_hub 1) as [st| |] eqn:E;
    try (vm_compute in E; discriminate).
  exists st. split; [reflexivity|].
  apply (ningun_subconjunto_mas_barato caso_hub matriz_hub 1 st).
  - simpl. lia.
  - exact E.
Defined.

(** X8. When the search keeps a cost below +inf, that cost is the
    distance kept plus the activation costs of the hubs kept, added in
    list order from 0. *)
Theorem costo_es_distancia_mas_activacion (dat : datos) (m : matrix)
  (fuel : nat) (st : estado) :
  (length (hubs dat) <= fuel)%nat ->
  buscar dat m fuel = Ok st ->
  ltb (mejor_costo st) PInf = true ->
  mejor_costo st
  = add (mejor_distancia st) (costo_acumulado dat (mejor_hubs st)).
Proof.
  intros Hf H Hlt.
  destruct (buscar_elegida dat m fuel st Hf H Hlt)
    as (hc & e & Hhc & Ee & (Hc & Hh & _ & Hd)).
  apply evaluar_hoja_inv in Ee. destruct Ee as (Eh & _ & _ & Ec).
  destruct (hojas_desde_subconjunto dat hc Hhc) as [_ Ecost].
  rewrite Hc, Hd, Hh, Ec, Eh, Ecost. reflexivity.
Qed.

(** X8 at [caso_hub]: 20 = 19 + 1. *)
Lemma costo_es_distancia_mas_activacion_witness :
  exists st,
    buscar caso_hub matriz_hub 1 = Ok st
    /\ mejor_costo st = Fin 20
    /\ mejor_costo st
       = add (mejor_distancia st) (costo_acumulado caso_hub (mejor_hubs st)).
Proof.
  destruct (buscar caso_hub matriz_hub 1) as [st| |] eqn:E;
    try (vm_compute in E; discriminate).
  assert (Hc : mejor_costo st = Fin 20).
  { vm_compute in E. injection E as <-. reflexivity. }
  exists st. split; [reflexivity|]. split; [exact Hc|].
  apply (costo_es_distancia_mas_activacion caso_hub matriz_hub 1 st).
  - simpl. lia.
  - exact E.
  - rewrite Hc. reflexivity.
Defined.

(** ** Hubs never lengthen the route *)

Lemma un_candidato (dep inicio : Z) (pre post : list Z) :
  [dep] = pre ++ inicio :: post -> inicio = dep.
Proof.
  destruct pre as [|y pre]; simpl; intros H.
  - now injection H.
  - injection H as _ H. now apply app_cons_not_nil in H.
Qed.

Lemma recorrer_viajes_cota (n : nat) (m : matrix) (dep : Z)
  (act : list Z) (vs : list (list Z)) :
  dims n m -> matriz_buena n m -> en_rango n dep ->
  (forall h, In h act -> en_rango n h) ->
  (forall v, In v vs -> v <> [] /\ forall x, In x v -> en_rango n x) ->
  forall acc acc0,
    buena (fst acc) -> buena (fst acc0) ->
    leb (fst acc) (fst acc0) = true ->
    exists d r r0,
      for_each (fun acc viaje =>
                  x <- evaluar_viaje m dep act viaje ;;
                  Ok (add (fst acc) (fst x),
                      snd acc ++ [snd x] ++ viaje ++ [dep]))
               vs acc = Ok (d, r)
      /\ for_each (fun acc viaje =>
                     x <- evaluar_viaje m dep [] viaje ;;
                     Ok (add (fst acc) (fst x),
                         snd acc ++ [snd x] ++ viaje ++ [dep]))
                  vs acc0
         = Ok (fold_left (fun a v => add a (costo_viaje m dep v dep))
                         vs (fst acc0), r0)
      /\ leb d (fold_left (fun a v => add a (costo_viaje m dep v dep))
                          vs (fst acc0)) = true.
Proof.
  intros Hd Hm Hdep Hact. induction vs as [|v vs IH];
    intros Hvs [a r] [a0 r0] Ha Ha0 Hle; cbn [fst snd] in *.
  - exists a, r, r0. auto.
  - destruct (Hvs v (or_introl eq_refl)) as [Hne Hv].
    destruct (evaluar_viaje_spec n m dep act v Hd Hm Hdep Hact Hv Hne)
      as (best & inicio & pre & post & E & Ec & Eb & Hpre & Hpost).
    destruct (evaluar_viaje_spec n m dep [] v Hd Hm Hdep
                ltac:(intros h []) Hv Hne)
      as (best0 & inicio0 & pre0 & post0 & E0 & Ec0 & Eb0 & _).
    apply un_candidato in Ec0. subst inicio0.
    cbn [for_each]. rewrite E, E0. cbn [bind fst snd].
    assert (Hcand : forall c, In c ([dep] ++ act) -> en_rango n c).
    { intros c [<-|Hc]; auto. }
    assert (Hbdep : buena (costo_viaje m dep v dep))
      by (apply (costo_viaje_buena n); auto).
    assert (Hbest : buena best).
    { rewrite Eb. apply (costo_viaje_buena n); auto.
      apply Hcand. rewrite Ec. apply in_app_iff. right. now left. }
    assert (Hlb : leb best (costo_viaje m dep v dep) = true).
    { assert (Hin : In dep (pre ++ inicio :: post))
        by (rewrite <- Ec; now left).
      apply in_app_iff in Hin. destruct Hin as [Hin|[Hin|Hin]].
      - apply ltb_leb. now apply Hpre.
      - subst inicio. rewrite <- Eb. now apply leb_refl.
      - now apply Hpost. }
    rewrite Eb0.
    apply (IH (fun v' H' => Hvs v' (or_intror H'))
              (add a best, r ++ [inicio] ++ v ++ [dep])
              (add a0 (costo_viaje m dep v dep), r0 ++ [dep] ++ v ++ [dep]));
      cbn [fst].
    + now apply buena_add.
    + now apply buena_add.
    + now apply leb_add.
Qed.

(** X9. On a matrix of finite or +inf entries and valid, non-empty
    trips, the distance of the trips with any active hubs is at most
    their distance from the depot alone, which is the sum over the trips
    of the cost of leaving from the depot. *)
Theorem hubs_no_alargan (n : nat) (m : matrix) (dep : Z) (act : list Z)
  (vs : list (list Z)) :
  dims n m -> matriz_buena n m -> en_rango n dep ->
  (forall h, In h act -> en_rango n h) ->
  (forall v, In v vs -> v <> [] /\ forall x, In x v -> en_rango n x) ->
  exists d r r0,
    recorrer_viajes m dep act vs = Ok (d, r)
    /\ recorrer_viajes m dep [] vs = Ok (distancia_deposito m dep vs, r0)
    /\ leb d (distancia_deposito m dep vs) = true.
Proof.
  intros Hd Hm Hdep Hact Hvs. unfold recorrer_viajes, distancia_deposito.
  apply (recorrer_viajes_cota n m dep act vs Hd Hm Hdep Hact Hvs
           (Fin 0, [dep]) (Fin 0, [dep])); simpl; auto.
Qed.

(** X9 at the trip of [caso_hub]: 19 with hub 1 against 24 without. *)
Lemma hubs_no_alargan_witness :
  recorrer_viajes matriz_hub 0 [1] [[2; 3]] = Ok (Fin 19, [0; 1; 2; 3; 0])
  /\ distancia_deposito matriz_hub 0 [[2; 3]] = Fin 24
  /\ exists d r r0,
       recorrer_viajes matriz_hub 0 [1] [[2; 3]] = Ok (d, r)
       /\ recorrer_viajes matriz_hub 0 [] [[2; 3]]
          = Ok (distancia_deposito matriz_hub 0 [[2; 3]], r0)
       /\ leb d (distancia_deposito matriz_hub 0 [[2; 3]]) = true.
Proof.
  split; [vm_compute; reflexivity|]. split; [vm_compute; reflexivity|].
  apply (hubs_no_alargan 4 matriz_hub 0 [1] [[2; 3]]).
  - split; [reflexivity|].
    simpl. intros fila H.
    repeat (destruct H as [<-|H]; [reflexivity|]). destruct H.
  - intros a b Ha Hb. unfold en_rango in *.
    assert (Ea : a = 0 \/ a = 1 \/ a = 2 \/ a = 3) by lia.
    assert (Eb : b = 0 \/ b = 1 \/ b = 2 \/ b = 3) by lia.
    destruct Ea as [-> | [-> | [-> | ->]]];
      destruct Eb as [-> | [-> | [-> | ->]]]; exact I.
  - unfold en_rango. simpl. lia.
  - intros h [<-|[]]. unfold en_rango. simpl. lia.
  - intros v [<-|[]]. split; [discriminate|].
    intros x [<-|[<-|[]]]; unfold en_rango; simpl; lia.
Defined.

(** ** Node identifiers out of range in [floyd_warshall] *)

Lemma py_pos_limites (n : nat) (i : Z) :
  en_limites n i = true -> en_rango n (py_pos (Z.of_nat n) i).
Proof.
  unfold en_limites, en_rango, py_pos. intros H.
  apply andb_true_iff in H. destruct H as [H1 H2].
  apply Z.leb_le in H1. apply Z.ltb_lt in H2.
  destruct (Z.ltb_spec i 0); lia.
Qed.

Lemma py_pos_rango (n : Z) (i : Z) : 0 <= i -> py_pos n i = i.
Proof. unfold py_pos. intros H. destruct (Z.ltb_spec i 0); [lia|reflexivity]. Qed.

Lemma py_getitem_pos {A : Type} (l : list A) (i : Z) :
  en_limites (length l) i = true ->
  py_getitem l i = py_getitem l (py_pos (Z.of_nat (length l)) i).
Proof.
  intros H. apply py_pos_limites in H. unfold py_getitem.
  now rewrite (py_pos_rango _ (py_pos _ i)) by apply H.
Qed.

Lemma py_setitem_pos {A : Type} (l : list A) (i : Z) (x : A) :
  en_limites (length l) i = true ->
  py_setitem l i x = py_setitem l (py_pos (Z.of_nat (length l)) i) x.
Proof.
  intros H. apply py_pos_limites in H. unfold py_setitem.
  now rewrite (py_pos_rango _ (py_pos _ i)) by apply H.
Qed.

Lemma fuera_de_limites (n : nat) (i : Z) :
  en_limites n i = false ->
  (0 <=? py_pos (Z.of_nat n) i) && (py_pos (Z.of_nat n) i <? Z.of_nat n)
  = false.
Proof.
  unfold en_limites, py_pos. intros H.
  apply andb_false_iff in H. apply andb_false_iff.
  destruct H as [H|H]; [apply Z.leb_gt in H|apply Z.ltb_ge in H];
    destruct (Z.ltb_spec i 0).
  - left. apply Z.leb_gt. lia.
  - lia.
  - lia.
  - right. apply Z.ltb_ge. lia.
Qed.

Lemma py_getitem_fuera {A : Type} (l : list A) (i : Z) :
  en_limites (length l) i = false -> py_getitem l i = Lanza IndexError.
Proof.
  intros H. unfold py_getitem. now rewrite fuera_de_limites.
Qed.

Lemma py_setitem_fuera {A : Type} (l : list A) (i : Z) (x : A) :
  en_limites (length l) i = false -> py_setitem l i x = Lanza IndexError.
Proof.
  intros H. unfold py_setitem. now rewrite fuera_de_limites.
Qed.

(** A write with indices counted from the end is the write at the
    indices counted from 0. *)
Lemma mset_pos (n : nat) (m : matrix) (i j : Z) (x : num) :
  dims n m -> en_limites n i = true -> en_limites n j = true ->
  mset m i j x = mset m (py_pos (Z.of_nat n) i) (py_pos (Z.of_nat n) j) x.
Proof.
  intros Hd Hi Hj. unfold mset.
  assert (Hlen : length m = n) by apply Hd.
  assert (Hp := py_pos_limites n i Hi).
  rewrite (py_getitem_pos m i) by (now rewrite Hlen). rewrite Hlen.
  rewrite (py_getitem_rango m _ []) by (rewrite Hlen; exact Hp).
  cbn [bind].
  assert (Hf : length (nth (Z.to_nat (py_pos (Z.of_nat n) i)) m []) = n)
    by now apply dims_fila.
  rewrite (py_setitem_pos _ j) by (now rewrite Hf). rewrite Hf.
  destruct (py_setitem _ (py_pos (Z.of_nat n) j) x); cbn [bind];
    try reflexivity.
  rewrite (py_setitem_pos m i) by (now rewrite Hlen). now rewrite Hlen.
Qed.

Lemma mset_limites (n : nat) (m : matrix) (i j : Z) (x : num) :
  dims n m -> en_limites n i = true -> en_limites n j = true ->
  exists m', mset m i j x = Ok m' /\ dims n m'.
Proof.
  intros Hd Hi Hj. rewrite (mset_pos n) by assumption.
  destruct (mset_rango n m _ _ x Hd (py_pos_limites n i Hi)
              (py_pos_limites n j Hj)) as (m' & E & Hd' & _).
  eauto.
Qed.

Lemma mset_fuera (n : nat) (m : matrix) (i j : Z) (x : num) :
  dims n m -> en_limites n i && en_limites n j = false ->
  mset m i j x = Lanza IndexError.
Proof.
  intros Hd H. unfold mset.
  assert (Hlen : length m = n) by apply Hd.
  destruct (en_limites n i) eqn:Hi.
  - simpl in H. assert (Hp := py_pos_limites n i Hi).
    rewrite (py_getitem_pos m i) by (now rewrite Hlen). rewrite Hlen.
    rewrite (py_getitem_rango m _ []) by (rewrite Hlen; exact Hp).
    cbn [bind]. rewrite py_setitem_fuera; [reflexivity|].
    now rewrite (dims_fila n).
  - rewrite py_getitem_fuera by (now rewrite Hlen). reflexivity.
Qed.

Lemma fw_arista_limites (n : nat) (d : matrix) (a : (Z * Z) * num) :
  dims n d ->
  if arista_en_limites n a
  then exists d', fw_arista d a = Ok d' /\ dims n d'
  else fw_arista d a = Lanza IndexError.
Proof.
  intros Hd. destruct a as [[u v] w]. unfold arista_en_limites, fw_arista.
  cbn [fst snd].
  destruct (en_limites n u && en_limites n v) eqn:E.
  - apply andb_true_iff in E. destruct E as [Hu Hv].
    destruct (mset_limites n d u v w Hd Hu Hv) as (d1 & E1 & Hd1).
    rewrite E1. cbn [bind]. now apply mset_limites.
  - now rewrite (mset_fuera n).
Qed.

Lemma fw_aristas_limites (n : nat) (ar : dict (Z * Z) num) :
  forall d, dims n d ->
    if forallb (arista_en_limites n) ar
    then exists d', fw_aristas ar d = Ok d' /\ dims n d'
    else fw_aristas ar d = Lanza IndexError.
Proof.
  unfold fw_aristas. induction ar as [|a ar IH]; intros d Hd; simpl.
  - eauto.
  - assert (Ha := fw_arista_limites n d a Hd).
    destruct (arista_en_limites n a); simpl.
    + destruct Ha as (d1 & -> & Hd1). cbn [bind]. now apply IH.
    + now rewrite Ha.
Qed.

(** The triple loop returns on every square matrix. *)
Lemma fw_bucles_ok (n : nat) (d : matrix) :
  dims n d -> exists d', fw_bucles (Z.of_nat n) d = Ok d' /\ dims n d'.
Proof.
  intros Hd. unfold fw_bucles.
  apply (for_each_inv (dims n)); [|exact Hd].
  intros s k Hk Hs. apply in_range_nat in Hk.
  apply (for_each_inv (dims n)); [|exact Hs].
  intros s1 i Hi Hs1. apply in_range_nat in Hi.
  apply (for_each_inv (dims n)); [|exact Hs1].
  intros s2 j Hj Hs2. apply in_range_nat in Hj.
  destruct (relajar_spec n k i j s2 Hs2 Hk Hi Hj) as (s3 & E & Hd3 & _).
  eauto.
Qed.

Lemma floyd_warshall_nat (ar : dict (Z * Z) num) (N : Z) :
  floyd_warshall ar N = floyd_warshall ar (Z.of_nat (Z.to_nat N)).
Proof.
  unfold floyd_warshall, fw_diagonal, fw_bucles, fw_inicial, range.
  now rewrite Nat2Z.id.
Qed.

Lemma floyd_warshall_limites (ar : dict (Z * Z) num) (N : Z) :
  if forallb (arista_en_limites (Z.to_nat N)) ar
  then exists dist, floyd_warshall ar N = Ok dist
                    /\ dims (Z.to_nat N) dist
  else floyd_warshall ar N = Lanza IndexError.
Proof.
  rewrite floyd_warshall_nat. set (n := Z.to_nat N).
  unfold floyd_warshall.
  destruct (fw_diagonal_spec n) as (d1 & -> & Hd1 & _). cbn [bind].
  assert (H := fw_aristas_limites n ar d1 Hd1).
  destruct (forallb (arista_en_limites n) ar).
  - destruct H as (d2 & -> & Hd2). cbn [bind]. now apply fw_bucles_ok.
  - now rewrite H.
Qed.

(** X10. [floyd_warshall] returns exactly when both nodes of every edge
    are indices the matrix accepts, from [-N] to [N - 1], and then the
    matrix is N x N; with any other node it raises [IndexError].  The
    weights play no part in this. *)
Theorem floyd_warshall_indices (ar : dict (Z * Z) num) (N : Z) :
  (forallb (arista_en_limites (Z.to_nat N)) ar = true ->
   exists dist, floyd_warshall ar N = Ok dist /\ dims (Z.to_nat N) dist)
  /\ (forallb (arista_en_limites (Z.to_nat N)) ar = false ->
      floyd_warshall ar N = Lanza IndexError).
Proof.
  assert (H := floyd_warshall_limites ar N).
  destruct (forallb (arista_en_limites (Z.to_nat N)) ar).
  - split; [intros _; exact H|discriminate].
  - split; [discriminate|intros _; exact H].
Qed.

(** X10 at three nodes: the edge 0-3 is out of range, the edge between
    -1 and 0 is not. *)
Lemma floyd_warshall_indices_witness :
  floyd_warshall [((0, 3), Fin 5)] 3 = Lanza IndexError
  /\ exists dist, floyd_warshall [((-1, 0), Fin 5)] 3 = Ok dist
                  /\ dims (Z.to_nat 3) dist.
Proof.
  destruct (floyd_warshall_indices [((0, 3), Fin 5)] 3) as [_ H1].
  destruct (floyd_warshall_indices [((-1, 0), Fin 5)] 3) as [H2 _].
  split; [apply H1; reflexivity | apply H2; reflexivity].
Defined.

Lemma fw_aristas_normalizar (n : nat) (ar : dict (Z * Z) num) :
  forallb (arista_en_limites n) ar = true ->
  forall d, dims n d ->
            fw_aristas ar d = fw_aristas (map (normalizar n) ar) d.
Proof.
  unfold fw_aristas. induction ar as [|a ar IH]; intros H d Hd;
    [reflexivity|].
  simpl in H. apply andb_true_iff in H. destruct H as [Ha Har].
  cbn [map for_each].
  assert (E : fw_arista d a = fw_arista d (normalizar n a)).
  { destruct a as [[u v] w]. unfold arista_en_limites in Ha.
    cbn [fst snd] in Ha. apply andb_true_iff in Ha. destruct Ha as [Hu Hv].
    unfold normalizar, fw_arista. cbn [fst snd].
    rewrite <- (mset_pos n d u v w Hd Hu Hv).
    destruct (mset_limites n d u v w Hd Hu Hv) as (d1 & -> & Hd1).
    cbn [bind]. now apply mset_pos. }
  rewrite <- E.
  assert (Hok := fw_arista_limites n d a Hd). rewrite Ha in Hok.
  destruct Hok as (d1 & -> & Hd1). cbn [bind]. now apply IH.
Qed.

(** X11. A negative node of an edge counts from the end: when every node
    lies between [-N] and [N - 1], [floyd_warshall] gives the result it
    gives for the edges with [u + N] in place of each negative [u]. *)
Theorem floyd_warshall_nodos_negativos (ar : dict (Z * Z) num) (N : Z) :
  forallb (arista_en_limites (Z.to_nat N)) ar = true ->
  floyd_warshall ar N
  = floyd_warshall (map (normalizar (Z.to_nat N)) ar) N.
Proof.
  intros H. rewrite !(floyd_warshall_nat _ N). set (n := Z.to_nat N) in *.
  unfold floyd_warshall.
  destruct (fw_diagonal_spec n) as (d1 & -> & Hd1 & _). cbn [bind].
  now rewrite (fw_aristas_normalizar n ar H d1 Hd1).
Qed.

(** X11 at three nodes: the edge between -1 and 0 is the edge 2-0. *)
Lemma floyd_warshall_nodos_negativos_witness :
  floyd_warshall [((-1, 0), Fin 5)] 3
  = floyd_warshall [((2, 0), Fin 5)] 3.
Proof.
  apply (floyd_warshall_nodos_negativos [((-1, 0), Fin 5)] 3).
  reflexivity.
Defined.

(** ** A first destination that exceeds the capacity *)

Lemma primera_demanda (ip : Z * paquete) (resto : dict Z paquete) :
  exists l,
    contar_destinos (ip :: resto)
    = (destino (snd ip), cuenta (ip :: resto) (destino (snd ip))) :: l.
Proof.
  assert (Hk := contar_destinos_orden (ip :: resto)).
  assert (Hg : dict_get (contar_destinos (ip :: resto)) (destino (snd ip))
               = if cuenta (ip :: resto) (destino (snd ip)) =? 0 then None
                 else Some (cuenta (ip :: resto) (destino (snd ip)))).
  { unfold contar_destinos. rewrite contar_desde. reflexivity. }
  destruct (contar_destinos (ip :: resto)) as [|[k v] l];
    [discriminate|].
  cbn [map sin_repetidos dict_keys fst] in Hk.
  injection Hk as -> _. exists l.
  cbn [dict_get] in Hg. rewrite Z.eqb_refl in Hg.
  destruct (cuenta (ip :: resto) (destino (snd ip)) =? 0);
    [discriminate|].
  now injection Hg as ->.
Qed.

Lemma hoja_viaje_vacio (dat : datos) (m : matrix) (act : list Z) (ca : num)
  (vs : list (list Z)) :
  agrupar_viajes (paquetes_por_destino dat) (capacidad dat) = Ok ([] :: vs) ->
  evaluar_hoja dat m act ca = Lanza IndexError.
Proof.
  intros H. unfold evaluar_hoja. rewrite H. reflexivity.
Qed.

Lemma floyd_warshall_lanza (ar : dict (Z * Z) num) (N : Z) :
  (exists dist, floyd_warshall ar N = Ok dist)
  \/ floyd_warshall ar N = Lanza IndexError.
Proof.
  assert (H := floyd_warshall_limites ar N).
  destruct (forallb _ ar); [left|right; exact H].
  destruct H as (dist & H & _). eauto.
Qed.

(** X12. When the packages of the first destination (the destination of
    the first package) outnumber the truck capacity, the search raises
    [IndexError] on every distance matrix, and so does the whole
    computation from the case read: the first trip of the grouping is
    empty and its first destination is read at the first leaf. *)
Theorem primer_destino_no_cabe (dat : datos) (m : matrix) (fuel : nat)
  (ip : Z * paquete) (resto : dict Z paquete) :
  (length (hubs dat) <= fuel)%nat ->
  d_paquetes dat = ip :: resto ->
  capacidad dat < cuenta (d_paquetes dat) (destino (snd ip)) ->
  calcular_mejor_camino dat m fuel = Lanza IndexError
  /\ resolver fuel dat = Lanza IndexError.
Proof.
  intros Hf Hp Hc.
  assert (Hb : forall m', buscar dat m' fuel = Lanza IndexError).
  { intros m'. rewrite buscar_spec by exact Hf.
    destruct (agrupar_viajes_vacio (paquetes_por_destino dat)
                (capacidad dat)) as (vs & Hvs & _).
    { unfold paquetes_por_destino. rewrite Hp in *.
      destruct (primera_demanda ip resto) as [l ->].
      unfold primer_destino_cabe. lia. }
    destruct (hojas_desde_primera dat (hubs dat) [] (Fin 0)) as [l ->].
    cbn [map_res]. unfold evaluar at 1. cbn [fst snd].
    now rewrite (hoja_viaje_vacio dat m' [] (Fin 0) vs Hvs). }
  split.
  - unfold calcular_mejor_camino. now rewrite Hb.
  - unfold resolver.
    destruct (floyd_warshall_lanza (d_aristas dat)
                (num_nodos (d_configuracion dat))) as [[dist ->]| ->];
      [|reflexivity].
    cbn [bind]. unfold calcular_mejor_camino. now rewrite Hb.
Qed.

(** X12 at two packages for node 2 and a truck of capacity 1. *)
Lemma primer_destino_no_cabe_witness :
  calcular_mejor_camino caso_sobrecarga [] 0 = Lanza IndexError
  /\ resolver 0 caso_sobrecarga = Lanza IndexError.
Proof.
  apply (primer_destino_no_cabe caso_sobrecarga [] 0
           (1, {| origen := 0; destino := 2 |})
           [(2, {| origen := 0; destino := 2 |})]).
  - simpl. lia.
  - reflexivity.
  - vm_compute. reflexivity.
Defined.

(** ** The lines of the case file *)

Lemma antes_de_barras_cons (c c' : caracter) (r : cadena) :
  antes_de_barras (c :: c' :: r)
  = if (c =? barra)%N && (c' =? barra)%N then []
    else c :: antes_de_barras (c' :: r).
Proof. reflexivity. Qed.

Lemma antes_de_barras_cabeza (c : caracter) (r : cadena) :
  antes_de_barras (c :: r) = []
  \/ exists t, antes_de_barras (c :: r) = c :: t.
Proof.
  destruct r as [|c' r]; [right; now exists []|].
  rewrite antes_de_barras_cons.
  destruct ((c =? barra)%N && (c' =? barra)%N); eauto.
Qed.

Lemma antes_de_barras_sin_barras (linea : cadena) :
  sin_barras (antes_de_barras linea).
Proof.
  unfold sin_barras.
  induction linea as [|c r IH]; intros a b E.
  - now destruct a.
  - destruct r as [|c' r].
    + destruct a as [|x [|y a]]; discriminate.
    + rewrite antes_de_barras_cons in E.
      destruct ((c =? barra)%N && (c' =? barra)%N) eqn:T;
        [now destruct a|].
      destruct a as [|x a].
      * cbn [app] in E.
        assert (Ec : c = barra) by congruence.
        assert (Et : antes_de_barras (c' :: r) = barra :: b)
          by congruence.
        destruct (antes_de_barras_cabeza c' r) as [H|[t H]];
          rewrite H in Et; [discriminate|].
        assert (Ec' : c' = barra) by congruence.
        subst. now rewrite N.eqb_refl in T.
      * apply (IH a b). cbn [app] in E. congruence.
Qed.

Lemma antes_de_barras_prefijo (linea : cadena) :
  exists b, linea = antes_de_barras linea ++ b.
Proof.
  induction linea as [|c r [b IH]]; [now exists []|].
  destruct r as [|c' r]; [now exists []|].
  rewrite antes_de_barras_cons.
  destruct ((c =? barra)%N && (c' =? barra)%N).
  - now exists (c :: c' :: r).
  - exists b. cbn [app]. f_equal. exact IH.
Qed.

Lemma sin_barras_cola (c : caracter) (s : cadena) :
  sin_barras (c :: s) -> sin_barras s.
Proof. intros H a b E. apply (H (c :: a) b). now rewrite E. Qed.

Lemma antes_de_barras_id (s : cadena) :
  sin_barras s -> antes_de_barras s = s.
Proof.
  induction s as [|c r IH]; intros H; [reflexivity|].
  destruct r as [|c' r]; [reflexivity|].
  rewrite antes_de_barras_cons.
  destruct ((c =? barra)%N && (c' =? barra)%N) eqn:T.
  - apply andb_true_iff in T. destruct T as [T1 T2].
    apply N.eqb_eq in T1, T2. subst. now destruct (H [] r).
  - f_equal. apply IH. now apply sin_barras_cola in H.
Qed.

Lemma sin_barras_parte (a s b : cadena) :
  sin_barras (a ++ s ++ b) -> sin_barras s.
Proof.
  intros H x y E. apply (H (a ++ x) (y ++ b)).
  rewrite E. now rewrite <- !app_assoc.
Qed.

Section LineasProp.

Variable es_espacio : caracter -> bool.

Lemma lstrip_cabeza (s : cadena) :
  lstrip es_espacio s = []
  \/ exists c t, lstrip es_espacio s = c :: t /\ es_espacio c = false.
Proof.
  induction s as [|c r IH]; simpl; [now left|].
  destruct (es_espacio c) eqn:E; [exact IH|]. right. eauto.
Qed.

Lemma lstrip_sufijo (s : cadena) :
  exists a, s = a ++ lstrip es_espacio s.
Proof.
  induction s as [|c r [a IH]]; simpl; [now exists []|].
  destruct (es_espacio c).
  - exists (c :: a). simpl. now rewrite <- IH.
  - now exists [].
Qed.

Lemma lstrip_id (c : caracter) (t : cadena) :
  es_espacio c = false -> lstrip es_espacio (c :: t) = c :: t.
Proof. intros H. simpl. now rewrite H. Qed.

Lemma lstrip_app (a b : cadena) (c : caracter) :
  es_espacio c = false ->
  lstrip es_espacio (a ++ c :: b) = lstrip es_espacio a ++ c :: b.
Proof.
  intros H. induction a as [|x a IH]; simpl.
  - now rewrite H.
  - destruct (es_espacio x); [exact IH|reflexivity].
Qed.

Lemma rstrip_prefijo (s : cadena) :
  exists b, s = rstrip es_espacio s ++ b.
Proof.
  unfold rstrip. destruct (lstrip_sufijo (rev s)) as [a E].
  exists (rev a). rewrite <- rev_app_distr, <- E. now rewrite rev_involutive.
Qed.

Lemma rstrip_cons (c : caracter) (r : cadena) :
  es_espacio c = false ->
  rstrip es_espacio (c :: r) = c :: rstrip es_espacio r.
Proof.
  intros H. unfold rstrip. simpl rev.
  rewrite lstrip_app by exact H. rewrite rev_app_distr. reflexivity.
Qed.

Lemma rstrip_ultimo (s : cadena) (d : caracter) :
  es_espacio d = false ->
  es_espacio (last (rstrip es_espacio s) d) = false.
Proof.
  intros H. unfold rstrip.
  destruct (lstrip_cabeza (rev s)) as [->|(c & t & -> & Hc)];
    [exact H|].
  simpl rev. now rewrite last_last.
Qed.

Lemma last_cons_mismo (c : caracter) (s : cadena) :
  last (c :: s) c = last s c.
Proof. now destruct s. Qed.

Lemma strip_recortada (s : cadena) : recortada es_espacio (strip es_espacio s).
Proof.
  unfold strip.
  destruct (lstrip_cabeza s) as [->|(c & t & -> & Hc)]; [exact I|].
  rewrite rstrip_cons by exact Hc. cbn [recortada].
  split; [exact Hc|]. rewrite last_cons_mismo. now apply rstrip_ultimo.
Qed.

Lemma rev_ultimo (s : cadena) (d : caracter) :
  s <> [] -> exists t, rev s = last s d :: t.
Proof.
  intros H. destruct (exists_last H) as (s' & x & ->).
  rewrite rev_app_distr, last_last. simpl. eauto.
Qed.

Lemma strip_id (s : cadena) :
  recortada es_espacio s -> strip es_espacio s = s.
Proof.
  destruct s as [|c r]; [reflexivity|].
  intros [Hc Hl]. unfold strip. rewrite lstrip_id by exact Hc.
  unfold rstrip.
  destruct (rev_ultimo (c :: r) c) as [t E]; [discriminate|].
  rewrite E, lstrip_id by exact Hl.
  rewrite <- E. apply rev_involutive.
Qed.

Lemma strip_parte (s : cadena) :
  exists a b, s = a ++ strip es_espacio s ++ b.
Proof.
  unfold strip. destruct (lstrip_sufijo s) as [a Ea].
  destruct (rstrip_prefijo (lstrip es_espacio s)) as [b Eb].
  exists a, b. now rewrite <- Eb.
Qed.

(** X13. [eliminar_comentario] returns a piece of the line that holds no
    "//" and neither starts nor ends with a space; cleaning a clean line
    changes nothing, and a line without "//" is only stripped. *)
Theorem eliminar_comentario_limpia (linea : cadena) :
  sin_barras (eliminar_comentario es_espacio linea)
  /\ recortada es_espacio (eliminar_comentario es_espacio linea)
  /\ (exists a b, linea = a ++ eliminar_comentario es_espacio linea ++ b)
  /\ eliminar_comentario es_espacio
       (eliminar_comentario es_espacio linea)
     = eliminar_comentario es_espacio linea
  /\ (sin_barras linea ->
      eliminar_comentario es_espacio linea = strip es_espacio linea).
Proof.
  unfold eliminar_comentario.
  assert (Hs : sin_barras (strip es_espacio (antes_de_barras linea))).
  { destruct (strip_parte (antes_de_barras linea)) as (a & b & E).
    apply (sin_barras_parte a _ b). rewrite <- E.
    apply antes_de_barras_sin_barras. }
  split; [exact Hs|]. split; [apply strip_recortada|].
  split; [|split].
  - destruct (strip_parte (antes_de_barras linea)) as (a & b & E).
    destruct (antes_de_barras_prefijo linea) as [c Ec].
    exists a, (b ++ c). rewrite Ec at 1. rewrite E at 1.
    now rewrite <- !app_assoc.
  - rewrite antes_de_barras_id by exact Hs.
    apply strip_id, strip_recortada.
  - intros H. now rewrite antes_de_barras_id.
Qed.

End LineasProp.

(** X13 on the line [" 3 7 // x"]: it has no "//" once cleaned, and the
    line ["3 7"] is left as it is. *)
Lemma eliminar_comentario_limpia_witness :
  eliminar_comentario espacio_ascii [32; 51; 32; 55; 32; 47; 47; 32; 120]%N
  = [51; 32; 55]%N
  /\ eliminar_comentario espacio_ascii [51; 32; 55]%N
     = strip espacio_ascii [51; 32; 55]%N.
Proof.
  split; [reflexivity|].
  apply (eliminar_comentario_limpia espacio_ascii [51; 32; 55]%N).
  intros a b E.
  destruct a as [|x [|y [|z a]]]; try discriminate;
    destruct a; discriminate.
Defined.

(** ** A section of the case file *)

Lemma rango_nil (a b : Z) : b <= a -> rango a b = [].
Proof.
  intros H. unfold rango. replace (Z.to_nat (b - a)) with O by lia.
  reflexivity.
Qed.

Lemma rango_cons (a b : Z) : a < b -> rango a b = a :: rango (a + 1) b.
Proof.
  intros H. unfold rango.
  replace (Z.to_nat (b - a)) with (S (Z.to_nat (b - (a + 1)))) by lia.
  cbn [seq map]. f_equal; [lia|].
  rewrite <- seq_shift, map_map. apply map_ext. intros k. lia.
Qed.

Lemma hasta_nil {A : Type} (cantidad : num) (k : Z) :
  hasta cantidad k (@nil A) = [].
Proof. destruct cantidad; simpl; try reflexivity. apply firstn_nil. Qed.

Lemma hasta_alcanzada {A : Type} (cantidad : num) (k : Z) (l : list A) :
  leb cantidad (Fin k) = true -> hasta cantidad k l = [].
Proof.
  destruct cantidad as [c| | |]; simpl; try discriminate; [|reflexivity].
  intros H. apply Z.leb_le in H.
  replace (Z.to_nat (c - k)) with O by lia. reflexivity.
Qed.

Lemma hasta_cons {A : Type} (cantidad : num) (k : Z) (x : A) (l : list A) :
  leb cantidad (Fin k) = false ->
  hasta cantidad k (x :: l) = x :: hasta cantidad (k + 1) l.
Proof.
  destruct cantidad as [c| | |]; simpl; try discriminate; try reflexivity.
  intros H. apply Z.leb_gt in H.
  replace (Z.to_nat (c - k)) with (S (Z.to_nat (c - (k + 1)))) by lia.
  reflexivity.
Qed.

Section LeerSeccionProp.

Context {A : Type}.
Variable es_espacio : caracter -> bool.
Variable parser : cadena -> option A.
Variable cantidad : num.

Lemma limpias_cons (x : cadena) (r : list cadena) :
  limpias es_espacio (x :: r)
  = match eliminar_comentario es_espacio x with
    | [] => limpias es_espacio r
    | linea => linea :: limpias es_espacio r
    end.
Proof.
  unfold limpias. cbn [map filter].
  now destruct (eliminar_comentario es_espacio x).
Qed.

Lemma leer_desde_spec (lineas : list cadena) :
  forall r pre s,
    lineas = pre ++ r ->
    exists s',
      leer_desde es_espacio parser lineas cantidad
        (rango (Z.of_nat (length pre)) (Z.of_nat (length lineas))) s
      = Ok s'
      /\ l_datos s'
         = l_datos s
           ++ hasta cantidad (l_leidos s)
                (aceptadas parser (limpias es_espacio r))
      /\ (forall l, In l (l_avisos s') ->
            In l (l_avisos s)
            \/ (In l (limpias es_espacio r) /\ parser l = None))
      /\ (cantidad = PInf ->
          l_avisos s'
          = l_avisos s
            ++ filter (rechazada parser) (limpias es_espacio r)).
Proof.
  induction r as [|x r IH]; intros pre s E.
  - rewrite rango_nil by (rewrite E, length_app; simpl; lia).
    exists s. split; [reflexivity|].
    cbn [limpias map filter aceptadas flat_map].
    rewrite hasta_nil, !app_nil_r. auto.
  - rewrite rango_cons by (rewrite E, length_app; simpl; lia).
    cbn [leer_desde].
    destruct (leb cantidad (Fin (l_leidos s))) eqn:Hc.
    { exists s. split; [reflexivity|].
      rewrite hasta_alcanzada by exact Hc. rewrite app_nil_r.
      split; [reflexivity|]. split; [auto|].
      intros ->. discriminate. }
    assert (E' : lineas = (pre ++ [x]) ++ r)
      by now rewrite <- app_assoc.
    assert (Hn : Z.of_nat (length pre) + 1
                 = Z.of_nat (length (pre ++ [x])))
      by (rewrite length_app; simpl; lia).
    assert (Hg : py_getitem lineas (Z.of_nat (length pre)) = Ok x)
      by (rewrite E; apply py_getitem_app).
    rewrite Hg, Hn. cbn [bind].
    rewrite limpias_cons.
    destruct (eliminar_comentario es_espacio x) as [|c t] eqn:El.
    { exact (IH _ s E'). }
    destruct (parser (c :: t)) as [y|] eqn:Ep.
    + destruct (IH _ {| l_datos := l_datos s ++ [y];
                        l_leidos := l_leidos s + 1;
                        l_avisos := l_avisos s |} E')
        as (s' & H1 & H2 & H3 & H4).
      exists s'. split; [exact H1|]. cbn [l_datos l_leidos l_avisos] in *.
      split; [|split].
      * rewrite H2. cbn [aceptadas flat_map]. rewrite Ep. cbn [app].
        rewrite hasta_cons by exact Hc. now rewrite <- app_assoc.
      * intros l Hl. destruct (H3 l Hl) as [H|[H H']]; [now left|].
        right. split; [now right|exact H'].
      * intros Hp. rewrite (H4 Hp). cbn [filter]. unfold rechazada at 2.
        now rewrite Ep.
    + destruct (IH _ {| l_datos := l_datos s;
                        l_leidos := l_leidos s;
                        l_avisos := l_avisos s ++ [c :: t] |} E')
        as (s' & H1 & H2 & H3 & H4).
      exists s'. split; [exact H1|]. cbn [l_datos l_leidos l_avisos] in *.
      split; [|split].
      * rewrite H2. cbn [aceptadas flat_map]. now rewrite Ep.
      * intros l Hl. destruct (H3 l Hl) as [H|[H H']].
        -- apply in_app_iff in H. destruct H as [H|[<-|[]]]; [now left|].
           right. split; [now left|exact Ep].
        -- right. split; [now right|exact H'].
      * intros Hp. rewrite (H4 Hp). cbn [filter]. unfold rechazada at 2.
        rewrite Ep. now rewrite <- app_assoc.
Qed.

(** X14. From a start index that is not negative, [leer_seccion] returns
    the values of the first [cantidad] lines that the parser accepts
    among the lines from [inicio] on, comments removed and empty lines
    skipped: all of them when [cantidad] is +inf.  It reads on past the
    lines the parser rejects, which do not count, and warns of rejected
    lines only: of every one of them when [cantidad] is +inf. *)
Theorem leer_seccion_primeras (lineas : list cadena) (inicio : Z) :
  0 <= inicio ->
  exists avisos,
    leer_seccion es_espacio parser lineas cantidad inicio
    = Ok (hasta cantidad 0
            (aceptadas parser
               (limpias es_espacio (skipn (Z.to_nat inicio) lineas))),
          avisos)
    /\ (forall l, In l avisos ->
          In l (limpias es_espacio (skipn (Z.to_nat inicio) lineas))
          /\ parser l = None)
    /\ (cantidad = PInf ->
        avisos
        = filter (rechazada parser)
            (limpias es_espacio (skipn (Z.to_nat inicio) lineas))).
Proof.
  intros Hi. unfold leer_seccion.
  destruct (Z.le_gt_cases inicio (Z.of_nat (length lineas))) as [Hl|Hl].
  - destruct (leer_desde_spec lineas (skipn (Z.to_nat inicio) lineas)
                (firstn (Z.to_nat inicio) lineas)
                {| l_datos := []; l_leidos := 0; l_avisos := [] |})
      as (s' & H1 & H2 & H3 & H4).
    { now rewrite firstn_skipn. }
    rewrite length_firstn, Nat.min_l, Z2Nat.id in H1 by lia.
    rewrite H1. cbn [bind l_datos l_leidos l_avisos] in *.
    exists (l_avisos s'). rewrite H2. split; [reflexivity|].
    split; [|exact H4].
    intros l H. destruct (H3 l H) as [[]|H']. exact H'.
  - rewrite rango_nil by lia. cbn [leer_desde bind l_datos l_avisos].
    rewrite skipn_all2 by lia.
    cbn [limpias map filter aceptadas flat_map]. rewrite hasta_nil.
    exists []. split; [reflexivity|]. split; [intros l []|reflexivity].
Qed.

End LeerSeccionProp.

(** X14 on the lines ["1"], ["// x"], ["22"], ["3"], ["4"], with a parser
    that accepts the lines of one character and a count of 2: the values
    of ["1"] and ["3"] are returned, and there is a warning for ["22"]. *)
Lemma leer_seccion_primeras_witness :
  exists avisos,
    leer_seccion espacio_ascii
      (fun l => match l with [c] => Some c | _ => None end)
      [[49; 10]; [47; 47; 32; 120; 10]; [50; 50; 10]; [51; 10]; [52; 10]]%N
      (Fin 2) 0
    = Ok ([49; 51]%N, avisos)
    /\ (forall l, In l avisos ->
          In l [[49]; [50; 50]; [51]; [52]]%N
          /\ match l with [c] => Some c | _ => None end = None)
    /\ (Fin 2 = PInf -> avisos = [[50; 50]]%N).
Proof.
  apply (leer_seccion_primeras espacio_ascii
           (fun l => match l with [c] => Some c | _ => None end)
           (Fin 2)
           [[49; 10]; [47; 47; 32; 120; 10]; [50; 50; 10]; [51; 10];
            [52; 10]]%N 0).
  lia.
Defined.

(** ** The dicts of nodes, hubs and packages *)

Lemma dict_get_app {V : Type} (a b : dict Z V) (k : Z) :
  dict_get (a ++ b) k
  = match dict_get a k with
    | Some v => Some v
    | None => dict_get b k
    end.
Proof.
  induction a as [|[k' v] a IH]; simpl; [reflexivity|].
  destruct (k =? k'); [reflexivity|exact IH].
Qed.

Lemma llenar_get_desde {V : Type} (l : list (Z * V)) (k : Z) :
  forall acc,
    dict_get (fold_left (fun d kv => dict_set d (fst kv) (snd kv)) l acc) k
    = match dict_get (rev l) k with
      | Some v => Some v
      | None => dict_get acc k
      end.
Proof.
  induction l as [|[k' v] l IH]; intros acc; [reflexivity|].
  cbn [fold_left rev fst snd]. rewrite IH, dict_get_app, dict_get_set.
  destruct (dict_get (rev l) k); [reflexivity|].
  simpl. now destruct (k =? k').
Qed.

Lemma llenar_keys_desde {V : Type} (l : list (Z * V)) :
  forall acc,
    dict_keys (fold_left (fun d kv => dict_set d (fst kv) (snd kv)) l acc)
    = dict_keys acc
      ++ filter (fun y => negb (existsb (Z.eqb y) (dict_keys acc)))
           (sin_repetidos (map fst l)).
Proof.
  induction l as [|p l IH]; intros acc.
  - simpl. now rewrite app_nil_r.
  - cbn [fold_left map sin_repetidos filter]. rewrite IH, dict_keys_set.
    set (kp := fst p). set (K := dict_keys acc).
    set (X := sin_repetidos (map fst l)).
    destruct (existsb (Z.eqb kp) K) eqn:E; cbn [negb].
    + f_equal. rewrite filter_filter. apply filter_igual. intros y.
      destruct (Z.eqb_spec y kp) as [->|Hy]; [|reflexivity].
      now rewrite E.
    + rewrite <- app_assoc. cbn [app]. do 2 f_equal.
      rewrite filter_filter. apply filter_igual. intros y.
      rewrite existsb_app. cbn [existsb]. rewrite orb_false_r, negb_orb.
      apply andb_comm.
Qed.

(** X15. The dicts of nodes, hubs and packages are filled line by line:
    an identifier listed more than once keeps the place of its first
    line and the value of its last one.  So the keys are the identifiers
    in the order of their first lines, each once, and the value of a key
    is the one of the last line that lists it. *)
Theorem llenar_primera_clave_ultimo_valor {V : Type} (l : list (Z * V)) :
  (forall k, dict_get (llenar l) k = dict_get (rev l) k)
  /\ dict_keys (llenar l) = sin_repetidos (map fst l)
  /\ NoDup (dict_keys (llenar l)).
Proof.
  assert (Hk : dict_keys (llenar l) = sin_repetidos (map fst l)).
  { unfold llenar. rewrite llenar_keys_desde. simpl. apply filter_todos. }
  split; [|split].
  - intros k. unfold llenar. rewrite llenar_get_desde.
    now destruct (dict_get (rev l) k).
  - exact Hk.
  - rewrite Hk. apply sin_repetidos_NoDup.
Qed.

(** ** The dict of edges *)

Lemma par_eqb_eq (a b : Z * Z) : par_eqb a b = true <-> a = b.
Proof.
  destruct a as [a1 a2], b as [b1 b2]. unfold par_eqb. cbn [fst snd].
  rewrite andb_true_iff, !Z.eqb_eq. split.
  - now intros [-> ->].
  - intros H. injection H as -> ->. auto.
Qed.

Lemma par_eqb_refl (a : Z * Z) : par_eqb a a = true.
Proof. now apply par_eqb_eq. Qed.

Lemma par_eqb_neq (a b : Z * Z) : a <> b -> par_eqb a b = false.
Proof.
  intros H. destruct (par_eqb a b) eqn:E; [|reflexivity].
  now apply par_eqb_eq in E.
Qed.

Lemma dict_get_par_set {V : Type} (d : dict (Z * Z) V) (k k' : Z * Z)
  (v : V) :
  dict_get_par (dict_set_par d k v) k'
  = if par_eqb k' k then Some v else dict_get_par d k'.
Proof.
  induction d as [|[k0 v0] d IH]; [reflexivity|].
  cbn [dict_set_par dict_get_par].
  destruct (par_eqb k k0) eqn:E; cbn [dict_get_par].
  - apply par_eqb_eq in E. subst k0. now destruct (par_eqb k' k).
  - rewrite IH. destruct (par_eqb k' k0) eqn:E'; [|reflexivity].
    apply par_eqb_eq in E'. subst k0.
    destruct (par_eqb k' k) eqn:E''; [|reflexivity].
    apply par_eqb_eq in E''. subst k'. now rewrite par_eqb_refl in E.
Qed.

Lemma dict_get_par_app {V : Type} (a b : dict (Z * Z) V) (k : Z * Z) :
  dict_get_par (a ++ b) k
  = match dict_get_par a k with
    | Some v => Some v
    | None => dict_get_par b k
    end.
Proof.
  induction a as [|[k' v] a IH]; simpl; [reflexivity|].
  destruct (par_eqb k k'); [reflexivity|exact IH].
Qed.

Lemma dict_get_par_None {V : Type} (d : dict (Z * Z) V) (k : Z * Z) :
  dict_get_par d k = None <-> ~ In k (dict_keys d).
Proof.
  induction d as [|[k' v] d IH]; simpl; [tauto|].
  destruct (par_eqb k k') eqn:E.
  - apply par_eqb_eq in E. subst k'. split; [discriminate|tauto].
  - rewrite IH. split; [|tauto]. intros H [H'|H']; [|tauto].
    subst k'. now rewrite par_eqb_refl in E.
Qed.

Lemma dict_get_par_Some {V : Type} (d : dict (Z * Z) V) (k : Z * Z) :
  dict_get_par d k <> None <-> In k (dict_keys d).
Proof.
  induction d as [|[k' v] d IH]; simpl; [tauto|].
  destruct (par_eqb k k') eqn:E.
  - apply par_eqb_eq in E. subst k'. split; [now left|discriminate].
  - rewrite IH. split; [now right|]. intros [H|H]; [|exact H].
    subst k'. now rewrite par_eqb_refl in E.
Qed.

Lemma dict_keys_set_par {V : Type} (d : dict (Z * Z) V) (k : Z * Z) (v : V) :
  dict_keys (dict_set_par d k v)
  = match dict_get_par d k with
    | Some _ => dict_keys d
    | None => dict_keys d ++ [k]
    end.
Proof.
  induction d as [|[k' v'] d IH]; [reflexivity|].
  cbn [dict_set_par dict_get_par].
  destruct (par_eqb k k'); [reflexivity|].
  unfold dict_keys in *. cbn [map fst]. rewrite IH.
  now destruct (dict_get_par d k).
Qed.

Lemma dict_set_par_NoDup {V : Type} (d : dict (Z * Z) V) (k : Z * Z)
  (v : V) :
  NoDup (dict_keys d) -> NoDup (dict_keys (dict_set_par d k v)).
Proof.
  intros H. rewrite dict_keys_set_par.
  destruct (dict_get_par d k) eqn:E; [exact H|].
  apply dict_get_par_None in E.
  apply NoDup_app; [exact H|repeat constructor; intros []|].
  intros x Hx [<-|[]]. contradiction.
Qed.

Lemma guardar_arista_NoDup (d : dict (Z * Z) num) (a : (Z * Z) * num) :
  NoDup (dict_keys d) -> NoDup (dict_keys (guardar_arista d a)).
Proof.
  intros H. unfold guardar_arista.
  destruct (dict_get_par _ _); repeat apply dict_set_par_NoDup; exact H.
Qed.

Lemma llenar_aristas_snoc (l : list ((Z * Z) * num)) (a : (Z * Z) * num) :
  llenar_aristas (l ++ [a]) = guardar_arista (llenar_aristas l) a.
Proof. unfold llenar_aristas. now rewrite fold_left_app. Qed.

Lemma intercambiar_inv (k : Z * Z) : intercambiar (intercambiar k) = k.
Proof. now destruct k. Qed.

Lemma guardar_arista_get (d : dict (Z * Z) num) (a : (Z * Z) * num)
  (k : Z * Z) :
  dict_get_par (guardar_arista d a) k
  = if par_eqb k (fst a) then Some (snd a)
    else match dict_get_par d k with
         | Some w => Some w
         | None => if par_eqb k (intercambiar (fst a)) then Some (snd a)
                   else None
         end.
Proof.
  unfold guardar_arista.
  change (snd (fst a), fst (fst a)) with (intercambiar (fst a)).
  destruct (dict_get_par (dict_set_par d (fst a) (snd a))
              (intercambiar (fst a))) eqn:E;
    rewrite dict_get_par_set in E; rewrite !dict_get_par_set.
  - destruct (par_eqb k (fst a)) eqn:Ek; [reflexivity|].
    destruct (dict_get_par d k) eqn:Ed; [reflexivity|].
    destruct (par_eqb k (intercambiar (fst a))) eqn:Ei; [|reflexivity].
    apply par_eqb_eq in Ei. subst k. rewrite Ek, Ed in E. discriminate.
  - destruct (par_eqb (intercambiar (fst a)) (fst a)) eqn:Es;
      [discriminate|].
    destruct (par_eqb k (intercambiar (fst a))) eqn:Ei.
    + apply par_eqb_eq in Ei. subst k. now rewrite Es, E.
    + destruct (par_eqb k (fst a)); [reflexivity|].
      now destruct (dict_get_par d k).
Qed.

Lemma llenar_aristas_get (l : list ((Z * Z) * num)) (k : Z * Z) :
  dict_get_par (llenar_aristas l) k
  = match dict_get_par (rev l) k with
    | Some w => Some w
    | None => dict_get_par l (intercambiar k)
    end.
Proof.
  induction l as [|a l IH] using rev_ind; [reflexivity|].
  rewrite llenar_aristas_snoc, guardar_arista_get, IH.
  rewrite (dict_get_par_app l [a]), rev_app_distr.
  destruct a as [ka w]. cbn [rev app dict_get_par fst snd].
  destruct (par_eqb k ka); [reflexivity|].
  destruct (dict_get_par (rev l) k); [reflexivity|].
  destruct (dict_get_par l (intercambiar k)); [reflexivity|].
  destruct (par_eqb k (intercambiar ka)) eqn:E.
  - apply par_eqb_eq in E. subst k.
    now rewrite intercambiar_inv, par_eqb_refl.
  - rewrite par_eqb_neq; [reflexivity|].
    intros H. rewrite <- H, intercambiar_inv, par_eqb_refl in E.
    discriminate.
Qed.

Lemma llenar_aristas_NoDup (l : list ((Z * Z) * num)) :
  NoDup (dict_keys (llenar_aristas l)).
Proof.
  induction l as [|a l IH] using rev_ind; [constructor|].
  rewrite llenar_aristas_snoc. now apply guardar_arista_NoDup.
Qed.

Lemma dict_keys_rev {K V : Type} (d : dict K V) (k : K) :
  In k (dict_keys (rev d)) <-> In k (dict_keys d).
Proof. unfold dict_keys. rewrite map_rev. symmetry. apply in_rev. Qed.

(** X16. The dict of edges is filled from the edges read, each stored
    for its pair and, when the reversed pair is no key yet, for the
    reversed pair too.  Its keys are distinct; a pair is a key exactly
    when it is read in one direction or the other, so the keys are
    closed under reversal; and the weight of a pair is the one of the
    last line that lists it or, when no line lists it, the one of the
    first line that lists the reversed pair. *)
Theorem llenar_aristas_simetrico (l : list ((Z * Z) * num)) :
  NoDup (dict_keys (llenar_aristas l))
  /\ (forall u v,
        In (u, v) (dict_keys (llenar_aristas l))
        <-> In (u, v) (map fst l) \/ In (v, u) (map fst l))
  /\ (forall u v,
        In (u, v) (dict_keys (llenar_aristas l))
        <-> In (v, u) (dict_keys (llenar_aristas l)))
  /\ (forall k,
        dict_get_par (llenar_aristas l) k
        = match dict_get_par (rev l) k with
          | Some w => Some w
          | None => dict_get_par l (intercambiar k)
          end).
Proof.
  assert (Hk : forall u v,
             In (u, v) (dict_keys (llenar_aristas l))
             <-> In (u, v) (map fst l) \/ In (v, u) (map fst l)).
  { intros u v. change (map fst l) with (dict_keys l).
    rewrite <- (dict_keys_rev l (u, v)).
    rewrite <- !dict_get_par_Some, llenar_aristas_get.
    change (intercambiar (u, v)) with (v, u).
    destruct (dict_get_par (rev l) (u, v)).
    - split; [left|]; discriminate.
    - split; [now right|]. intros [H|H]; [now destruct H|exact H]. }
  split; [apply llenar_aristas_NoDup|]. split; [exact Hk|].
  split; [|apply llenar_aristas_get].
  intros u v. rewrite (Hk u v), (Hk v u). tauto.
Qed.

(** ** The weight that [floyd_warshall] reads for a pair of nodes *)

Lemma une_clave (a : (Z * Z) * num) (u v : Z) :
  une a u v = true <-> fst a = (u, v) \/ fst a = (v, u).
Proof.
  destruct a as [[x y] w]. unfold une. cbn [fst snd].
  rewrite orb_true_iff, !andb_true_iff, !Z.eqb_eq. split.
  - intros [[-> ->]|[-> ->]]; auto.
  - intros [H|H]; injection H as -> ->; auto.
Qed.

Lemma une_misma_clave (a b : (Z * Z) * num) (u v : Z) :
  fst a = fst b -> une a u v = une b u v.
Proof. unfold une. now intros ->. Qed.

Lemma une_inversa (k : Z * Z) (w w' : num) (u v : Z) :
  une (intercambiar k, w) u v = une (k, w') u v.
Proof.
  destruct k as [x y]. unfold une, intercambiar. cbn [fst snd].
  rewrite orb_comm. f_equal; apply andb_comm.
Qed.

Lemma peso_arista_ultima (d : dict (Z * Z) num) (u v : Z) :
  peso_arista d u v
  = match rev (filter (fun e => une e u v) d) with
    | [] => None
    | e :: _ => Some (snd e)
    end.
Proof.
  induction d as [|a d IH] using rev_ind; [reflexivity|].
  rewrite peso_arista_snoc, filter_app. cbn [filter].
  destruct (une a u v).
  - now rewrite rev_app_distr.
  - now rewrite app_nil_r.
Qed.

Section ParDeNodos.

Variables u v : Z.

Let P (e : (Z * Z) * num) : bool := une e u v.

Lemma filtro_set_par (d : dict (Z * Z) num) (k : Z * Z) (w : num) :
  filter P (dict_set_par d k w)
  = if P (k, w) then dict_set_par (filter P d) k w else filter P d.
Proof.
  induction d as [|[k' w'] d IH].
  - cbn [dict_set_par filter]. now destruct (P (k, w)).
  - cbn [dict_set_par]. destruct (par_eqb k k') eqn:E.
    + apply par_eqb_eq in E. subst k'. cbn [filter].
      assert (Hp : P (k, w') = P (k, w))
        by now apply une_misma_clave.
      rewrite Hp. destruct (P (k, w)); [|reflexivity].
      cbn [dict_set_par]. now rewrite par_eqb_refl.
    + cbn [filter]. rewrite IH.
      destruct (P (k', w')), (P (k, w)); try reflexivity.
      cbn [dict_set_par]. now rewrite E.
Qed.

Lemma filtro_get_par (d : dict (Z * Z) num) (k : Z * Z) :
  (forall w, P (k, w) = true) ->
  dict_get_par (filter P d) k = dict_get_par d k.
Proof.
  intros Hk. induction d as [|[k' w'] d IH]; [reflexivity|].
  cbn [filter dict_get_par].
  destruct (par_eqb k k') eqn:E.
  - apply par_eqb_eq in E. subst k'. rewrite Hk. cbn [dict_get_par].
    now rewrite par_eqb_refl.
  - destruct (P (k', w')); [|exact IH]. cbn [dict_get_par].
    now rewrite E.
Qed.

Lemma filtro_guardar (d : dict (Z * Z) num) (a : (Z * Z) * num) :
  filter P (guardar_arista d a)
  = if P a then guardar_arista (filter P d) a else filter P d.
Proof.
  unfold guardar_arista.
  change (snd (fst a), fst (fst a)) with (intercambiar (fst a)).
  assert (Hi : P (intercambiar (fst a), snd a) = P a).
  { destruct a as [k w]. apply une_inversa. }
  assert (Ha : P (fst a, snd a) = P a) by now destruct a.
  destruct (P a) eqn:Pa.
  - assert (Hg : dict_get_par
                   (dict_set_par (filter P d) (fst a) (snd a))
                   (intercambiar (fst a))
                 = dict_get_par (dict_set_par d (fst a) (snd a))
                     (intercambiar (fst a))).
    { rewrite <- (filtro_get_par (dict_set_par d _ _)).
      - now rewrite filtro_set_par, Ha.
      - intros w. unfold P. rewrite (une_inversa _ w (snd a)).
        now rewrite <- Ha in Pa. }
    rewrite Hg.
    destruct (dict_get_par (dict_set_par d (fst a) (snd a))
                (intercambiar (fst a))).
    + now rewrite filtro_set_par, Ha.
    + now rewrite !filtro_set_par, Hi, Ha.
  - destruct (dict_get_par _ _).
    + now rewrite filtro_set_par, Ha.
    + now rewrite !filtro_set_par, Hi, Ha.
Qed.

Lemma filtro_llenar_desde (l : list ((Z * Z) * num)) :
  forall acc,
    filter P (fold_left guardar_arista l acc)
    = fold_left guardar_arista (filter P l) (filter P acc).
Proof.
  induction l as [|a l IH]; intros acc; [reflexivity|].
  cbn [fold_left filter]. rewrite IH, filtro_guardar.
  now destruct (P a).
Qed.

End ParDeNodos.

Lemma una_clave (a : Z) (resto : list ((Z * Z) * num)) :
  forall x,
    (forall e, In e resto -> fst e = (a, a)) ->
    fold_left guardar_arista resto [((a, a), x)]
    = [((a, a), match dict_get_par (rev resto) (a, a) with
                | Some w => w
                | None => x
                end)].
Proof.
  induction resto as [|[k w] resto IH]; intros x H; [reflexivity|].
  assert (Hk : k = (a, a)) by apply (H (k, w)), in_eq. subst k.
  cbn [fold_left rev]. rewrite dict_get_par_app.
  assert (E : guardar_arista [((a, a), x)] ((a, a), w) = [((a, a), w)]).
  { unfold guardar_arista.
    do 3 (cbn [fst snd dict_set_par dict_get_par];
          rewrite ?par_eqb_refl).
    reflexivity. }
  rewrite E, IH by (intros e He; apply H; now right).
  cbn [dict_get_par]. rewrite par_eqb_refl.
  now destruct (dict_get_par (rev resto) (a, a)).
Qed.

Lemma dos_claves (a b : Z) (resto : list ((Z * Z) * num)) :
  a <> b ->
  forall x y,
    (forall e, In e resto -> fst e = (a, b) \/ fst e = (b, a)) ->
    exists x',
      fold_left guardar_arista resto [((a, b), x); ((b, a), y)]
      = [((a, b), x');
         ((b, a), match dict_get_par (rev resto) (b, a) with
                  | Some w => w
                  | None => y
                  end)].
Proof.
  intros Hab.
  assert (N1 : par_eqb (a, b) (b, a) = false)
    by (apply par_eqb_neq; congruence).
  assert (N2 : par_eqb (b, a) (a, b) = false)
    by (apply par_eqb_neq; congruence).
  induction resto as [|[k w] resto IH]; intros x y H; [simpl; eauto|].
  cbn [fold_left rev]. rewrite dict_get_par_app. cbn [dict_get_par].
  destruct (H (k, w) (in_eq _ _)) as [Hk|Hk]; cbn [fst] in Hk; subst k.
  - assert (E : guardar_arista [((a, b), x); ((b, a), y)] ((a, b), w)
                = [((a, b), w); ((b, a), y)]).
    { unfold guardar_arista.
      do 4 (cbn [fst snd dict_set_par dict_get_par];
            rewrite ?par_eqb_refl, ?N1, ?N2).
      reflexivity. }
    rewrite E. destruct (IH w y) as [x' ->];
      [intros e He; apply H; now right|].
    exists x'. rewrite N2.
    now destruct (dict_get_par (rev resto) (b, a)).
  - assert (E : guardar_arista [((a, b), x); ((b, a), y)] ((b, a), w)
                = [((a, b), x); ((b, a), w)]).
    { unfold guardar_arista.
      do 4 (cbn [fst snd dict_set_par dict_get_par];
            rewrite ?par_eqb_refl, ?N1, ?N2).
      reflexivity. }
    rewrite E. destruct (IH x w) as [x' ->];
      [intros e He; apply H; now right|].
    exists x'. rewrite par_eqb_refl.
    now destruct (dict_get_par (rev resto) (b, a)).
Qed.

Lemma find_filter {A : Type} (p : A -> bool) (l : list A) :
  find p l = match filter p l with [] => None | x :: _ => Some x end.
Proof.
  induction l as [|x l IH]; simpl; [reflexivity|].
  now destruct (p x).
Qed.

Lemma filter_rev {A : Type} (p : A -> bool) (l : list A) :
  filter p (rev l) = rev (filter p l).
Proof.
  induction l as [|x l IH]; simpl; [reflexivity|].
  rewrite filter_app, IH. simpl. destruct (p x); simpl;
    [reflexivity|apply app_nil_r].
Qed.

(** X17. The weight that [floyd_warshall] reads for a pair of nodes from
    the dict of edges filled by [leer_datos], when the file lists the
    pair more than once: the last weight listed in the direction
    opposite to that of its first line, and the weight of its first line
    when no line lists it in the opposite direction.  The later lines in
    the direction of the first one are ignored. *)
Theorem peso_de_aristas_repetidas (l : list ((Z * Z) * num)) (u v : Z) :
  peso_arista (llenar_aristas l) u v
  = match find (fun e => une e u v) l with
    | None => None
    | Some e =>
        match dict_get_par (rev l) (intercambiar (fst e)) with
        | Some w => Some w
        | None => Some (snd e)
        end
    end.
Proof.
  rewrite peso_arista_ultima, find_filter.
  unfold llenar_aristas. rewrite filtro_llenar_desde. cbn [filter].
  assert (Hg : forall k, (forall w, une (k, w) u v = true) ->
                 dict_get_par (rev l) k
                 = dict_get_par
                     (rev (filter (fun e => une e u v) l)) k).
  { intros k Hk. rewrite <- filter_rev. symmetry.
    now apply filtro_get_par. }
  assert (Hf : forall e, In e (filter (fun e => une e u v) l) ->
                         une e u v = true).
  { intros e He. now apply filter_In in He. }
  destruct (filter (fun e => une e u v) l) as [|[[a b] w1] resto];
    [reflexivity|].
  assert (H1 : une ((a, b), w1) u v = true) by apply Hf, in_eq.
  rewrite (Hg (intercambiar (fst ((a, b), w1)))).
  2:{ intros w. now rewrite (une_inversa _ w w1). }
  cbn [fst snd intercambiar rev fold_left]. rewrite dict_get_par_app.
  cbn [dict_get_par].
  assert (Hr : forall e, In e resto ->
                         fst e = (a, b) \/ fst e = (b, a)).
  { intros e He. assert (H := Hf e (or_intror He)).
    apply une_clave in H. apply une_clave in H1. cbn [fst] in H1.
    destruct H1 as [H1|H1]; injection H1 as -> ->; tauto. }
  destruct (Z.eq_dec a b) as [->|Hab].
  - assert (E : guardar_arista [] ((b, b), w1) = [((b, b), w1)]).
    { unfold guardar_arista.
      do 2 (cbn [fst snd dict_set_par dict_get_par];
            rewrite ?par_eqb_refl).
      reflexivity. }
    rewrite E, una_clave by (intros e He; destruct (Hr e He); auto).
    unfold intercambiar. cbn [fst snd filter rev app].
    rewrite ?par_eqb_refl.
    now destruct (dict_get_par (rev resto) (b, b)).
  - assert (E : guardar_arista [] ((a, b), w1)
                = [((a, b), w1); ((b, a), w1)]).
    { unfold guardar_arista.
      do 3 (cbn [fst snd dict_set_par dict_get_par];
            rewrite ?(par_eqb_neq (b, a) (a, b)) by congruence).
      reflexivity. }
    rewrite E. destruct (dos_claves a b resto Hab w1 w1 Hr) as [x' ->].
    unfold intercambiar. cbn [fst snd filter rev app].
    rewrite ?(par_eqb_neq (b, a) (a, b)) by congruence.
    now destruct (dict_get_par (rev resto) (b, a)).
Qed.

(** ** The section headers *)

Lemma en_guiones_cons (c1 c2 c3 : caracter) (t : cadena) :
  en_guiones (c1 :: c2 :: c3 :: t)
  = tres_guiones c1 c2 c3 || en_guiones (c2 :: c3 :: t).
Proof. reflexivity. Qed.

Lemma split_guiones_cons (c1 c2 c3 : caracter) (t actual : cadena) :
  split_guiones (c1 :: c2 :: c3 :: t) actual
  = if tres_guiones c1 c2 c3 then actual :: split_guiones t []
    else split_guiones (c2 :: c3 :: t) (actual ++ [c1]).
Proof. reflexivity. Qed.

Lemma split_guiones_no_vacio (s : cadena) :
  forall actual, exists a r, split_guiones s actual = a :: r.
Proof.
  assert (H : forall n s, (length s <= n)%nat ->
                forall actual, exists a r, split_guiones s actual = a :: r).
  { clear s. induction n as [|n IH]; intros s Hn actual.
    - destruct s; [simpl; eauto|simpl in Hn; lia].
    - destruct s as [|c1 [|c2 [|c3 t]]]; try (simpl; eauto; fail).
      rewrite split_guiones_cons.
      destruct (tres_guiones c1 c2 c3); [eauto|].
      apply IH. simpl in *. lia. }
  intros actual. now apply (H (length s)).
Qed.

Lemma split_guiones_dos (s : cadena) :
  forall actual,
    en_guiones s = true ->
    exists a b r, split_guiones s actual = a :: b :: r.
Proof.
  induction s as [|c1 r IH]; intros actual H; [discriminate|].
  destruct r as [|c2 [|c3 t]]; try discriminate.
  rewrite en_guiones_cons in H. rewrite split_guiones_cons.
  destruct (tres_guiones c1 c2 c3).
  - destruct (split_guiones_no_vacio t []) as (b & r & ->). eauto.
  - now apply IH.
Qed.

Lemma cadena_eqb_eq (a b : cadena) : cadena_eqb a b = true <-> a = b.
Proof.
  revert b; induction a as [|x a IH]; intros [|y b]; simpl;
    try (split; [discriminate|discriminate]); [tauto|].
  rewrite andb_true_iff, N.eqb_eq, IH. split.
  - now intros [-> ->].
  - intros H. injection H as -> ->. auto.
Qed.

Lemma cadena_eqb_refl (a : cadena) : cadena_eqb a a = true.
Proof. now apply cadena_eqb_eq. Qed.

Lemma dict_get_cad_set {V : Type} (d : dict cadena V) (k k' : cadena)
  (v : V) :
  dict_get_cad (dict_set_cad d k v) k'
  = if cadena_eqb k' k then Some v else dict_get_cad d k'.
Proof.
  induction d as [|[k0 v0] d IH]; [reflexivity|].
  cbn [dict_set_cad dict_get_cad].
  destruct (cadena_eqb k k0) eqn:E; cbn [dict_get_cad].
  - apply cadena_eqb_eq in E. subst k0. now destruct (cadena_eqb k' k).
  - rewrite IH. destruct (cadena_eqb k' k0) eqn:E'; [|reflexivity].
    apply cadena_eqb_eq in E'. subst k0.
    destruct (cadena_eqb k' k) eqn:E''; [|reflexivity].
    apply cadena_eqb_eq in E''. subst k'. now rewrite cadena_eqb_refl in E.
Qed.

Lemma dict_get_cad_app {V : Type} (a b : dict cadena V) (k : cadena) :
  dict_get_cad (a ++ b) k
  = match dict_get_cad a k with
    | Some v => Some v
    | None => dict_get_cad b k
    end.
Proof.
  induction a as [|[k' v] a IH]; simpl; [reflexivity|].
  destruct (cadena_eqb k k'); [reflexivity|exact IH].
Qed.

Lemma dict_get_cad_In {V : Type} (d : dict cadena V) (k : cadena) (v : V) :
  dict_get_cad d k = Some v -> In (k, v) d.
Proof.
  induction d as [|[k' v'] d IH]; simpl; [discriminate|].
  destruct (cadena_eqb k k') eqn:E; [|auto].
  apply cadena_eqb_eq in E. subst k'. intros H. injection H as ->. now left.
Qed.

Lemma llenar_cad_get {V : Type} (l : list (cadena * V)) (k : cadena) :
  forall acc,
    dict_get_cad
      (fold_left (fun d kv => dict_set_cad d (fst kv) (snd kv)) l acc) k
    = match dict_get_cad (rev l) k with
      | Some v => Some v
      | None => dict_get_cad acc k
      end.
Proof.
  induction l as [|[k' v] l IH]; intros acc; [reflexivity|].
  cbn [fold_left rev fst snd].
  rewrite IH, dict_get_cad_app, dict_get_cad_set.
  destruct (dict_get_cad (rev l) k); [reflexivity|].
  simpl. now destruct (cadena_eqb k k').
Qed.

Lemma range_rango (n : Z) : range n = rango 0 n.
Proof.
  unfold range, rango. rewrite Z.sub_0_r. apply map_ext. intros k. lia.
Qed.

Section SeccionesProp.

Variable es_espacio : caracter -> bool.
Variable mayusculas : cadena -> cadena.

Lemma forallb_rev (s : cadena) :
  forallb es_espacio (rev s) = forallb es_espacio s.
Proof.
  induction s as [|c s IH]; [reflexivity|].
  simpl. rewrite forallb_app, IH. simpl.
  rewrite andb_true_r. apply andb_comm.
Qed.

Lemma lstrip_en_blanco (s : cadena) :
  forallb es_espacio (lstrip es_espacio s) = forallb es_espacio s.
Proof.
  induction s as [|c s IH]; [reflexivity|].
  simpl. destruct (es_espacio c) eqn:E; [exact IH|].
  simpl. now rewrite E.
Qed.

Lemma strip_en_blanco (s : cadena) :
  forallb es_espacio (strip es_espacio s) = forallb es_espacio s.
Proof.
  unfold strip, rstrip.
  now rewrite forallb_rev, lstrip_en_blanco, forallb_rev, lstrip_en_blanco.
Qed.

Lemma palabras_desde_vacio (s : cadena) :
  forall actual,
    palabras_desde es_espacio s actual = []
    <-> actual = [] /\ forallb es_espacio s = true.
Proof.
  induction s as [|c s IH]; intros actual.
  - simpl. destruct actual; split; try tauto; try discriminate.
    now intros [H _].
  - simpl. destruct (es_espacio c); simpl.
    + destruct actual.
      * rewrite IH. tauto.
      * split; [discriminate|]. now intros [H _].
    + rewrite IH. split; [|now intros [_ H]].
      intros [H _]. now destruct actual.
Qed.

Lemma primera_palabra (p : cadena) :
  py_getitem (split_espacios es_espacio (strip es_espacio p)) 0
  = if forallb es_espacio p then Lanza IndexError
    else Ok (hd [] (split_espacios es_espacio (strip es_espacio p))).
Proof.
  assert (H := palabras_desde_vacio (strip es_espacio p) []).
  rewrite strip_en_blanco in H. unfold split_espacios.
  destruct (forallb es_espacio p).
  - now rewrite (proj2 H).
  - destruct (palabras_desde es_espacio (strip es_espacio p) []);
      [|reflexivity].
    now destruct (proj1 H eq_refl).
Qed.

Lemma detectar_linea_spec (secc : dict cadena Z) (i : Z) (linea : cadena) :
  detectar_linea es_espacio mayusculas secc (i, linea)
  = match titulo linea with
    | None => Ok secc
    | Some p =>
        if forallb es_espacio p then Lanza IndexError
        else Ok (dict_set_cad secc
                   (nombre_seccion es_espacio mayusculas p) (i + 1))
    end.
Proof.
  unfold detectar_linea, titulo, nombre_seccion. cbn [fst snd].
  destruct (en_guiones linea) eqn:E; [|reflexivity].
  destruct (split_guiones_dos linea [] E) as (a & b & r & ->).
  cbn [length nth_error].
  change 1 with (Z.of_nat 1).
  rewrite (py_getitem_nat (a :: b :: r) 1 b eq_refl). cbn [bind].
  rewrite primera_palabra. now destruct (forallb es_espacio b).
Qed.

Lemma detectar_desde (ls : list cadena) :
  forall k acc,
    for_each (detectar_linea es_espacio mayusculas)
      (combine (rango k (k + Z.of_nat (length ls))) ls) acc
    = if existsb (sin_nombre es_espacio) ls then Lanza IndexError
      else Ok (fold_left (fun d kv => dict_set_cad d (fst kv) (snd kv))
                 (cabeceras_de es_espacio mayusculas
                    (combine (rango k (k + Z.of_nat (length ls))) ls))
                 acc).
Proof.
  induction ls as [|l ls IH]; intros k acc.
  - now rewrite Z.add_0_r, rango_nil by lia.
  - rewrite rango_cons by (simpl length; lia).
    replace (k + Z.of_nat (length (l :: ls)))
      with ((k + 1) + Z.of_nat (length ls)) by (simpl length; lia).
    cbn [combine for_each existsb cabeceras_de flat_map fst snd].
    rewrite detectar_linea_spec. unfold sin_nombre at 1.
    destruct (titulo l) as [p|]; [destruct (forallb es_espacio p)|];
      cbn [bind orb app fold_left fst snd]; try reflexivity; apply IH.
Qed.

Lemma cabeceras_indices (ls : list cadena) :
  forall k nombre i,
    In (nombre, i)
       (cabeceras_de es_espacio mayusculas
          (combine (rango k (k + Z.of_nat (length ls))) ls)) ->
    k + 1 <= i <= k + Z.of_nat (length ls).
Proof.
  induction ls as [|l ls IH]; intros k nombre i H.
  - rewrite Z.add_0_r, rango_nil in H by lia. destruct H.
  - rewrite rango_cons in H by (simpl length; lia).
    replace (k + Z.of_nat (length (l :: ls)))
      with ((k + 1) + Z.of_nat (length ls)) in * by (simpl length; lia).
    cbn [combine cabeceras_de flat_map fst snd] in H.
    apply in_app_iff in H. destruct H as [H|H].
    + destruct (titulo l); [|destruct H].
      destruct H as [H|[]]. injection H as _ <-. lia.
    + apply IH in H. lia.
Qed.

(** X18. The scan for section headers looks, in every line that holds
    "---", at the text between its first "---" and the next one.  When
    that text of some line is blank, as in a line of dashes, the scan
    raises [IndexError].  Otherwise it returns the dict that gives, for
    the first word of that text in upper case, the index of the line
    after the last header of that name; every index recorded lies
    between 1 and the number of lines. *)
Theorem detectar_secciones_cabeceras (lineas : list cadena) :
  (existsb (sin_nombre es_espacio) lineas = true ->
   detectar_secciones es_espacio mayusculas lineas = Lanza IndexError)
  /\ (existsb (sin_nombre es_espacio) lineas = false ->
      exists secc,
        detectar_secciones es_espacio mayusculas lineas = Ok secc
        /\ (forall nombre,
              dict_get_cad secc nombre
              = dict_get_cad
                  (rev (cabeceras es_espacio mayusculas lineas)) nombre)
        /\ (forall nombre i,
              dict_get_cad secc nombre = Some i ->
              1 <= i <= Z.of_nat (length lineas))).
Proof.
  assert (H := detectar_desde lineas 0 []).
  unfold detectar_secciones, cabeceras, enumerate.
  rewrite range_rango. cbn [Z.add] in H.
  destruct (existsb (sin_nombre es_espacio) lineas).
  - split; [intros _; exact H|discriminate].
  - split; [discriminate|intros _].
    eexists. split; [exact H|].
    assert (Hg : forall nombre,
               dict_get_cad
                 (fold_left (fun d kv => dict_set_cad d (fst kv) (snd kv))
                    (cabeceras_de es_espacio mayusculas
                       (combine (rango 0 (Z.of_nat (length lineas)))
                          lineas)) []) nombre
               = dict_get_cad
                   (rev (cabeceras_de es_espacio mayusculas
                           (combine (rango 0 (Z.of_nat (length lineas)))
                              lineas))) nombre).
    { intros nombre. rewrite llenar_cad_get.
      now destruct (dict_get_cad _ nombre). }
    split; [exact Hg|].
    intros nombre i Hi. rewrite Hg in Hi.
    apply dict_get_cad_In, in_rev in Hi.
    apply (cabeceras_indices lineas 0) in Hi. lia.
Qed.

End SeccionesProp.

(** X18 on a line of six dashes, which raises, and on the header
    ["--- ab ---"] after one line, recorded with the index 2. *)
Lemma detectar_secciones_cabeceras_witness :
  detectar_secciones espacio_ascii (fun s => s)
    [[49]; [45; 45; 45; 45; 45; 45]]%N
  = Lanza IndexError
  /\ exists secc,
       detectar_secciones espacio_ascii (fun s => s)
         [[49]; [45; 45; 45; 32; 97; 98; 32; 45; 45; 45]]%N
       = Ok secc
       /\ (forall nombre,
             dict_get_cad secc nombre
             = dict_get_cad
                 (rev (cabeceras espacio_ascii (fun s => s)
                         [[49]; [45; 45; 45; 32; 97; 98; 32; 45; 45; 45]]%N))
                 nombre)
       /\ (forall nombre i,
             dict_get_cad secc nombre = Some i ->
             1 <= i <= Z.of_nat
                         (length
                            [[49];
                             [45; 45; 45; 32; 97; 98; 32; 45; 45; 45]]%N)).
Proof.
  split.
  - apply (detectar_secciones_cabeceras espacio_ascii (fun s => s)
             [[49]; [45; 45; 45; 45; 45; 45]]%N).
    reflexivity.
  - apply (detectar_secciones_cabeceras espacio_ascii (fun s => s)
             [[49]; [45; 45; 45; 32; 97; 98; 32; 45; 45; 45]]%N).
    reflexivity.
Defined.

(** ** When the computation returns *)

Lemma evaluar_viaje_ok (n : nat) (m : matrix) (dep : Z)
  (activos viaje : list Z) :
  dims n m -> en_rango n dep ->
  (forall h, In h activos -> en_rango n h) ->
  (forall x, In x viaje -> en_rango n x) -> viaje <> [] ->
  exists r, evaluar_viaje m dep activos viaje = Ok r.
Proof.
  intros Hd Hdep Hact Hv Hne. unfold evaluar_viaje.
  destruct (for_each_inv (fun _ => True) (probar_inicio m dep viaje)
              ([dep] ++ activos)) with (s := (PInf, dep))
    as (r & E & _); [|exact I|eauto].
  intros s p Hp _. unfold probar_inicio.
  assert (Hpr : en_rango n p)
    by (destruct Hp as [<-|Hp]; [exact Hdep|now apply Hact]).
  rewrite (distancia_desde_spec n m dep viaje p Hd Hdep Hpr Hv Hne).
  cbn [bind]. eauto.
Qed.

Lemma recorrer_viajes_ok (n : nat) (m : matrix) (dep : Z)
  (activos : list Z) (vs : list (list Z)) :
  dims n m -> en_rango n dep ->
  (forall h, In h activos -> en_rango n h) ->
  (forall v, In v vs -> v <> [] /\ forall x, In x v -> en_rango n x) ->
  exists r, recorrer_viajes m dep activos vs = Ok r.
Proof.
  intros Hd Hdep Hact Hvs. unfold recorrer_viajes.
  destruct (for_each_inv (fun _ => True)
              (fun acc viaje =>
                 x <- evaluar_viaje m dep activos viaje ;;
                 Ok (add (fst acc) (fst x),
                     snd acc ++ [snd x] ++ viaje ++ [dep]))
              vs) with (s := (Fin 0, [dep]))
    as (r & E & _); [|exact I|eauto].
  intros s v Hv _. destruct (Hvs v Hv) as [Hne Hr].
  destruct (evaluar_viaje_ok n m dep activos v Hd Hdep Hact Hr Hne)
    as [x ->].
  cbn [bind]. eauto.
Qed.

Lemma calcular_mejor_camino_ok (n : nat) (dat : datos) (m : matrix)
  (fuel : nat) :
  dims n m -> en_rango n (deposito dat) ->
  (forall h, In h (hubs dat) -> en_rango n h) ->
  (forall ip, In ip (d_paquetes dat) -> en_rango n (destino (snd ip))) ->
  primer_destino_cabe (paquetes_por_destino dat) (capacidad dat) ->
  (length (hubs dat) <= fuel)%nat ->
  exists r, calcular_mejor_camino dat m fuel = Ok r.
Proof.
  intros Hd Hdep Hh Hp Hc Hf. unfold calcular_mejor_camino.
  rewrite buscar_spec by exact Hf.
  destruct (map_res_all (evaluar dat m)
              (hojas_desde dat (hubs dat) [] (Fin 0))) as [es ->];
    [|cbn [bind]; eauto].
  intros hc Hhc. unfold evaluar, evaluar_hoja.
  destruct (agrupar_viajes_spec (paquetes_por_destino dat) (capacidad dat))
    as (vs & -> & Hk & Hne).
  cbn [bind].
  destruct (recorrer_viajes_ok n m (deposito dat) (fst hc) vs Hd Hdep)
    as [[d r] ->]; [| |cbn [bind]; eauto].
  - intros h Hi.
    destruct (hojas_desde_In dat _ _ _ hc Hhc h Hi) as [[]|H].
    now apply Hh.
  - intros v Hv. split; [now apply Hne|].
    intros x Hx.
    assert (Hx' : In x (dict_keys (paquetes_por_destino dat))).
    { rewrite <- Hk. apply in_concat. eauto. }
    unfold paquetes_por_destino in Hx'.
    rewrite contar_destinos_orden, sin_repetidos_In, in_map_iff in Hx'.
    destruct Hx' as (ip & <- & Hip). now apply Hp.
Qed.

(** X19. The computation from the case read returns, with no exception,
    when the nodes of every edge lie between [-N] and [N - 1] for the
    node count [N], the depot, the hubs and the destinations of the
    packages are nodes from 0 to [N - 1], and the packages of the first
    destination fit in the truck.  The weights and the hub costs play no
    part in this. *)
Theorem resolver_devuelve (dat : datos) (fuel : nat) :
  let n := Z.to_nat (num_nodos (d_configuracion dat)) in
  forallb (arista_en_limites n) (d_aristas dat) = true ->
  en_rango n (deposito dat) ->
  (forall h, In h (hubs dat) -> en_rango n h) ->
  (forall ip, In ip (d_paquetes dat) -> en_rango n (destino (snd ip))) ->
  primer_destino_cabe (paquetes_por_destino dat) (capacidad dat) ->
  (length (hubs dat) <= fuel)%nat ->
  exists ruta hs costo distancia costo_solo_hubs,
    resolver fuel dat = Ok (ruta, hs, costo, distancia, costo_solo_hubs).
Proof.
  intros n Ha Hdep Hh Hp Hc Hf. unfold resolver.
  assert (H := floyd_warshall_limites (d_aristas dat)
                 (num_nodos (d_configuracion dat))).
  fold n in H. rewrite Ha in H. destruct H as (dist & -> & Hd).
  cbn [bind].
  destruct (calcular_mejor_camino_ok n dat dist fuel Hd Hdep Hh Hp Hc Hf)
    as [[[[[ruta hs] c] d] ch] ->].
  eauto 6.
Qed.

(** X19 on the case of four nodes with a hub at node 1. *)
Lemma resolver_devuelve_witness :
  exists ruta hs costo distancia costo_solo_hubs,
    resolver 1 caso_hub = Ok (ruta, hs, costo, distancia, costo_solo_hubs).
Proof.
  apply (resolver_devuelve caso_hub 1).
  - reflexivity.
  - unfold en_rango, deposito. simpl. lia.
  - intros h H. simpl in H. destruct H as [<-|[]].
    unfold en_rango. simpl. lia.
  - intros ip H. simpl in H.
    repeat (destruct H as [<-|H]; [unfold en_rango; simpl; lia|]).
    destruct H.
  - unfold primer_destino_cabe, paquetes_por_destino, capacidad.
    simpl. lia.
  - simpl. lia.
Defined.

(** ** The shared list of active hubs *)

(** X20. A call of [probar_combinaciones] that returns leaves the shared
    list [hubs_activos] as it found it: every hub appended is popped
    again.  The leaves it evaluates are added to the log, each with the
    list as it was found followed by some of the hubs from [indice] on,
    in their order. *)
Theorem probar_combinaciones_restaura (dat : datos) (m : matrix)
  (fuel indice : nat) (ca : num) (st st' : estado) :
  (indice <= length (hubs dat))%nat ->
  (length (hubs dat) - indice <= fuel)%nat ->
  probar_combinaciones dat m fuel indice ca st = Ok st' ->
  hubs_activos st' = hubs_activos st
  /\ exists es,
       traza st' = traza st ++ es
       /\ forall e, In e es ->
            exists s, ev_hubs e = hubs_activos st ++ s
                      /\ sublista s (skipn indice (hubs dat)).
Proof.
  intros Hi Hf H. rewrite probar_spec in H by assumption.
  destruct (map_res _ _) as [es| |] eqn:E; simpl in H; try discriminate.
  injection H as <-. split; [apply tras_hojas_activos|].
  exists es. split; [apply tras_hojas_traza|].
  intros e He.
  assert (Hh := evaluar_hubs _ _ _ _ E). rewrite hojas_desde_hubs in Hh.
  apply (in_map ev_hubs) in He. rewrite Hh in He.
  apply in_map_iff in He. destruct He as (s & <- & Hs).
  exists s. split; [reflexivity|]. now apply subconjuntos_sublista.
Qed.

(** X20 on the case with one hub, from a list that holds node 3. *)
Lemma probar_combinaciones_restaura_witness :
  exists st',
    probar_combinaciones caso_hub matriz_hub 1 0 (Fin 0)
      (con_activos [3] estado_inicial) = Ok st'
    /\ hubs_activos st' = [3].
Proof.
  eexists. split; [vm_compute; reflexivity|].
  eapply (probar_combinaciones_restaura caso_hub matriz_hub 1 0 (Fin 0)
            (con_activos [3] estado_inicial)).
  - simpl. lia.
  - simpl. lia.
  - vm_compute. reflexivity.
Defined.
